(** * SORT, [src/bsdf/hair.cpp]: the fiber scattering model

    A shallow embedding of the hair BSDF of SORT (evaluate, importance
    sampling, density) and of the static helpers it is built from, together
    with the properties its specification states about them.

    Numbers are what the C++ code computes with: IEEE-754 binary32 values
    ([float]) and, where a [double] literal promotes an expression, binary64
    values.  Both are instances of the Standard Library's [SpecFloat]
    (round to nearest, ties to even), so every definition below runs. *)

From Stdlib Require Import ZArith Bool Lia List.
From Stdlib Require Import Floats.SpecFloat.
From stdpp Require Import base option list.

Open Scope Z_scope.

(** ** Binary32 and binary64 arithmetic *)

Definition float := spec_float.
Definition double := spec_float.

Module F32.
Definition prec : Z := 24.
Definition emax : Z := 128.
Definition add : float -> float -> float := SFadd prec emax.
Definition sub : float -> float -> float := SFsub prec emax.
Definition mul : float -> float -> float := SFmul prec emax.
Definition div : float -> float -> float := SFdiv prec emax.
Definition sqrt : float -> float := SFsqrt prec emax.
Definition opp : float -> float := SFopp.
Definition abs : float -> float := SFabs.
Definition ltb : float -> float -> bool := SFltb.
Definition leb : float -> float -> bool := SFleb.
(** Conversion of an integer ([int], [int64_t]) to [float]. *)
Definition of_int (z : Z) : float := binary_normalize prec emax z 0 false.
(** The [float] literal written [n/d] in decimal: the nearest binary32
    value of the quotient. *)
Definition lit (n d : positive) : float :=
  SFdiv prec emax (S754_finite false n 0) (S754_finite false d 0).
(** Conversion of a [double] to [float] (rounds). *)
Definition of_double (x : double) : float := SFldexp prec emax x 0.
Definition is_nan (x : float) : bool :=
  match x with S754_nan => true | _ => false end.
Definition is_finite (x : float) : bool :=
  match x with S754_zero _ | S754_finite _ _ _ => true | _ => false end.
End F32.

Module F64.
Definition prec : Z := 53.
Definition emax : Z := 1024.
Definition add : double -> double -> double := SFadd prec emax.
Definition mul : double -> double -> double := SFmul prec emax.
Definition leb : double -> double -> bool := SFleb.
Definition lit (n d : positive) : double :=
  SFdiv prec emax (S754_finite false n 0) (S754_finite false d 0).
(** Promotion of a [float] to [double] (exact). *)
Definition of_float (x : float) : double := SFldexp prec emax x 0.
End F64.

Declare Scope f32_scope.
Delimit Scope f32_scope with f32.
Bind Scope f32_scope with float.
Infix "+" := F32.add : f32_scope.
Infix "-" := F32.sub : f32_scope.
Infix "*" := F32.mul : f32_scope.
Infix "/" := F32.div : f32_scope.
Notation "- x" := (F32.opp x) : f32_scope.
Infix "<?" := F32.ltb : f32_scope.
Infix "<=?" := F32.leb : f32_scope.
Notation "x >? y" := (F32.ltb y x) : f32_scope.
Notation "0" := (S754_zero false) : f32_scope.
Notation "1" := (F32.of_int 1) : f32_scope.
Notation "2" := (F32.of_int 2) : f32_scope.
Notation "4" := (F32.of_int 4) : f32_scope.
Notation "8" := (F32.of_int 8) : f32_scope.
Notation "12" := (F32.of_int 12) : f32_scope.
Definition NaN : float := S754_nan.

(** Machine integers: [int] and [int64_t] with their wrap-around. *)
Definition int32 (z : Z) : Z := (z + 2 ^ 31) mod 2 ^ 32 - 2 ^ 31.
Definition int64 (z : Z) : Z := (z + 2 ^ 63) mod 2 ^ 64 - 2 ^ 63.

(** ** Loops *)

(** [for( i = lo ; i < hi ; ++i ) body]. *)
Fixpoint for_loop {S : Type} (n i : nat) (body : nat -> S -> S) (s : S) : S :=
  match n with
  | O => s
  | Datatypes.S n' => for_loop n' (Datatypes.S i) body (body i s)
  end.

Definition for_range {S : Type} (lo hi : nat) (body : nat -> S -> S) (s : S) : S :=
  for_loop (hi - lo) lo body s.

(** [while( cond ) body], run for at most [fuel] iterations; [None] when the
    loop is still running after that. *)
Fixpoint while_loop (fuel : nat) (cond : float -> bool) (body : float -> float)
    (x : float) : option float :=
  if cond x then
    match fuel with
    | O => None
    | Datatypes.S n => while_loop n cond body (body x)
    end
  else Some x.

(** ** Declarations that live outside [src/] *)

(** Modelled from the spec: the lobe count [PMAX] of [hair.h], "a small fixed
    constant (value 3 in the exemplar)". *)
Definition PMAX : nat := 3.

(** Modelled from the spec: the constants [PI], [TWO_PI] and [INV_TWOPI] of
    the math utilities, as the binary32 values nearest to pi, 2 pi and
    1 / (2 pi). *)
Definition PI : float := F32.lit 3141592653589793 1000000000000000.
Definition TWO_PI : float := F32.lit 6283185307179586 1000000000000000.
Definition INV_TWOPI : float := F32.lit 1591549430918953 10000000000000000.

(** Modelled from the spec: the macro [SQR] and the math utilities [ssqrt]
    ("clamped square-root (returns 0 rather than NaN for small negative
    arguments from rounding)"), [clamp] and [Pow<N>] (a product of [N]
    factors). *)
Definition SQR (x : float) : float := (x * x)%f32.

Definition ssqrt (x : float) : float :=
  F32.sqrt (if (x <? 0)%f32 then 0%f32 else x).

Definition clamp (x lo hi : float) : float :=
  if (x <? lo)%f32 then lo else if (x >? hi)%f32 then hi else x.

Fixpoint Pow (n : nat) (x : float) : float :=
  match n with
  | O => 1%f32
  | 1%nat => x
  | Datatypes.S n' => (x * Pow n' x)%f32
  end.

(** Modelled from the spec: the energy value [Spectrum], "a small fixed-size
    tuple of non-negative channel intensities with arithmetic"; three
    channels, every operation channel by channel.  A [float] operand of a
    [Spectrum] operator acts on every channel, which is what [splat]
    followed by the channel-wise operator computes. *)
Record Spectrum : Type := RGB { red : float; green : float; blue : float }.

Definition splat (x : float) : Spectrum := RGB x x x.

Definition Spectrum_map2 (op : float -> float -> float) (a b : Spectrum) : Spectrum :=
  RGB (op (red a) (red b)) (op (green a) (green b)) (op (blue a) (blue b)).

Declare Scope spectrum_scope.
Delimit Scope spectrum_scope with spectrum.
Bind Scope spectrum_scope with Spectrum.
Infix "+" := (Spectrum_map2 F32.add) : spectrum_scope.
Infix "-" := (Spectrum_map2 F32.sub) : spectrum_scope.
Infix "*" := (Spectrum_map2 F32.mul) : spectrum_scope.
Infix "/" := (Spectrum_map2 F32.div) : spectrum_scope.

#[global] Instance Spectrum_inhabited : Inhabited Spectrum := populate (splat 0%f32).
#[global] Instance float_inhabited : Inhabited float := populate 0%f32.

(** The functions of the C math library the code calls, on [float]
    arguments, and the two functions of the repository whose definitions are
    not under [src/]: the dielectric Fresnel reflectance of [fresnel.h] and
    the scalar intensity of a [Spectrum].  The code is embedded over any
    implementation of them. *)
Class Extern : Type := {
  exp : float -> float;
  log : float -> float;
  sin : float -> float;
  cos : float -> float;
  asin : float -> float;
  atan2 : float -> float -> float;
  sinh : float -> float;
  DielectricFresnel : float -> float -> float -> float;
  GetIntensity : Spectrum -> float
}.

Section HairCpp.
Context {E : Extern}.

(** [Spectrum::Exp]. *)
Definition Exp (s : Spectrum) : Spectrum := RGB (exp (red s)) (exp (green s)) (exp (blue s)).

(** ** The static helpers of hair.cpp *)

Definition Ap (cosThetaO eta sinGammaT : float) (T : Spectrum) (ap : list Spectrum)
    : list Spectrum :=
  let cosGammaO := ssqrt (1 - SQR sinGammaT)%f32 in
  let cosTheta := (cosThetaO * cosGammaO)%f32 in
  let f := DielectricFresnel cosTheta 1%f32 eta in
  let ap := <[ 0%nat := splat f ]> ap in
  let ap := <[ 1%nat := (T * splat (SQR (1 - f)%f32))%spectrum ]> ap in
  let ap := for_range 2 PMAX
              (fun i ap => <[ i := (ap !!! (i - 1)%nat * T * splat f)%spectrum ]> ap) ap in
  <[ PMAX := (ap !!! (PMAX - 1)%nat * splat f * T / (splat 1%f32 - T * splat f))%spectrum ]> ap.

(** The loop state of [I0]: [val], [x2i], [ifact] ([int64_t]) and [i4] ([int]). *)
Definition I0_step (x : float) (i : nat) (st : float * float * Z * Z)
    : float * float * Z * Z :=
  let '(val, x2i, ifact, i4) := st in
  let ifact := if (1 <? i)%nat then int64 (ifact * Z.of_nat i) else ifact in
  let val := (val + x2i / F32.of_int (int64 (i4 * int64 (ifact * ifact))))%f32 in
  let x2i := (x2i * (x * x))%f32 in
  let i4 := int32 (i4 * 4) in
  (val, x2i, ifact, i4).

Definition I0 (x : float) : float :=
  let '(val, _, _, _) := for_range 0 10 (I0_step x) (0%f32, 1%f32, 1, 1) in
  val.

(** [0.5 * ( ... )] is a [double] product and [x + ...] a [double] sum; the
    [return] converts to [float]. *)
Definition LogI0 (x : float) : float :=
  if (x >? 12)%f32 then
    let s := (- log TWO_PI + log (1 / x) + 1 / (8 * x))%f32 in
    F32.of_double
      (F64.add (F64.of_float x) (F64.mul (F64.lit 5 10) (F64.of_float s)))
  else log (I0 x).

(** [v <= .1] compares in [double]. *)
Definition Mp (cosThetaI cosThetaO sinThetaI sinThetaO v : float) : float :=
  let a := (cosThetaI * cosThetaO / v)%f32 in
  let b := (sinThetaI * sinThetaO / v)%f32 in
  if F64.leb (F64.of_float v) (F64.lit 1 10) then
    exp (LogI0 a - b - 1 / v + F32.lit 6931 10000 + log (1 / (2 * v)))%f32
  else
    (exp (- b) * I0 a / (sinh (1 / v) * 2 * v))%f32.

Definition Phi (p : nat) (gammaO gammaT : float) : float :=
  let p := F32.of_int (Z.of_nat p) in
  (2 * p * gammaT - 2 * gammaO + p * PI)%f32.

Definition Logistic (x scale : float) : float :=
  let x := F32.abs x in
  (exp (- x / scale) / (scale * SQR (1 + exp (- x / scale))))%f32.

Definition LogisticCDF (x scale : float) : float :=
  (1 / (1 + exp (- x / scale)))%f32.

Definition TrimmedLogistic (x scale a b : float) : float :=
  (Logistic x scale / (LogisticCDF b scale - LogisticCDF a scale))%f32.

Definition SampleTrimmedLogistic (r scale a b : float) : float :=
  let k := (LogisticCDF b scale - LogisticCDF a scale)%f32 in
  let x := (- scale * log (1 / (r * k + LogisticCDF a scale) - 1))%f32 in
  clamp x a b.

(** The two [while] loops of [Np] run on [fuel]. *)
Definition Np_reduce (fuel : nat) (dphi : float) : option float :=
  dphi ← while_loop fuel (fun d => d >? PI)%f32 (fun d => d - TWO_PI)%f32 dphi;
  while_loop fuel (fun d => d <? - PI)%f32 (fun d => d + TWO_PI)%f32 dphi.

Definition Np (fuel : nat) (phi : float) (p : nat) (scale gammaO gammaT : float)
    : option float :=
  dphi ← Np_reduce fuel (phi - Phi p gammaO gammaT)%f32;
  Some (TrimmedLogistic dphi scale (- PI)%f32 PI).

Definition ComputeApPdf (cosGammaO cosThetaO sinThetaO eta : float) (sigma : Spectrum)
    (pdf : list float) : list float :=
  let sinThetaT := (sinThetaO / eta)%f32 in
  let cosThetaT := ssqrt (1 - SQR sinThetaT)%f32 in
  let etap := (F32.sqrt (SQR eta - SQR sinThetaO) / cosThetaO)%f32 in
  let sinGammaO := ssqrt (1 - SQR cosGammaO)%f32 in
  let sinGammaT := (sinGammaO / etap)%f32 in
  let cosGammaT := ssqrt (1 - SQR sinGammaT)%f32 in
  let gammaT := asin (clamp sinGammaT (- (1))%f32 1%f32) in
  let T := (sigma * splat (- (2) * cosGammaT / cosThetaT)%f32)%spectrum in
  let expT := Exp T in
  let ap := Ap cosThetaO eta sinGammaT expT (replicate (PMAX + 1) inhabitant) in
  let sumY := for_range 0 (PMAX + 1)
                (fun i sumY => (sumY + GetIntensity (ap !!! i))%f32) 0%f32 in
  for_range 0 (PMAX + 1)
    (fun i pdf => <[ i := (GetIntensity (ap !!! i) / sumY)%f32 ]> pdf) pdf.

End HairCpp.

(** ** The class [Hair] *)

Module Vector.
Record t : Type := Vector3f { x : float; y : float; z : float }.
End Vector.
Abbreviation Vector := Vector.t.
Abbreviation Vector3f := Vector.Vector3f.

(** The canonical random source [sort_canonical()]: the sequence of uniform
    draws and the position of the next one. *)
Record Canonical : Type := { draws : nat -> float; next : nat }.

Definition sort_canonical (g : Canonical) : float * Canonical :=
  (draws g (next g), {| draws := draws g; next := Datatypes.S (next g) |}).

Module Hair.

(** The data members of [Hair] that the three operations read. *)
Record t : Type := {
  m_sigma : Spectrum;
  m_lRoughness : float;
  m_aRoughness : float;
  m_eta : float;
  m_v : list float;
  m_sin2kAlpha : list float;
  m_cos2kAlpha : list float;
  m_scale : float;
  m_etaSqr : float
}.

(** The constructor [Hair::Hair].  [.25 * m_v[0]] is a [double] product
    stored to a [float]; [alpha] is the [float] quotient [2.0f / 180.0f]. *)
Section Methods.
Context {E : Extern}.

Definition Hair (absorption : Spectrum) (lRoughness aRoughness ior : float) : t :=
  let m_v := replicate (PMAX + 1) 0%f32 in
  let m_v := <[ 0%nat := SQR (F32.lit 726 1000 * lRoughness
                           + F32.lit 812 1000 * SQR lRoughness
                           + F32.lit 37 10 * Pow 20 lRoughness)%f32 ]> m_v in
  let m_v := <[ 1%nat := F32.of_double
                           (F64.mul (F64.lit 25 100) (F64.of_float (m_v !!! 0%nat))) ]> m_v in
  let m_v := <[ 2%nat := (4 * m_v !!! 0%nat)%f32 ]> m_v in
  let m_v := for_range 3 (PMAX + 1) (fun p m_v => <[ p := m_v !!! 2%nat ]> m_v) m_v in
  let alpha := (F32.lit 2 1 / F32.lit 180 1)%f32 in
  let m_sin := <[ 0%nat := sin alpha ]> (replicate PMAX 0%f32) in
  let m_cos := <[ 0%nat := ssqrt (1 - SQR (m_sin !!! 0%nat))%f32 ]> (replicate PMAX 0%f32) in
  let '(m_sin, m_cos) :=
    for_range 1 PMAX
      (fun i '(m_sin, m_cos) =>
         let m_sin' := <[ i := (2 * m_cos !!! (i - 1)%nat * m_sin !!! (i - 1)%nat)%f32 ]> m_sin in
         let m_cos' := <[ i := (SQR (m_cos !!! (i - 1)%nat)
                                - SQR (m_sin !!! (i - 1)%nat))%f32 ]> m_cos in
         (m_sin', m_cos'))
      (m_sin, m_cos) in
  let SqrtPiOver8 := F32.lit 626657069 1000000000 in
  {| m_sigma := absorption;
     m_lRoughness := lRoughness;
     m_aRoughness := aRoughness;
     m_eta := ior;
     m_v := m_v;
     m_sin2kAlpha := m_sin;
     m_cos2kAlpha := m_cos;
     m_scale := (SqrtPiOver8 * (F32.lit 265 1000 * aRoughness
                                + F32.lit 1194 1000 * SQR aRoughness
                                + F32.lit 5372 1000 * Pow 22 aRoughness))%f32;
     m_etaSqr := SQR ior |}.

Variable h : t.

(** The cuticle-tilt branch repeated in [f], [sample_f] and [pdf]:
    [(sinThetaIp, cosThetaIp)] for lobe [p]. *)
Definition tilt (p : nat) (sinThetaI cosThetaI : float) : float * float :=
  let s k := m_sin2kAlpha h !!! k in
  let c k := m_cos2kAlpha h !!! k in
  if (p =? 0)%nat then
    ((sinThetaI * c 1%nat + cosThetaI * s 1%nat)%f32,
     (cosThetaI * c 1%nat - sinThetaI * s 1%nat)%f32)
  else if (p =? 1)%nat then
    ((sinThetaI * c 0%nat - cosThetaI * s 0%nat)%f32,
     (cosThetaI * c 0%nat + sinThetaI * s 0%nat)%f32)
  else if (p =? 2)%nat then
    ((sinThetaI * c 2%nat - cosThetaI * s 2%nat)%f32,
     (cosThetaI * c 2%nat + sinThetaI * s 2%nat)%f32)
  else (sinThetaI, cosThetaI).

(** One iteration of the lobe loop of [f]: [fsum += Mp * ap[p] * Np]. *)
Definition f_lobe (fuel : nat) (ap : list Spectrum)
    (sinThetaI cosThetaI sinThetaO cosThetaO phi gammaO gammaT : float)
    (p : nat) (fsum : option Spectrum) : option Spectrum :=
  fsum ← fsum;
  let '(sinThetaIp, cosThetaIp) := tilt p sinThetaI cosThetaI in
  let cosThetaIp := F32.abs cosThetaIp in
  np ← Np fuel phi p (m_scale h) gammaO gammaT;
  Some (fsum + splat (Mp cosThetaIp cosThetaO sinThetaIp sinThetaO (m_v h !!! p))
               * ap !!! p * splat np)%spectrum.

Definition f (fuel : nat) (wo wi : Vector) : option Spectrum :=
  let sinThetaO := Vector.x wo in
  let cosThetaO := ssqrt (1 - SQR sinThetaO)%f32 in
  let phiO := atan2 (Vector.y wo) (Vector.z wo) in
  let sinThetaI := Vector.x wi in
  let cosThetaI := ssqrt (1 - SQR sinThetaI)%f32 in
  let phiI := atan2 (Vector.y wi) (Vector.z wi) in
  let sinThetaT := (sinThetaO / m_eta h)%f32 in
  let cosThetaT := ssqrt (1 - SQR sinThetaT)%f32 in
  let etap := (F32.sqrt (m_etaSqr h - SQR sinThetaO) / cosThetaO)%f32 in
  let cosGammaO := Vector.y wo in
  let sinGammaO := ssqrt (1 - SQR cosGammaO)%f32 in
  let gammaO := asin (clamp sinGammaO (- (1))%f32 1%f32) in
  let sinGammaT := (sinGammaO / etap)%f32 in
  let cosGammaT := ssqrt (1 - SQR sinGammaT)%f32 in
  let gammaT := asin (clamp sinGammaT (- (1))%f32 1%f32) in
  let T := (m_sigma h * splat (- (2) * cosGammaT / cosThetaT)%f32)%spectrum in
  let expT := Exp T in
  let phi := (phiI - phiO)%f32 in
  let ap := Ap cosThetaO (m_eta h) sinGammaT expT (replicate (PMAX + 1) inhabitant) in
  fsum ← for_range 0 PMAX
           (f_lobe fuel ap sinThetaI cosThetaI sinThetaO cosThetaO phi gammaO gammaT)
           (Some (splat 0%f32));
  Some (fsum + splat (Mp cosThetaI cosThetaO sinThetaI sinThetaO (m_v h !!! PMAX))
               * ap !!! PMAX * splat INV_TWOPI)%spectrum.

(** One iteration of the density loop shared, as text, by [sample_f] and
    [pdf]: [pdf += Mp * apPdf[p] * Np]. *)
Definition pdf_lobe (fuel : nat) (apPdf : list float)
    (sinThetaI cosThetaI sinThetaO cosThetaO phi gammaO gammaT : float)
    (p : nat) (acc : option float) : option float :=
  acc ← acc;
  let '(sinThetaIp, cosThetaIp) := tilt p sinThetaI cosThetaI in
  let cosThetaIp := F32.abs cosThetaIp in
  np ← Np fuel phi p (m_scale h) gammaO gammaT;
  Some (acc + Mp cosThetaIp cosThetaO sinThetaIp sinThetaO (m_v h !!! p)
              * apPdf !!! p * np)%f32.

Definition pdf (fuel : nat) (wo wi : Vector) : option float :=
  let sinThetaO := Vector.x wo in
  let cosThetaO := ssqrt (1 - SQR sinThetaO)%f32 in
  let phiO := atan2 (Vector.y wo) (Vector.z wo) in
  let sinThetaI := Vector.x wi in
  let cosThetaI := ssqrt (1 - SQR sinThetaI)%f32 in
  let phiI := atan2 (Vector.y wi) (Vector.z wi) in
  let sinThetaT := (sinThetaO / m_eta h)%f32 in
  let cosThetaT := ssqrt (1 - SQR sinThetaT)%f32 in
  let etap := (F32.sqrt (m_etaSqr h - SQR sinThetaO) / cosThetaO)%f32 in
  let cosGammaO := Vector.y wo in
  let sinGammaO := ssqrt (1 - SQR cosGammaO)%f32 in
  let gammaO := asin (clamp sinGammaO (- (1))%f32 1%f32) in
  let sinGammaT := (sinGammaO / etap)%f32 in
  let cosGammaT := ssqrt (1 - SQR sinGammaT)%f32 in
  let gammaT := asin (clamp sinGammaT (- (1))%f32 1%f32) in
  let apPdf := ComputeApPdf (Vector.y wo) cosThetaO sinThetaO (m_eta h) (m_sigma h)
                 (replicate (PMAX + 1) 0%f32) in
  let phi := (phiI - phiO)%f32 in
  pdf ← for_range 0 PMAX
          (pdf_lobe fuel apPdf sinThetaI cosThetaI sinThetaO cosThetaO phi gammaO gammaT)
          (Some 0%f32);
  Some (pdf + Mp cosThetaI cosThetaO sinThetaI sinThetaO (m_v h !!! PMAX)
              * apPdf !!! PMAX * INV_TWOPI)%f32.

(** The lobe scan of [sample_f]:
    [for( ; p < PMAX ; ++p ){ if( r < apPdf[p] ) break; r -= apPdf[p]; }],
    with [n] the iterations left before [p] reaches the bound. *)
Fixpoint select_lobe (n p : nat) (r : float) (apPdf : list float) : nat :=
  match n with
  | O => p
  | Datatypes.S n' =>
      if (r <? apPdf !!! p)%f32 then p
      else select_lobe n' (Datatypes.S p) (r - apPdf !!! p)%f32 apPdf
  end.

(** [sample_f]: the sampled [wi], the density written through [pPdf] when
    the pointer is not null ([want_pdf]), the value [f( wo , wi )], and the
    random source after the four draws. *)
Definition sample_f (fuel : nat) (wo : Vector) (want_pdf : bool) (g : Canonical)
    : option (Spectrum * Vector * option float) * Canonical :=
  let sinThetaO := Vector.x wo in
  let cosThetaO := ssqrt (1 - SQR sinThetaO)%f32 in
  let phiO := atan2 (Vector.y wo) (Vector.z wo) in
  let apPdf := ComputeApPdf (Vector.y wo) cosThetaO sinThetaO (m_eta h) (m_sigma h)
                 (replicate (PMAX + 1) 0%f32) in
  let '(r, g) := sort_canonical g in
  let p := select_lobe PMAX 0 r apPdf in
  let '(r, g) := sort_canonical g in
  let v := m_v h !!! p in
  let cosTheta := (1 + v * log (r + (1 - r) * exp (- (2) / v)))%f32 in
  let sinTheta := ssqrt (1 - SQR cosTheta)%f32 in
  let '(u, g) := sort_canonical g in
  let cosPhi := cos (TWO_PI * u)%f32 in
  let sinThetaI := (- cosTheta * sinThetaO + sinTheta * cosPhi * cosThetaO)%f32 in
  let cosThetaI := ssqrt (1 - SQR sinThetaI)%f32 in
  let '(sinThetaIp, cosThetaIp) := tilt p sinThetaI cosThetaI in
  let sinThetaI := sinThetaIp in
  let cosThetaI := cosThetaIp in
  let etap := (F32.sqrt (m_etaSqr h - SQR sinThetaO) / cosThetaO)%f32 in
  let cosGammaO := Vector.y wo in
  let sinGammaO := ssqrt (1 - SQR cosGammaO)%f32 in
  let gammaO := asin (clamp sinGammaO (- (1))%f32 1%f32) in
  let sinGammaT := (sinGammaO / etap)%f32 in
  let gammaT := asin (clamp sinGammaT (- (1))%f32 1%f32) in
  let '(u, g) := sort_canonical g in
  let dphi :=
    if (p <? PMAX)%nat
    then (Phi p gammaO gammaT + SampleTrimmedLogistic u (m_scale h) (- PI) PI)%f32
    else (TWO_PI * u)%f32 in
  let phiI := (phiO + dphi)%f32 in
  let wi := Vector3f sinThetaI (cosThetaI * sin phiI)%f32 (cosThetaI * cos phiI)%f32 in
  let pPdf :=
    if want_pdf then
      pdf ← for_range 0 PMAX
              (pdf_lobe fuel apPdf sinThetaI cosThetaI sinThetaO cosThetaO dphi gammaO gammaT)
              (Some 0%f32);
      Some (Some (pdf + Mp cosThetaI cosThetaO sinThetaI sinThetaO (m_v h !!! PMAX)
                        * apPdf !!! PMAX * INV_TWOPI)%f32)
    else Some None in
  (pPdf ← pPdf; fv ← f fuel wo wi; Some (fv, wi, pPdf), g).

End Methods.
End Hair.

(** ** A reference implementation of the external functions

    Used to run the code on concrete inputs.  The math-library functions are
    evaluated in binary64 (argument reduction and a truncated series) and
    rounded to [float]; they return the exact values the C standard (Annex F)
    fixes at zeros, infinities and NaN.  The Fresnel term is the unpolarised
    dielectric reflectance and the intensity a weighted sum of the
    channels. *)

Module Ref.

Declare Scope f64_scope.
Delimit Scope f64_scope with f64.
Infix "+" := (SFadd 53 1024) : f64_scope.
Infix "-" := (SFsub 53 1024) : f64_scope.
Infix "*" := (SFmul 53 1024) : f64_scope.
Infix "/" := (SFdiv 53 1024) : f64_scope.
Notation "- x" := (SFopp x) : f64_scope.

Definition dint (z : Z) : double := binary_normalize 53 1024 z 0 false.
Definition one : double := dint 1.
Definition ln2 : double := F64.lit 6931471805599453 10000000000000000.
Definition pi : double := F64.lit 3141592653589793 1000000000000000.
Definition half_pi : double := (F64.lit 5 10 * pi)%f64.

(** The integer nearest to a finite value (ties away from zero). *)
Definition nearest_int (x : double) : Z :=
  let t := if SFltb x (S754_zero false) then (x - F64.lit 5 10)%f64
           else (x + F64.lit 5 10)%f64 in
  match t with
  | S754_finite s m (Zneg p) => cond_Zopp s (Z.shiftr (Zpos m) (Zpos p))
  | S754_finite s m e => cond_Zopp s (Z.shiftl (Zpos m) e)
  | _ => 0
  end.

(** [1 + x/k (1 + x/(k+1) (1 + ...))], [n] factors deep. *)
Fixpoint exp_series (n : nat) (k : Z) (x : double) : double :=
  match n with
  | O => one
  | S n' => (one + x / dint k * exp_series n' (k + 1) x)%f64
  end.

Definition exp64 (x : double) : double :=
  let k := nearest_int (x / ln2)%f64 in
  let r := (x - dint k * ln2)%f64 in
  SFldexp 53 1024 (exp_series 22 1 r) k.

Definition clamp64 (x : double) (b : Z) : double :=
  if SFltb (dint b) x then dint b else if SFltb x (dint (- b)) then dint (- b) else x.

(** [1/k + t (1/(k+2) + t (...))]: the odd series of atanh ([sgn = false])
    or atan ([sgn = true], alternating). *)
Fixpoint odd_series (sgn : bool) (n : nat) (k : Z) (t : double) : double :=
  match n with
  | O => (one / dint k)%f64
  | S n' =>
      let rest := (t * odd_series sgn n' (k + 2) t)%f64 in
      if sgn then (one / dint k - rest)%f64 else (one / dint k + rest)%f64
  end.

Definition log64 (x : double) : double :=
  let '(fr, e) := SFfrexp 53 1024 x in
  let '(fr, e) := if SFltb fr (F64.lit 7071 10000) then ((dint 2 * fr)%f64, e - 1)
                  else (fr, e) in
  let s := ((fr - one) / (fr + one))%f64 in
  (dint e * ln2 + dint 2 * (s * odd_series false 14 1 (s * s)))%f64.

(** [1 - t/(k (k+1)) (1 - t/((k+2)(k+3)) (...))] with [t = r^2]. *)
Fixpoint trig_series (n : nat) (k : Z) (t : double) : double :=
  match n with
  | O => one
  | S n' => (one - t / dint (k * (k + 1)) * trig_series n' (k + 2) t)%f64
  end.

Definition sin_cos64 (x : double) : double * double :=
  let k := nearest_int (x / half_pi)%f64 in
  let r := (x - dint k * half_pi)%f64 in
  let s := (r * trig_series 12 2 (r * r))%f64 in
  let c := trig_series 12 1 (r * r)%f64 in
  match k mod 4 with
  | 0 => (s, c)
  | 1 => (c, (- s)%f64)
  | 2 => ((- s)%f64, (- c)%f64)
  | _ => ((- c)%f64, s)
  end.

(** Arc tangent of a non-negative value: two half-angle reductions, then
    the series. *)
Definition atan_unit (t : double) : double :=
  let halve t := (t / (one + SFsqrt 53 1024 (one + t * t)))%f64 in
  let u := halve (halve t) in
  (dint 4 * (u * odd_series true 16 1 (u * u)))%f64.

Definition atan64 (t : double) : double :=
  if SFltb one t then (half_pi - atan_unit (one / t))%f64 else atan_unit t.

Definition sign_of (x : float) : bool :=
  match x with
  | S754_zero s | S754_infinity s | S754_finite s _ _ => s
  | S754_nan => false
  end.

Definition with_sign (s : bool) (x : double) : double := if s then SFopp x else x.

Definition expf (x : float) : float :=
  match x with
  | S754_nan => NaN
  | S754_infinity false => x
  | S754_infinity true => 0%f32
  | S754_zero _ => 1%f32
  | _ => F32.of_double (exp64 (clamp64 (F64.of_float x) 200))
  end.

Definition logf (x : float) : float :=
  match x with
  | S754_nan => NaN
  | S754_zero _ => S754_infinity true
  | S754_infinity false => x
  | S754_infinity true | S754_finite true _ _ => NaN
  | _ => F32.of_double (log64 (F64.of_float x))
  end.

Definition sinf (x : float) : float :=
  match x with
  | S754_nan | S754_infinity _ => NaN
  | S754_zero _ => x
  | _ => F32.of_double (fst (sin_cos64 (F64.of_float x)))
  end.

Definition cosf (x : float) : float :=
  match x with
  | S754_nan | S754_infinity _ => NaN
  | S754_zero _ => 1%f32
  | _ => F32.of_double (snd (sin_cos64 (F64.of_float x)))
  end.

Definition atan2f (y x : float) : float :=
  let sy := sign_of y in
  let quarter := (F64.lit 25 100 * pi)%f64 in
  F32.of_double
    match y, x with
    | S754_nan, _ | _, S754_nan => NaN
    | S754_zero _, (S754_zero false | S754_finite false _ _ | S754_infinity false) =>
        S754_zero sy
    | S754_zero _, _ => with_sign sy pi
    | S754_infinity _, S754_infinity false => with_sign sy quarter
    | S754_infinity _, S754_infinity true => with_sign sy (dint 3 * quarter)%f64
    | S754_infinity _, _ => with_sign sy half_pi
    | _, S754_zero _ => with_sign sy half_pi
    | _, S754_infinity false => S754_zero sy
    | _, S754_infinity true => with_sign sy pi
    | _, _ =>
        let a := atan64 (SFabs (F64.of_float y / F64.of_float x)%f64) in
        with_sign sy (if sign_of x then (pi - a)%f64 else a)
    end.

Definition asinf (x : float) : float :=
  match x with
  | S754_nan | S754_infinity _ => NaN
  | S754_zero _ => x
  | _ =>
      let a := SFabs (F64.of_float x) in
      if SFltb one a then NaN
      else F32.of_double
             (with_sign (sign_of x)
                (atan64 (a / SFsqrt 53 1024 ((one - a) * (one + a)))%f64))
  end.

Definition sinhf (x : float) : float :=
  match x with
  | S754_nan => NaN
  | S754_infinity _ | S754_zero _ => x
  | _ =>
      let d := clamp64 (F64.of_float x) 200 in
      F32.of_double (F64.lit 5 10 * (exp64 d - exp64 (- d)))%f64
  end.

(** The unpolarised Fresnel reflectance of a dielectric boundary. *)
Definition Fresnel (cosI etaI etaT : float) : float :=
  let cosI := clamp (F32.abs cosI) 0%f32 1%f32 in
  let sinI := ssqrt (1 - SQR cosI)%f32 in
  let sinT := (etaI / etaT * sinI)%f32 in
  if (1 <=? sinT)%f32 then 1%f32
  else
    let cosT := ssqrt (1 - SQR sinT)%f32 in
    let Rparl := ((etaT * cosI - etaI * cosT) / (etaT * cosI + etaI * cosT))%f32 in
    let Rperp := ((etaI * cosI - etaT * cosT) / (etaI * cosI + etaT * cosT))%f32 in
    ((SQR Rparl + SQR Rperp) * F32.lit 5 10)%f32.

Definition Intensity (s : Spectrum) : float :=
  (F32.lit 212671 1000000 * red s + F32.lit 715160 1000000 * green s
   + F32.lit 72169 1000000 * blue s)%f32.

Definition extern : Extern := {|
  exp := expf;
  log := logf;
  sin := sinf;
  cos := cosf;
  asin := asinf;
  atan2 := atan2f;
  sinh := sinhf;
  DielectricFresnel := Fresnel;
  GetIntensity := Intensity
|}.

End Ref.

(** * Vocabulary of the properties *)

(** The running value of [r] in the lobe scan after [k] iterations:
    [r - apPdf[0] - ... - apPdf[k-1]], subtracted in that order. *)
Fixpoint remainder (k : nat) (r : float) (apPdf : list float) : float :=
  match k with
  | O => r
  | S k' => (remainder k' r apPdf - apPdf !!! k')%f32
  end.

(** [x^(2 i)], multiplied up as the loop of [I0] does. *)
Fixpoint x2i_at (x : float) (i : nat) : float :=
  match i with
  | O => 1%f32
  | S i' => (x2i_at x i' * (x * x))%f32
  end.

(** The [i]-th term of the series: [x^(2 i) / (4^i (i!)^2)]. *)
Definition I0_term (x : float) (i : nat) : float :=
  (x2i_at x i / F32.of_int (4 ^ Z.of_nat i * Z.of_nat (fact i) ^ 2))%f32.

(** The configuration of the spec's concrete scenario: no absorption,
    refractive index 1.55, both roughnesses 0.3. *)
Definition scenario : Hair.t :=
  Hair.Hair (E := Ref.extern) (splat 0%f32) (F32.lit 3 10) (F32.lit 3 10) (F32.lit 155 100).

Definition along_fiber : Vector := Vector3f 1%f32 0%f32 0%f32.
Definition across_fiber : Vector := Vector3f 0%f32 0%f32 1%f32.
Definition nanS : Spectrum := RGB NaN NaN NaN.
Definition half_draws : Canonical := {| draws := fun _ => F32.lit 5 10; next := 0 |}.

Definition digits (m : positive) : Z := Zpos (digits2_pos m).

(** Rounding of a mantissa shifted right by [k >= 1] bits, to nearest, ties
    to even. *)
Definition round_shift (m k : Z) : Z :=
  let q := m / 2 ^ k in
  let rho := m mod 2 ^ k in
  let half := 2 ^ (k - 1) in
  if (half <? rho) || ((rho =? half) && Z.odd q) then q + 1 else q.

Definition mk_float (s : bool) (m e : Z) : float :=
  match m with
  | Z0 => S754_zero s
  | Zpos p => if e <=? 104 then S754_finite s p e else S754_infinity s
  | Zneg _ => S754_nan
  end.

(** A finite value is valid when its mantissa is canonical and its exponent
    in range. *)
Definition valid (x : float) : Prop := valid_binary 24 128 x = true.

(** The value of a finite [float] in units of [2^-149]. *)
Definition B2Z (x : float) : Z :=
  match x with
  | S754_finite s m e => cond_Zopp s (Zpos m * 2 ^ (e + 149))
  | _ => 0
  end.

(** Rounding of a positive integer number of units to 24 significant bits. *)
Definition RNz (N : Z) : Z :=
  let n := Z.log2 N + 1 - 24 in
  if n <=? 0 then N else round_shift N n * 2 ^ n.

(** [fin x]: [x] is a zero or a valid finite value. *)
Definition fin (x : float) : Prop :=
  match x with
  | S754_zero _ => True
  | S754_finite _ m e => bounded 24 128 m e = true
  | _ => False
  end.

(** Rounding of a signed number of units. *)
Definition RZ (D : Z) : Z :=
  match D with
  | Z0 => 0
  | Zpos _ => RNz D
  | Zneg p => - RNz (Zpos p)
  end.

Definition PIz : Z := 13176795 * 2 ^ 127.

Definition above_PI (d : float) : bool := (d >? PI)%f32.
Definition below_PI (d : float) : bool := (d <? - PI)%f32.
Definition step_down (d : float) : float := (d - TWO_PI)%f32.
Definition step_up (d : float) : float := (d + TWO_PI)%f32.

(** The largest magnitude, [2^27], from which the reduction of [Np] is
    shown to return. *)
Definition ANGLE_BOUND : float := F32.of_int 134217728.

(** [a] and [b] agree within the relative tolerance [tol]:
    [|a - b| <= tol (|a| + |b|)]. *)
Definition within_tolerance (tol a b : float) : bool :=
  (F32.abs (a - b) <=? tol * (F32.abs a + F32.abs b))%f32.

Definition across_fiber_y : Vector := Vector3f 0%f32 1%f32 0%f32.

(** The entry and refraction angles [(gammaO, gammaT)] of the outgoing
    direction, as [f], [pdf] and [sample_f] compute them. *)
Definition entry_angles `{E : Extern} (h : Hair.t) (wo : Vector) : float * float :=
  let sinThetaO := Vector.x wo in
  let cosThetaO := ssqrt (1 - SQR sinThetaO)%f32 in
  let etap := (F32.sqrt (Hair.m_etaSqr h - SQR sinThetaO) / cosThetaO)%f32 in
  let sinGammaO := ssqrt (1 - SQR (Vector.y wo))%f32 in
  (asin (clamp sinGammaO (- (1))%f32 1%f32),
   asin (clamp (sinGammaO / etap)%f32 (- (1))%f32 1%f32)).

(** The sum over the lobes that [pdf] and the density block of [sample_f]
    both compute, as a function of the incoming sine, cosine and azimuthal
    offset it is evaluated at. *)
Definition lobe_sum `{E : Extern} (h : Hair.t) (fuel : nat) (wo : Vector)
    (sinThetaI cosThetaI phi : float) : option float :=
  let sinThetaO := Vector.x wo in
  let cosThetaO := ssqrt (1 - SQR sinThetaO)%f32 in
  let apPdf := ComputeApPdf (Vector.y wo) cosThetaO sinThetaO (Hair.m_eta h) (Hair.m_sigma h)
                 (replicate (PMAX + 1) 0%f32) in
  acc ← for_range 0 PMAX
          (Hair.pdf_lobe h fuel apPdf sinThetaI cosThetaI sinThetaO cosThetaO phi
             (fst (entry_angles h wo)) (snd (entry_angles h wo)))
          (Some 0%f32);
  Some (acc + Mp cosThetaI cosThetaO sinThetaI sinThetaO (Hair.m_v h !!! PMAX)
              * apPdf !!! PMAX * INV_TWOPI)%f32.

(** The draws of the run of [sample_f] that lands beyond grazing. *)
Definition grazing_draws : Canonical :=
  {| draws := fun n => match n with
                       | 1%nat => F32.lit 94 1000
                       | 3%nat => F32.lit 5 10
                       | _ => 0%f32
                       end;
     next := 0 |}.

Definition oblique : Vector := Vector3f (- F32.lit 8 10)%f32 0%f32 (F32.lit 6 10).


(** ** The logistic distribution in the spec's words

    Written from the specification, not from the code: "a logistic density
    with the given scale ... trimmed (renormalized) to the interval".  The
    logistic density of scale [s] is [e^(-|x|/s) / (s (1 + e^(-|x|/s))^2)],
    its cumulative distribution [1 / (1 + e^(-x/s))], and the density
    trimmed to an interval is the density divided by the mass of that
    interval.  [Np] is compared with these. *)
Definition spec_logistic_density `{E : Extern} (s x : float) : float :=
  let z := exp (- F32.abs x / s)%f32 in
  (z / (s * ((1 + z) * (1 + z))))%f32.

Definition spec_logistic_cdf `{E : Extern} (s x : float) : float :=
  (1 / (1 + exp (- x / s)))%f32.

Definition spec_trimmed_logistic `{E : Extern} (s a b x : float) : float :=
  (spec_logistic_density s x / (spec_logistic_cdf s b - spec_logistic_cdf s a))%f32.

(** The unit outgoing direction [(0.12, 0.06, sqrt(1 - 0.12^2 - 0.06^2))] and
    the partition [ComputeApPdf] returns for it in the scenario fiber. *)
Definition shallow : Vector :=
  Vector3f (F32.lit 12 100) (F32.lit 6 100)
    (F32.sqrt (1 - SQR (F32.lit 12 100) - SQR (F32.lit 6 100))%f32).

Definition shallow_partition : list float :=
  ComputeApPdf (E := Ref.extern) (Vector.y shallow) (ssqrt (1 - SQR (Vector.x shallow))%f32)
    (Vector.x shallow) (Hair.m_eta scenario) (Hair.m_sigma scenario)
    (replicate (PMAX + 1) 0%f32).

(** ** Vocabulary of the construction and termination properties *)

(** The result of a rounding whose mantissa [m] already fits the format of
    precision [prec] and exponent bound [emax]. *)
Definition mk_float_at (prec emax : Z) (s : bool) (m e : Z) : spec_float :=
  match m with
  | Z0 => S754_zero s
  | Zpos p => if e <=? emax - prec then S754_finite s p e else S754_infinity s
  | Zneg _ => S754_nan
  end.

(** [normal_in lo hi x]: [x] is a positive normal [float] whose exponent lies
    in [lo, hi]. *)
Definition normal_in (lo hi : Z) (x : float) : Prop :=
  exists m e, x = S754_finite false m e /\ digits m = 24 /\ lo <= e <= hi.

(** [mag_in h x]: [x] is a zero or a valid finite [float], of either sign,
    whose exponent is at most [h]; its magnitude is below [2^(h+24)]. *)
Definition mag_in (h : Z) (x : float) : Prop :=
  match x with
  | S754_zero _ => True
  | S754_finite _ m e => bounded 24 128 m e = true /\ e <= h
  | _ => False
  end.

(** [is_nonneg x]: [x] is [+0], a positive finite value or [+infinity]. *)
Definition is_nonneg (x : spec_float) : bool :=
  match x with
  | S754_zero false | S754_finite false _ _ | S754_infinity false => true
  | _ => false
  end.

(** [small_in h x]: [x] is [+0] or a valid positive [float] whose exponent is
    at most [h]. *)
Definition small_in (h : Z) (x : float) : Prop := mag_in h x /\ is_nonneg x = true.

(** The smallest roughness, [2^-60], for which the constructor's polynomials
    are shown to stay clear of underflow. *)
Definition MIN_ROUGHNESS : float := S754_finite false 8388608 (-83).

(** The roughness, [2^-78], below which the variances underflow to zero. *)
Definition UNDERFLOW_ROUGHNESS : float := S754_finite false 8388608 (-101).

(** The variance of lobe 1 as the constructor computes it from that of
    lobe 0: the [double] product [.25 * m_v[0]], stored to a [float]. *)
Definition quarter (v : float) : float :=
  F32.of_double (F64.mul (F64.lit 25 100) (F64.of_float v)).

(** The deviation [|sin^2 + cos^2 - 1|] of the [i]-th cuticle-tilt pair. *)
Definition tilt_error (h : Hair.t) (i : nat) : float :=
  F32.abs (SQR (Hair.m_sin2kAlpha h !!! i) + SQR (Hair.m_cos2kAlpha h !!! i) - 1)%f32.

(** The tolerance of the tilt identity: [2^-22], two units in the last place
    of 1. *)
Definition TILT_TOLERANCE : float := F32.lit 1 4194304.

(** The library sine is accurate at the tilt angle: its value is within one
    unit in the last place of [sin (2/180) = 0.011110882...], whose nearest
    binary32 value is [11930220 * 2^-30]. *)
Definition sin_alpha_accurate (E : Extern) : Prop :=
  exists m : positive,
    11930219 <= Zpos m <= 11930221
    /\ sin (F32.lit 2 1 / F32.lit 180 1)%f32 = S754_finite false m (-30).

(** The series [I0] as a function of the square [x * x] of its argument, the
    only way the loop reads [x]. *)
Fixpoint sq_pow (sq : float) (i : nat) : float :=
  match i with
  | O => 1%f32
  | S i' => (sq_pow sq i' * sq)%f32
  end.

Definition I0_of_square (sq : float) : float :=
  fold_left
    (fun val i => (val + sq_pow sq i / F32.of_int (4 ^ Z.of_nat i * Z.of_nat (fact i) ^ 2))%f32)
    (seq 0 10) 0%f32.

(** [angle_ok bound x]: the angle [x] returned by a library function is NaN
    or a valid [float] of magnitude at most [bound]. *)
Definition angle_ok (bound x : float) : bool :=
  F32.is_nan x || (valid_binary 24 128 x && (F32.abs x <=? bound)%f32).

(** [nan_or_mag h x]: [x] is NaN, a zero or a valid finite value with
    exponent at most [h]. *)
Definition nan_or_mag (h : Z) (x : float) : Prop := x = NaN \/ mag_in h x.

(** The number of iterations, [2^13], that the loops of [Np] never exceed
    inside [f], [pdf] and [sample_f]. *)
Definition NP_FUEL : nat := Z.to_nat 8192.

(** The number of iterations, [2^15], that the loops of [Np] never exceed
    inside [sample_f]. *)
Definition SAMPLE_FUEL : nat := Z.to_nat 32768.

(** [checked ok x]: the result [x] of a library function, reported as NaN
    when it breaks the contract [ok]. *)
Definition checked (ok : float -> bool) (x : float) : float := if ok x then x else NaN.

(** The reference library with its contract enforced: the arcsine is NaN or
    within [[-2, 2]], the two-argument arctangent NaN or within [[-4, 4]], and
    the logarithm a valid [float]. *)
Definition checked_extern : Extern :=
  {| exp := @exp Ref.extern;
     log := fun x => checked (valid_binary 24 128) (@log Ref.extern x);
     sin := @sin Ref.extern;
     cos := @cos Ref.extern;
     asin := fun x => checked (angle_ok 2%f32) (@asin Ref.extern x);
     atan2 := fun y x => checked (angle_ok 4%f32) (@atan2 Ref.extern y x);
     sinh := @sinh Ref.extern;
     DielectricFresnel := @DielectricFresnel Ref.extern;
     GetIntensity := @GetIntensity Ref.extern |}.
(** * Properties *)


(** ** Generic facts about the loops and arrays *)

Lemma for_loop_length {A : Type} (n i : nat) (l : list A)
    (body : nat -> list A -> list A) :
  (forall j l', length (body j l') = length l') ->
  length (for_loop n i body l) = length l.
Proof.
  intros Hbody. revert i l.
  induction n as [|n IH]; intros i l; simpl; [reflexivity|].
  rewrite IH. apply Hbody.
Qed.

Lemma select_lobe_scan (apPdf : list float) (r0 : float) (n : nat) :
  forall p : nat,
    let q := Hair.select_lobe n p (remainder p r0 apPdf) apPdf in
    (p <= q <= p + n)%nat
    /\ (forall k, (p <= k < q)%nat -> (remainder k r0 apPdf <? apPdf !!! k)%f32 = false)
    /\ ((q < p + n)%nat -> (remainder q r0 apPdf <? apPdf !!! q)%f32 = true).
Proof.
  induction n as [|n IH]; intros p; simpl.
  - repeat split; try lia; intros; lia.
  - destruct (remainder p r0 apPdf <? apPdf !!! p)%f32 eqn:Hlt.
    + repeat split; try lia; intros; try lia. exact Hlt.
    + specialize (IH (S p)). simpl in IH.
      destruct IH as (Hrange & Hbefore & Hat).
      repeat split; try lia.
      * intros k Hk. destruct (Nat.eq_dec k p) as [->|Hne]; [exact Hlt|].
        apply Hbefore. lia.
      * intros Hq. apply Hat. lia.
Qed.

Lemma m_v_length `{E : Extern} (absorption : Spectrum) (lRoughness aRoughness ior : float) :
  length (Hair.m_v (Hair.Hair absorption lRoughness aRoughness ior)) = (PMAX + 1)%nat.
Proof.
  unfold Hair.Hair.
  destruct (for_range 1 PMAX _ _) as [ms mc]. cbn [Hair.m_v].
  unfold for_range.
  rewrite for_loop_length by (intros; apply length_insert).
  rewrite !length_insert. apply length_replicate.
Qed.

(** ** C8: the lobe scan *)

(** C8 (as the code has it).  For every draw [r] and every partition
    [apPdf], the scan of [sample_f] stops at an index [p <= PMAX]; [m_v[p]]
    is inside the variance array of every constructed [Hair]; lobe [PMAX] is
    selected exactly when no comparison [r < apPdf[k]] succeeded for
    [k < PMAX], where [r] is the running remainder after the float
    subtractions of the probabilities passed so far, and a lobe [p < PMAX]
    is selected at the first comparison that succeeds. *)
Theorem lobe_selection_total (E : Extern) (absorption : Spectrum)
    (lRoughness aRoughness ior : float) (r : float) (apPdf : list float) :
  let h := Hair.Hair absorption lRoughness aRoughness ior in
  let p := Hair.select_lobe PMAX 0 r apPdf in
  (p <= PMAX)%nat
  /\ is_Some (Hair.m_v h !! p)
  /\ (p = PMAX <->
      forall k, (k < PMAX)%nat -> (remainder k r apPdf <? apPdf !!! k)%f32 = false)
  /\ ((p < PMAX)%nat ->
      (remainder p r apPdf <? apPdf !!! p)%f32 = true
      /\ forall k, (k < p)%nat -> (remainder k r apPdf <? apPdf !!! k)%f32 = false).
Proof.
  intros h p.
  destruct (select_lobe_scan apPdf r PMAX 0) as (Hrange & Hbefore & Hat).
  change (Hair.select_lobe PMAX 0 (remainder 0 r apPdf) apPdf) with p in *.
  assert (Hp : (p <= PMAX)%nat) by lia.
  split; [exact Hp|]. split.
  { apply lookup_lt_is_Some. unfold h. rewrite m_v_length. lia. }
  split.
  - split.
    + intros -> k Hk. apply Hbefore. lia.
    + intros Hall. destruct (Nat.eq_dec p PMAX) as [Heq|Hne]; [exact Heq|].
      assert (Hlt : (p < PMAX)%nat) by lia.
      rewrite Hall in Hat by exact Hlt. discriminate Hat. lia.
  - intros Hlt. split.
    + apply Hat. lia.
    + intros k Hk. apply Hbefore. lia.
Qed.

(** C8 as stated fails: the scan compares the running remainder, not the
    draw with the cumulative mass, and each subtraction rounds.  For the
    partition of the unit direction [(0.12, 0.06, ...)] in the scenario fiber
    and the draw [r = 16732823 * 2^-24] of [[0, 1)], [r] exceeds the mass of
    lobes 0 to 2, summed in [float] and summed exactly, and yet lobe 2 is
    selected, not [PMAX]: the remainder [r - apPdf[0] - apPdf[1]] is
    [12728224 * 2^-28], below [apPdf[2] = 12728228 * 2^-28]. *)
Lemma lobe_scan_counterexample :
  let apPdf := shallow_partition in
  let r := S754_finite false 16732823 (-24) in
  apPdf = [S754_finite false 14188488 (-28); S754_finite false 15050528 (-24);
           S754_finite false 12728228 (-28); S754_finite false 11364969 (-32)]
  /\ (0 <=? r)%f32 = true /\ (r <? 1)%f32 = true
  /\ (apPdf !!! 0%nat + apPdf !!! 1%nat + apPdf !!! 2%nat <? r)%f32 = true
  /\ B2Z (apPdf !!! 0%nat) + B2Z (apPdf !!! 1%nat) + B2Z (apPdf !!! 2%nat) < B2Z r
  /\ remainder 2 r apPdf = S754_finite false 12728224 (-28)
  /\ Hair.select_lobe PMAX 0 r apPdf = 2%nat
  /\ Hair.select_lobe PMAX 0 r apPdf <> PMAX.
Proof.
  cbv zeta.
  assert (Hp : shallow_partition
               = [S754_finite false 14188488 (-28); S754_finite false 15050528 (-24);
                  S754_finite false 12728228 (-28); S754_finite false 11364969 (-32)])
    by (vm_compute; reflexivity).
  rewrite Hp.
  split; [reflexivity|]. split; [reflexivity|]. split; [reflexivity|].
  split; [vm_compute; reflexivity|]. split; [vm_compute; reflexivity|].
  split; [vm_compute; reflexivity|]. split; [vm_compute; reflexivity|].
  vm_compute. discriminate.
Qed.

(** ** C4: the attenuation chain of [Ap] *)

Lemma for_loop_insert_chain {A : Type} `{Inhabited A} (step : A -> A) (n : nat) :
  forall (i : nat) (l : list A),
    (0 < i)%nat -> (i + n <= length l)%nat ->
    let l' := for_loop n i (fun j l => <[ j := step (l !!! (j - 1)%nat) ]> l) l in
    length l' = length l
    /\ (forall k, (k < i)%nat -> l' !!! k = l !!! k)
    /\ (forall k, (i <= k < i + n)%nat -> l' !!! k = step (l' !!! (k - 1)%nat)).
Proof.
  induction n as [|n IH]; intros i l Hi Hlen; simpl.
  - repeat split; intros; lia.
  - assert (Hlen' : (S i + n <= length (<[ i := step (l !!! (i - 1)%nat) ]> l))%nat)
      by (rewrite length_insert; lia).
    destruct (IH (S i) _ ltac:(lia) Hlen') as (Hl & Hlow & Hchain).
    rewrite length_insert in Hl.
    split; [exact Hl|]. split.
    + intros k Hk. rewrite Hlow by lia.
      apply list_lookup_total_insert_ne. lia.
    + intros k Hk. destruct (Nat.eq_dec k i) as [->|Hne].
      * rewrite !Hlow by lia.
        rewrite list_lookup_total_insert_eq by lia.
        rewrite list_lookup_total_insert_ne by lia. reflexivity.
      * apply Hchain. lia.
Qed.

(** C4 (as the code has it).  In the array filled by [Ap], with [F] the
    dielectric Fresnel reflectance at [cosThetaO * ssqrt(1 - sinGammaT^2)]:
    lobe 0 is [F]; lobe 1 is the transmittance times the square of
    one-minus-Fresnel; each lobe [p] in [2..PMAX-1] is the previous lobe
    times transmittance times Fresnel; lobe [PMAX] is the previous lobe times
    Fresnel times transmittance divided by (1 minus transmittance times
    Fresnel). *)
Theorem Ap_chain (E : Extern) (cosThetaO eta sinGammaT : float) (T : Spectrum)
    (ap0 : list Spectrum) :
  length ap0 = (PMAX + 1)%nat ->
  let F := DielectricFresnel (cosThetaO * ssqrt (1 - SQR sinGammaT))%f32 1%f32 eta in
  let ap := Ap cosThetaO eta sinGammaT T ap0 in
  ap !!! 0%nat = splat F
  /\ ap !!! 1%nat = (T * splat (SQR (1 - F)%f32))%spectrum
  /\ (forall p, (2 <= p < PMAX)%nat ->
        ap !!! p = (ap !!! (p - 1)%nat * T * splat F)%spectrum)
  /\ ap !!! PMAX = (ap !!! (PMAX - 1)%nat * splat F * T
                    / (splat 1%f32 - T * splat F))%spectrum.
Proof.
  intros Hlen F ap. unfold ap, Ap. fold F.
  set (a1 := <[ 1%nat := _ ]> (<[ 0%nat := splat F ]> ap0)).
  assert (Hlen1 : length a1 = (PMAX + 1)%nat)
    by (unfold a1; rewrite !length_insert; exact Hlen).
  unfold for_range.
  destruct (for_loop_insert_chain (fun s => (s * T * splat F)%spectrum) (PMAX - 2) 2 a1
              ltac:(lia) ltac:(rewrite Hlen1; unfold PMAX; lia))
    as (Hl & Hlow & Hchain).
  set (a2 := for_loop (PMAX - 2) 2 _ a1) in *.
  assert (HP : (PMAX < length a2)%nat) by (rewrite Hl, Hlen1; lia).
  assert (H0 : a1 !!! 0%nat = splat F).
  { unfold a1. rewrite list_lookup_total_insert_ne by lia.
    apply list_lookup_total_insert_eq. rewrite Hlen. unfold PMAX. lia. }
  assert (H1 : a1 !!! 1%nat = (T * splat (SQR (1 - F)%f32))%spectrum).
  { unfold a1. apply list_lookup_total_insert_eq.
    rewrite length_insert, Hlen. unfold PMAX. lia. }
  repeat split.
  - rewrite list_lookup_total_insert_ne by (unfold PMAX; lia).
    rewrite Hlow by lia. exact H0.
  - rewrite list_lookup_total_insert_ne by (unfold PMAX; lia).
    rewrite Hlow by lia. exact H1.
  - intros p Hp.
    rewrite !list_lookup_total_insert_ne by lia.
    apply Hchain. unfold PMAX in *. lia.
  - rewrite list_lookup_total_insert_eq by exact HP.
    rewrite list_lookup_total_insert_ne by (unfold PMAX; lia). reflexivity.
Qed.

Lemma Ap_chain_witness :
  let ap := Ap (E := Ref.extern) 1%f32 (F32.lit 155 100) 0%f32 (splat (F32.lit 5 10))
              (replicate (PMAX + 1) inhabitant) in
  ap !!! 0%nat = splat (Ref.Fresnel 1%f32 1%f32 (F32.lit 155 100))
  /\ ap !!! 2%nat = (ap !!! 1%nat * splat (F32.lit 5 10)
                     * splat (Ref.Fresnel 1%f32 1%f32 (F32.lit 155 100)))%spectrum.
Proof.
  pose proof (Ap_chain Ref.extern 1%f32 (F32.lit 155 100) 0%f32 (splat (F32.lit 5 10))
                (replicate (PMAX + 1) inhabitant) eq_refl) as (H0 & _ & Hchain & _).
  split.
  - etransitivity; [exact H0|]. vm_compute. reflexivity.
  - etransitivity; [exact (Hchain 2%nat ltac:(unfold PMAX; lia))|]. vm_compute. reflexivity.
Defined.

(** C4 as the claim words lobe 1, "transmittance-squared times
    one-minus-Fresnel", fails: at normal incidence on a fiber of index 1.55
    with transmittance 1/2 the code stores [T (1 - F)^2 = 0.45456...] where
    [T^2 (1 - F) = 0.23837...]. *)
Lemma Ap_lobe1_counterexample :
  let T := splat (F32.lit 5 10) in
  let F := Ref.Fresnel 1%f32 1%f32 (F32.lit 155 100) in
  let ap := Ap (E := Ref.extern) 1%f32 (F32.lit 155 100) 0%f32 T
              (replicate (PMAX + 1) inhabitant) in
  red (ap !!! 1%nat) = S754_finite false 15252553 (-25)
  /\ red (T * T * splat (1 - F)%f32)%spectrum = S754_finite false 15996730 (-26)
  /\ red (ap !!! 1%nat) <> red (T * T * splat (1 - F)%f32)%spectrum.
Proof.
  vm_compute. repeat split. discriminate.
Qed.

(** ** Comparisons *)

Lemma SFcompare_antisym (a b : spec_float) :
  SFcompare b a = option_map CompOpp (SFcompare a b).
Proof.
  destruct a as [sa|sa| |sa ma ea], b as [sb|sb| |sb mb eb];
    try destruct sa; try destruct sb; try reflexivity; simpl;
    rewrite (Z.compare_antisym ea eb);
    destruct (ea ?= eb); simpl; try reflexivity;
    rewrite (Pos.compare_cont_antisym ma mb Eq); simpl;
    try rewrite CompOpp_involutive; reflexivity.
Qed.

Lemma SFltb_not_leb (a b : spec_float) : SFltb a b = true -> SFleb b a = false.
Proof.
  unfold SFltb, SFleb. rewrite (SFcompare_antisym a b).
  destruct (SFcompare a b) as [[| |]|]; simpl; congruence.
Qed.

(** ** C7: the branches of [Mp] and the series [I0] *)

Lemma I0_series (x : float) :
  I0 x = fold_left (fun val i => (val + I0_term x i)%f32) (seq 0 10) 0%f32.
Proof.
  cbv [I0 for_range for_loop I0_step Nat.sub Nat.ltb Nat.leb fold_left seq I0_term x2i_at].
  repeat (f_equal; try (vm_compute; reflexivity)).
Qed.

(** C7.  [Mp] evaluates the 10-term power series [I0] directly when
    [v > 0.1]; when [v <= 0.1] it exponentiates the combined exponent
    [LogI0(a) - b - 1/v + 0.6931 + log(1/(2 v))], where [LogI0] is the
    logarithm of the series for arguments [<= 12] and the asymptotic
    expansion [x + 0.5 (-log(2 pi) + log(1/x) + 1/(8 x))] for arguments
    [> 12].  The comparison with [0.1] is the [double] one of the code. *)
Theorem Mp_branch_selection (E : Extern) (cosThetaI cosThetaO sinThetaI sinThetaO v : float) :
  let a := (cosThetaI * cosThetaO / v)%f32 in
  let b := (sinThetaI * sinThetaO / v)%f32 in
  let tenth := F64.lit 1 10 in
  (SFltb tenth (F64.of_float v) = true ->
     Mp cosThetaI cosThetaO sinThetaI sinThetaO v
     = (exp (- b) * I0 a / (sinh (1 / v) * 2 * v))%f32)
  /\ (SFleb (F64.of_float v) tenth = true ->
     Mp cosThetaI cosThetaO sinThetaI sinThetaO v
     = exp (LogI0 a - b - 1 / v + F32.lit 6931 10000 + log (1 / (2 * v)))%f32)
  /\ ((a <=? 12)%f32 = true -> LogI0 a = log (I0 a))
  /\ ((a >? 12)%f32 = true ->
     LogI0 a
     = F32.of_double
         (F64.add (F64.of_float a)
            (F64.mul (F64.lit 5 10)
               (F64.of_float (- log TWO_PI + log (1 / a) + 1 / (8 * a))%f32))))
  /\ I0 a = fold_left (fun val i => (val + I0_term a i)%f32) (seq 0 10) 0%f32.
Proof.
  intros a b tenth. unfold Mp, LogI0. fold a b tenth.
  split; [|split; [|split; [|split]]].
  - intros Hgt. unfold F64.leb. rewrite (SFltb_not_leb _ _ Hgt). reflexivity.
  - intros Hle. unfold F64.leb. rewrite Hle. reflexivity.
  - intros Hle. destruct (a >? 12)%f32 eqn:Hgt; [|reflexivity].
    apply SFltb_not_leb in Hgt. unfold F32.leb in Hle. congruence.
  - intros Hgt. rewrite Hgt. reflexivity.
  - apply I0_series.
Qed.

(** ** C3 and C5: exact grazing incidence without absorption *)

Lemma add_nan_r (a : float) : (a + NaN)%f32 = NaN.
Proof. destruct a as [[]|[]| |]; reflexivity. Qed.

Lemma div_nan_r (a : float) : (a / NaN)%f32 = NaN.
Proof. destruct a as [[]|[]| |]; reflexivity. Qed.

(** With reflectance 1 and transmittance 1, the closing term of [Ap] is
    [0 * 1 * 1 / (1 - 1 * 1)], that is 0/0. *)
Lemma Ap_grazing_nan (E : Extern) (eta : float) :
  DielectricFresnel 0%f32 1%f32 eta = 1%f32 ->
  Ap 0%f32 eta 0%f32 (splat 1%f32) (replicate (PMAX + 1) inhabitant) !!! PMAX = nanS.
Proof.
  intros HF. unfold Ap.
  replace (0 * ssqrt (1 - SQR 0))%f32 with 0%f32 by (vm_compute; reflexivity).
  rewrite HF. vm_compute. reflexivity.
Qed.

(** C3 at its failing input.  For an outgoing direction along the fiber
    ([cosThetaO = 0], [sinThetaO = 1], [cosGammaO = 0]), index 1.55 and zero
    absorption, every entry of the partition written by [ComputeApPdf] is
    NaN, whatever the external functions, as long as [exp(-0) = 1], the
    Fresnel reflectance at cosine 0 is 1 and the intensity of an all-NaN
    value is NaN. *)
Theorem partition_grazing_nan (E : Extern) :
  exp (S754_zero true) = 1%f32 ->
  DielectricFresnel 0%f32 1%f32 (F32.lit 155 100) = 1%f32 ->
  GetIntensity nanS = NaN ->
  ComputeApPdf 0%f32 0%f32 1%f32 (F32.lit 155 100) (splat 0%f32)
    (replicate (PMAX + 1) 0%f32) = [NaN; NaN; NaN; NaN].
Proof.
  intros Hexp HF HI. unfold ComputeApPdf.
  replace (ssqrt (1 - SQR 0) / (F32.sqrt (SQR (F32.lit 155 100) - SQR 1) / 0))%f32
    with 0%f32 by (vm_compute; reflexivity).
  replace (splat 0 * splat (- (2) * ssqrt (1 - SQR 0)
                            / ssqrt (1 - SQR (1 / F32.lit 155 100)))%f32)%spectrum
    with (splat (S754_zero true)) by (vm_compute; reflexivity).
  unfold Exp. cbn [splat red green blue]. rewrite Hexp. fold (splat 1%f32).
  pose proof (Ap_grazing_nan E _ HF) as Hlast.
  set (ap := Ap _ _ _ _ _) in *.
  unfold for_range. change (PMAX + 1 - 0)%nat with 4%nat. cbn [for_loop].
  change PMAX with 3%nat in Hlast. rewrite Hlast, HI.
  rewrite add_nan_r, !div_nan_r. reflexivity.
Qed.

Lemma partition_grazing_nan_witness :
  ComputeApPdf (E := Ref.extern) 0%f32 0%f32 1%f32 (F32.lit 155 100) (splat 0%f32)
    (replicate (PMAX + 1) 0%f32) = [NaN; NaN; NaN; NaN].
Proof.
  apply (partition_grazing_nan Ref.extern); vm_compute; reflexivity.
Defined.

(** C5 at its failing input.  In the scenario configuration, with the
    outgoing direction along the fiber, [f] returns NaN in every channel,
    [pdf] returns NaN, and [sample_f] returns a NaN value and writes a NaN
    density. *)
Theorem grazing_nan :
  Hair.f (E := Ref.extern) scenario 0 along_fiber across_fiber = Some nanS
  /\ Hair.pdf (E := Ref.extern) scenario 0 along_fiber across_fiber = Some NaN
  /\ exists wi,
       fst (Hair.sample_f (E := Ref.extern) scenario 4 along_fiber true half_draws)
       = Some (nanS, wi, Some NaN).
Proof.
  split; [vm_compute; reflexivity|]. split; [vm_compute; reflexivity|].
  eexists. vm_compute. reflexivity.
Qed.

(** ** Binary32 rounding *)

Lemma digits_bounds (m : positive) : 2 ^ (digits m - 1) <= Zpos m < 2 ^ digits m.
Proof.
  unfold digits. induction m as [m IH|m IH|]; simpl digits2_pos.
  - rewrite Pos2Z.inj_succ, Pos2Z.inj_xI.
    replace (Z.succ (Zpos (digits2_pos m)) - 1) with (Z.succ (Zpos (digits2_pos m) - 1)) by lia.
    rewrite !Z.pow_succ_r by lia.
    revert IH. generalize (2 ^ (Z.pos (digits2_pos m) - 1)) (2 ^ Z.pos (digits2_pos m)). lia.
  - rewrite Pos2Z.inj_succ. change (Zpos m~0) with (2 * Zpos m).
    replace (Z.succ (Zpos (digits2_pos m)) - 1) with (Z.succ (Zpos (digits2_pos m) - 1)) by lia.
    rewrite !Z.pow_succ_r by lia.
    revert IH. generalize (2 ^ (Z.pos (digits2_pos m) - 1)) (2 ^ Z.pos (digits2_pos m)). lia.
  - simpl. lia.
Qed.

Lemma digits_pos (m : positive) : 1 <= digits m.
Proof. unfold digits. lia. Qed.

Lemma digits_unique (m : positive) (d : Z) :
  2 ^ (d - 1) <= Zpos m < 2 ^ d -> digits m = d.
Proof.
  intros [Hlo Hhi]. pose proof (digits_bounds m) as [Hlo' Hhi']. pose proof (digits_pos m).
  assert (Hd : 1 <= d).
  { destruct (Z_lt_le_dec d 1) as [Hlt|]; [|lia].
    assert (2 ^ d <= 2 ^ 0).
    { destruct (Z_lt_le_dec d 0). rewrite Z.pow_neg_r by lia. simpl; lia.
      apply Z.pow_le_mono_r; lia. }
    simpl in *. lia. }
  destruct (Z_lt_le_dec (digits m) d) as [Hlt|Hge].
  - assert (2 ^ digits m <= 2 ^ (d - 1)) by (apply Z.pow_le_mono_r; lia). lia.
  - destruct (Z_lt_le_dec d (digits m)) as [Hlt|]; [|lia].
    assert (2 ^ d <= 2 ^ (digits m - 1)) by (apply Z.pow_le_mono_r; lia). lia.
Qed.

Lemma iter_pos_nat {A : Type} (f : A -> A) (p : positive) (a : A) :
  SpecFloat.iter_pos f p a = Nat.iter (Pos.to_nat p) f a.
Proof.
  revert a. induction p as [p IH|p IH|]; intros a; simpl SpecFloat.iter_pos.
  - rewrite !IH, Pos2Nat.inj_xI.
    replace (S (2 * Pos.to_nat p)) with (Pos.to_nat p + S (Pos.to_nat p))%nat by lia.
    rewrite Nat.iter_add, Nat.iter_succ_r. reflexivity.
  - rewrite !IH, Pos2Nat.inj_xO.
    replace (2 * Pos.to_nat p)%nat with (Pos.to_nat p + Pos.to_nat p)%nat by lia.
    rewrite Nat.iter_add. reflexivity.
  - reflexivity.
Qed.

Lemma shr_1_nonneg (m : Z) (r s : bool) :
  0 <= m ->
  shr_1 (Build_shr_record m r s) = Build_shr_record (m / 2) (Z.odd m) (r || s).
Proof.
  intros Hm. destruct m as [|[p|p|]|p]; try lia; simpl shr_1; f_equal.
  - rewrite Pos2Z.inj_xI. apply Z.div_unique with 1; lia.
  - change (Zpos p~0) with (2 * Zpos p). apply Z.div_unique with 0; lia.
Qed.

Lemma mod_pow2_succ (m k : Z) :
  0 <= k ->
  m mod 2 ^ (k + 1) = m mod 2 ^ k + 2 ^ k * ((m / 2 ^ k) mod 2).
Proof.
  intros Hk. rewrite Z.pow_add_r by lia. change (2 ^ 1) with 2.
  apply Z.rem_mul_r; [|lia].
  apply Z.pow_nonzero; lia.
Qed.

Lemma shr_iter (m : Z) (n : nat) :
  0 <= m ->
  let k := Z.of_nat (S n) in
  Nat.iter (S n) shr_1 (Build_shr_record m false false)
  = Build_shr_record (m / 2 ^ k)
      (2 ^ (k - 1) <=? m mod 2 ^ k)
      (negb ((m mod 2 ^ k =? 0) || (m mod 2 ^ k =? 2 ^ (k - 1)))).
Proof.
  intros Hm. induction n as [|n IH].
  - unfold Nat.iter; cbn [nat_rect]. rewrite shr_1_nonneg by exact Hm.
    change (Z.of_nat 1) with 1. change (2 ^ (1 - 1)) with 1. change (2 ^ 1) with 2.
    pose proof (Z.mod_pos_bound m 2 ltac:(lia)) as Hb.
    f_equal.
    + rewrite Zodd_mod. destruct (Z.eqb_spec (m mod 2) 1), (Z.leb_spec 1 (m mod 2)); lia || reflexivity.
    + destruct (Z.eqb_spec (m mod 2) 0), (Z.eqb_spec (m mod 2) 1); simpl; lia || reflexivity.
  - cbv zeta in IH |- *. rewrite Nat.iter_succ, IH.
    set (k := Z.of_nat (S n)) in *.
    assert (Hk : 1 <= k) by (unfold k; lia).
    replace (Z.of_nat (S (S n))) with (k + 1) by (unfold k; lia).
    replace (k + 1 - 1) with k by lia.
    assert (Hq : 0 <= m / 2 ^ k) by (apply Z.div_pos; [lia|apply Z.pow_pos_nonneg; lia]).
    rewrite shr_1_nonneg by exact Hq.
    rewrite (mod_pow2_succ m k) by lia.
    assert (Hpow : 2 ^ k = 2 * 2 ^ (k - 1)).
    { replace k with (Z.succ (k - 1)) at 1 by lia. apply Z.pow_succ_r. lia. }
    assert (Hhalf : 0 < 2 ^ (k - 1)) by (apply Z.pow_pos_nonneg; lia).
    pose proof (Z.mod_pos_bound m (2 ^ k) ltac:(lia)) as Hrho.
    pose proof (Z.mod_pos_bound (m / 2 ^ k) 2 ltac:(lia)) as Hb.
    rewrite Zodd_mod.
    f_equal.
    + rewrite Z.pow_add_r by lia. change (2 ^ 1) with 2.
      rewrite Z.div_div by lia. reflexivity.
    + set (rho := m mod 2 ^ k) in *. set (b := (m / 2 ^ k) mod 2) in *.
      set (P := 2 ^ k) in *. set (H := 2 ^ (k - 1)) in *. clearbody rho b P H.
      assert (Hb01 : b = 0 \/ b = 1) by lia.
      destruct Hb01 as [-> | ->]; rewrite ?Z.mul_0_r, ?Z.mul_1_r, ?Z.add_0_r;
        simpl; [destruct (Z.leb_spec P rho) | destruct (Z.leb_spec P (rho + P))];
        try reflexivity; lia.
    + set (rho := m mod 2 ^ k) in *. set (b := (m / 2 ^ k) mod 2) in *.
      set (P := 2 ^ k) in *. set (H := 2 ^ (k - 1)) in *. clearbody rho b P H.
      assert (Hb01 : b = 0 \/ b = 1) by lia.
      destruct Hb01 as [-> | ->]; rewrite ?Z.mul_0_r, ?Z.mul_1_r, ?Z.add_0_r.
      * destruct (Z.leb_spec H rho), (Z.eqb_spec rho 0), (Z.eqb_spec rho H),
          (Z.eqb_spec rho P); simpl; try reflexivity; lia.
      * destruct (Z.leb_spec H rho), (Z.eqb_spec rho 0), (Z.eqb_spec rho H),
          (Z.eqb_spec (rho + P) 0), (Z.eqb_spec (rho + P) P); simpl; try reflexivity; lia.
Qed.

Lemma round_shift_spec (m : Z) (n : nat) :
  0 <= m ->
  let mrs := Nat.iter (S n) shr_1 (Build_shr_record m false false) in
  round_nearest_even (shr_m mrs) (loc_of_shr_record mrs) = round_shift m (Z.of_nat (S n)).
Proof.
  intros Hm mrs. unfold mrs. rewrite (shr_iter m n Hm). cbv zeta.
  set (k := Z.of_nat (S n)). unfold round_shift.
  assert (Hk : 1 <= k) by (unfold k; lia).
  assert (Hhalf : 0 < 2 ^ (k - 1)) by (apply Z.pow_pos_nonneg; lia).
  set (rho := m mod 2 ^ k). set (q := m / 2 ^ k). set (H := 2 ^ (k - 1)) in *.
  clearbody rho q H.
  unfold loc_of_shr_record, shr_m.
  rewrite <- Z.negb_even.
  destruct (Z.leb_spec H rho), (Z.eqb_spec rho 0), (Z.eqb_spec rho H), (Z.ltb_spec H rho);
    simpl; try lia; try reflexivity; destruct (Z.even q); reflexivity.
Qed.

Lemma fexp32 (z : Z) : fexp 24 128 z = Z.max (z - 24) (-149).
Proof. reflexivity. Qed.

Lemma round_shift_bounds (m k : Z) :
  0 <= m -> 1 <= k ->
  m / 2 ^ k <= round_shift m k <= m / 2 ^ k + 1.
Proof.
  intros Hm Hk. unfold round_shift.
  destruct (_ || _); lia.
Qed.

Lemma div_pow2_lt (m k d : Z) :
  0 <= k -> k <= d -> 0 <= m < 2 ^ d -> m / 2 ^ k < 2 ^ (d - k).
Proof.
  intros Hk Hd Hm. apply Z.div_lt_upper_bound; [apply Z.pow_pos_nonneg; lia|].
  rewrite <- Z.pow_add_r by lia. replace (k + (d - k)) with d by lia. lia.
Qed.

Lemma shr_fexp_exact_noshift (m : positive) (e : Z) :
  fexp 24 128 (digits m + e) - e <= 0 ->
  shr_fexp 24 128 (Zpos m) e loc_Exact = (Build_shr_record (Zpos m) false false, e).
Proof.
  intros Hk. unfold shr_fexp. change (Zdigits2 (Zpos m)) with (digits m).
  unfold shr. destruct (fexp 24 128 (digits m + e) - e); try reflexivity. lia.
Qed.

Lemma shr_fexp_exact_shift (m : positive) (e : Z) :
  0 < fexp 24 128 (digits m + e) - e ->
  let k := fexp 24 128 (digits m + e) - e in
  exists n : nat, k = Z.of_nat (S n) /\
  shr_fexp 24 128 (Zpos m) e loc_Exact
  = (Nat.iter (S n) shr_1 (Build_shr_record (Zpos m) false false), e + k).
Proof.
  intros Hk k. unfold shr_fexp. change (Zdigits2 (Zpos m)) with (digits m). fold k.
  unfold shr. destruct k as [|p|p] eqn:Ek; try lia.
  exists (Nat.pred (Pos.to_nat p)). 
  assert (Hp : S (Nat.pred (Pos.to_nat p)) = Pos.to_nat p) by lia.
  rewrite Hp. split; [lia|].
  simpl shr_record_of_loc. rewrite iter_pos_nat. reflexivity.
Qed.

Lemma binary_round_aux_end (s : bool) (m : positive) (e : Z) :
  fexp 24 128 (digits m + e) - e <= 0 ->
  binary_round_aux 24 128 s (Zpos m) e loc_Exact = mk_float s (Zpos m) e.
Proof.
  intros Hk. unfold binary_round_aux.
  rewrite (shr_fexp_exact_noshift m e Hk). cbn [shr_m loc_of_shr_record round_nearest_even].
  rewrite (shr_fexp_exact_noshift m e Hk). cbn [shr_m]. reflexivity.
Qed.

Lemma binary_round_aux_shift (s : bool) (m : positive) (e : Z) :
  let k := fexp 24 128 (digits m + e) - e in
  0 < k ->
  let m1 := round_shift (Zpos m) k in
  binary_round_aux 24 128 s (Zpos m) e loc_Exact
  = if m1 =? 2 ^ 24 then mk_float s (2 ^ 23) (e + k + 1) else mk_float s m1 (e + k).
Proof.
  intros k Hk m1.
  destruct (shr_fexp_exact_shift m e Hk) as (n & Hn & Hshr). fold k in Hn, Hshr.
  unfold binary_round_aux. rewrite Hshr.
  rewrite (round_shift_spec (Zpos m) n ltac:(lia)). rewrite <- Hn. fold m1.
  pose proof (digits_bounds m) as Hd. pose proof (digits_pos m) as Hd1.
  assert (Hkd : digits m - 24 <= k) by (unfold k; rewrite fexp32; lia).
  assert (He' : -149 <= e + k) by (unfold k; rewrite fexp32; lia).
  assert (Hq : 0 <= Zpos m / 2 ^ k < 2 ^ 24).
  { split; [apply Z.div_pos; [lia|apply Z.pow_pos_nonneg; lia]|].
    destruct (Z_lt_le_dec (digits m) k) as [Hlt|Hge].
    - rewrite Z.div_small; [simpl; lia|]. split; [lia|].
      apply Z.lt_le_trans with (2 ^ digits m); [lia|]. apply Z.pow_le_mono_r; lia.
    - apply Z.lt_le_trans with (2 ^ (digits m - k)).
      + apply div_pow2_lt; lia.
      + apply Z.pow_le_mono_r; lia. }
  pose proof (round_shift_bounds (Zpos m) k ltac:(lia) ltac:(lia)) as Hm1. fold m1 in Hm1.
  destruct (Z.eqb_spec m1 (2 ^ 24)) as [Heq|Hne].
  - rewrite Heq. unfold shr_fexp. 
    change (Zdigits2 (2 ^ 24)) with 25.
    replace (fexp 24 128 (25 + (e + k)) - (e + k)) with 1 by (rewrite fexp32; lia).
    reflexivity.
  - destruct m1 as [|p1|p1] eqn:Em1; try lia.
    + unfold shr_fexp. change (Zdigits2 0) with 0.
      replace (fexp 24 128 (0 + (e + k)) - (e + k)) with (Z.max (e + k - 24) (-149) - (e + k))
        by (rewrite fexp32; f_equal; f_equal; lia).
      unfold shr. destruct (Z.max (e + k - 24) (-149) - (e + k)) eqn:Es; try lia; reflexivity.
    + assert (Hdp : digits p1 <= 24).
      { pose proof (digits_bounds p1) as [Hlo _].
        destruct (Z_lt_le_dec 24 (digits p1)) as [Hgt|]; [|lia].
        assert (2 ^ 24 <= 2 ^ (digits p1 - 1)) by (apply Z.pow_le_mono_r; lia). lia. }
      rewrite shr_fexp_exact_noshift by (rewrite fexp32; lia).
      reflexivity.
Qed.

Lemma iter_xO_value (m d : positive) : Zpos (Pos.iter xO m d) = Zpos m * 2 ^ Zpos d.
Proof.
  induction d as [|d IH] using Pos.peano_ind.
  - simpl. lia.
  - rewrite Pos.iter_succ, Pos2Z.inj_succ, Z.pow_succ_r by lia.
    change (Zpos (Pos.iter xO m d)~0) with (2 * Zpos (Pos.iter xO m d)). rewrite IH. lia.
Qed.

Lemma digits_scale (m p : positive) (j : Z) :
  0 <= j -> Zpos p = Zpos m * 2 ^ j -> digits p = digits m + j.
Proof.
  intros Hj Hp. apply digits_unique. rewrite Hp.
  pose proof (digits_bounds m) as [Hlo Hhi]. pose proof (digits_pos m).
  replace (digits m + j - 1) with (digits m - 1 + j) by lia.
  rewrite !Z.pow_add_r by lia.
  assert (0 < 2 ^ j) by (apply Z.pow_pos_nonneg; lia).
  split; [apply Z.mul_le_mono_nonneg_r; lia|apply Z.mul_lt_mono_pos_r; lia].
Qed.

Lemma bounded_iff (m : positive) (e : Z) :
  bounded 24 128 m e = true <->
  (e <= 104 /\ ((digits m = 24 /\ -149 <= e) \/ (digits m < 24 /\ e = -149))).
Proof.
  unfold bounded, canonical_mantissa. fold (digits m). rewrite fexp32.
  rewrite andb_true_iff, Z.eqb_eq, Z.leb_le.
  change (128 - 24) with 104. pose proof (digits_pos m). lia.
Qed.

Lemma log2_digits (m : positive) : Z.log2 (Zpos m) + 1 = digits m.
Proof.
  pose proof (digits_bounds m) as Hb. pose proof (digits_pos m).
  rewrite (Z.log2_unique (Zpos m) (digits m - 1)); [lia|lia|].
  replace (Z.succ (digits m - 1)) with (digits m) by lia. exact Hb.
Qed.

Lemma round_shift_scale (m k j : Z) :
  0 <= m -> 1 <= k -> 0 <= j ->
  round_shift (m * 2 ^ j) (k + j) = round_shift m k.
Proof.
  intros Hm Hk Hj. unfold round_shift.
  assert (Hj2 : 0 < 2 ^ j) by (apply Z.pow_pos_nonneg; lia).
  assert (Hk2 : 0 < 2 ^ k) by (apply Z.pow_pos_nonneg; lia).
  assert (Hh2 : 0 < 2 ^ (k - 1)) by (apply Z.pow_pos_nonneg; lia).
  replace (k + j - 1) with (k - 1 + j) by lia.
  rewrite !Z.pow_add_r by lia.
  rewrite Z.div_mul_cancel_r by lia.
  rewrite Z.mul_mod_distr_r by lia.
  set (rho := m mod 2 ^ k). set (H := 2 ^ (k - 1)) in *. set (J := 2 ^ j) in *.
  replace (H * J <? rho * J) with (H <? rho).
  2:{ destruct (Z.ltb_spec H rho), (Z.ltb_spec (H * J) (rho * J)); try reflexivity; nia. }
  replace (rho * J =? H * J) with (rho =? H).
  2:{ destruct (Z.eqb_spec rho H), (Z.eqb_spec (rho * J) (H * J)); try reflexivity; nia. }
  reflexivity.
Qed.

Lemma round_shift_multiple (q n : Z) :
  0 <= q -> 1 <= n -> round_shift (q * 2 ^ n) n = q.
Proof.
  intros Hq Hn. unfold round_shift.
  assert (Hn2 : 0 < 2 ^ n) by (apply Z.pow_pos_nonneg; lia).
  assert (Hh2 : 0 < 2 ^ (n - 1)) by (apply Z.pow_pos_nonneg; lia).
  rewrite Z.div_mul, Z.mod_mul by lia.
  destruct (Z.ltb_spec (2 ^ (n - 1)) 0), (Z.eqb_spec 0 (2 ^ (n - 1))); simpl; lia.
Qed.

Lemma pow2_lt_inv (a b : Z) : 0 <= b -> 2 ^ a < 2 ^ b -> a < b.
Proof. intros Hb H. apply (Z.pow_lt_mono_r_iff 2); lia. Qed.

Lemma RNz_exact (N q j : Z) :
  0 < q -> 0 <= j -> N = q * 2 ^ j -> Z.log2 N + 1 - 24 <= j -> RNz N = N.
Proof.
  intros Hq Hj HN Hn. unfold RNz.
  set (n := Z.log2 N + 1 - 24) in *.
  destruct (Z.leb_spec n 0) as [Hle|Hgt]; [reflexivity|].
  assert (HN' : N = q * 2 ^ (j - n) * 2 ^ n).
  { rewrite <- Z.mul_assoc, <- Z.pow_add_r by lia. replace (j - n + n) with j by lia. exact HN. }
  rewrite HN' at 1. rewrite round_shift_multiple; [lia| |lia].
  apply Z.mul_nonneg_nonneg; [lia|apply Z.pow_nonneg; lia].
Qed.

Lemma mk_float_finite (s : bool) (p : positive) (e : Z) :
  e <= 104 -> mk_float s (Zpos p) e = S754_finite s p e.
Proof. intros He. unfold mk_float. destruct (Z.leb_spec e 104); [reflexivity|lia]. Qed.

Lemma binary_round_value (s : bool) (m : positive) (e : Z) :
  -149 <= e ->
  let N := Zpos m * 2 ^ (e + 149) in
  RNz N < 2 ^ 277 ->
  exists m' e',
    binary_round 24 128 s m e = S754_finite s m' e'
    /\ bounded 24 128 m' e' = true
    /\ Zpos m' * 2 ^ (e' + 149) = RNz N.
Proof.
  intros He N Hov.
  pose proof (digits_bounds m) as Hdb. pose proof (digits_pos m) as Hd1.
  set (d := digits m) in *.
  set (t := fexp 24 128 (d + e)).
  assert (Ht : t = Z.max (d + e - 24) (-149)) by (unfold t; apply fexp32).
  assert (HlogN : Z.log2 N + 1 = d + e + 149).
  { unfold N. rewrite Z.log2_mul_pow2 by lia. pose proof (log2_digits m). fold d in H. lia. }
  unfold binary_round. change (Zpos (digits2_pos m)) with d. fold t. unfold shl_align.
  destruct (t - e) as [|k|dd] eqn:Ek; cbv beta iota zeta.
  - (* the mantissa is canonical as it is *)
    assert (Hte : t = e) by lia.
    rewrite binary_round_aux_end by (fold d t; lia).
    assert (HN : RNz N = N).
    { apply (RNz_exact N (Zpos m) (e + 149)); [lia|lia|reflexivity|lia]. }
    assert (He104 : e <= 104).
    { destruct (Z.eq_dec t (-149)) as [Hm|Hm]; [lia|].
      assert (Hd24 : d = 24) by lia.
      assert (2 ^ (23 + (e + 149)) < 2 ^ 277).
      { rewrite Z.pow_add_r by lia. rewrite Hd24 in Hdb. change (24 - 1) with 23 in Hdb.
        apply Z.le_lt_trans with N; [|lia]. unfold N.
        apply Z.mul_le_mono_nonneg_r; [apply Z.pow_nonneg|]; lia. }
      apply pow2_lt_inv in H; lia. }
    exists m, e. rewrite mk_float_finite by exact He104.
    split; [reflexivity|]. split; [|fold N; lia].
    apply bounded_iff. fold d. lia.
  - (* the mantissa has more than 24 bits: rounding *)
    assert (Hk : 0 < fexp 24 128 (digits m + e) - e) by (fold d t; lia).
    rewrite (binary_round_aux_shift s m e Hk). fold d t. rewrite Ek.
    set (m1 := round_shift (Zpos m) (Zpos k)).
    assert (Htd : t = d + e - 24) by lia.
    assert (Hkd : Zpos k = d - 24) by lia.
    assert (Hq : 2 ^ 23 <= Zpos m / 2 ^ Zpos k < 2 ^ 24).
    { split.
      - apply Z.div_le_lower_bound; [apply Z.pow_pos_nonneg; lia|].
        rewrite <- Z.pow_add_r by lia. replace (Zpos k + 23) with (d - 1) by lia. lia.
      - replace 24 with (d - Zpos k) by lia. apply div_pow2_lt; lia. }
    pose proof (round_shift_bounds (Zpos m) (Zpos k) ltac:(lia) ltac:(lia)) as Hm1.
    fold m1 in Hm1.
    assert (HN : RNz N = m1 * 2 ^ (t + 149)).
    { unfold RNz. replace (Z.log2 N + 1 - 24) with (Zpos k + (e + 149)) by lia.
      destruct (Z.leb_spec (Zpos k + (e + 149)) 0); [lia|].
      unfold N. rewrite round_shift_scale by lia. fold m1.
      f_equal. f_equal. lia. }
    assert (Hpos : 0 < 2 ^ (t + 149)) by (apply Z.pow_pos_nonneg; lia).
    destruct (Z.eqb_spec m1 (2 ^ 24)) as [Heq|Hne].
    + assert (Ht103 : t + 1 <= 104).
      { assert (2 ^ (24 + (t + 149)) < 2 ^ 277).
        { rewrite Z.pow_add_r by lia. rewrite <- Heq, <- HN. exact Hov. }
        apply pow2_lt_inv in H; lia. }
      exists (2 ^ 23)%positive, (t + 1).
      replace (e + Zpos k + 1) with (t + 1) by lia.
      change (2 ^ 23) with (Zpos (2 ^ 23)).
      rewrite mk_float_finite by exact Ht103.
      split; [reflexivity|]. split.
      * apply bounded_iff. change (digits (2 ^ 23)) with 24. lia.
      * rewrite HN, Heq. replace (t + 1 + 149) with (1 + (t + 149)) by lia.
        rewrite Z.pow_add_r by lia. change (Zpos (2 ^ 23)) with (2 ^ 23). 
        change (2 ^ 24) with (2 * 2 ^ 23). change (2 ^ 1) with 2. ring.
    + destruct m1 as [|p1|p1] eqn:Em1; try lia.
      assert (Ht104 : t <= 104).
      { assert (2 ^ (23 + (t + 149)) < 2 ^ 277).
        { rewrite Z.pow_add_r by lia. apply Z.le_lt_trans with (RNz N); [|lia].
          rewrite HN. apply Z.mul_le_mono_nonneg_r; lia. }
        apply pow2_lt_inv in H; lia. }
      exists p1, t. replace (e + Zpos k) with t by lia.
      rewrite mk_float_finite by exact Ht104.
      split; [reflexivity|]. split; [|lia].
      apply bounded_iff. rewrite (digits_unique p1 24) by (change (24 - 1) with 23; lia). lia.
  - (* the mantissa is short: it is shifted left, exactly *)
    assert (Hte : t < e) by lia.
    set (p := Pos.iter xO m dd).
    assert (Hp : Zpos p = Zpos m * 2 ^ (e - t)).
    { unfold p. rewrite iter_xO_value. f_equal. f_equal. lia. }
    assert (Hdp : digits p = d + (e - t)) by (apply digits_scale; [lia|exact Hp]).
    rewrite binary_round_aux_end by (rewrite Hdp; replace (d + (e - t) + t) with (d + e) by lia; fold t; lia).
    assert (HNp : N = Zpos p * 2 ^ (t + 149)).
    { unfold N. rewrite Hp, <- Z.mul_assoc, <- Z.pow_add_r by lia. f_equal. f_equal. lia. }
    assert (HN : RNz N = N).
    { apply (RNz_exact N (Zpos p) (t + 149)); [lia|lia|exact HNp|lia]. }
    assert (Ht104 : t <= 104).
    { destruct (Z.eq_dec t (-149)) as [Hm|Hm]; [lia|].
      assert (Hd24 : digits p = 24) by lia.
      pose proof (digits_bounds p) as Hpb. rewrite Hd24 in Hpb. change (24 - 1) with 23 in Hpb.
      assert (2 ^ (23 + (t + 149)) < 2 ^ 277).
      { rewrite Z.pow_add_r by lia.
        apply Z.le_lt_trans with N; [|lia]. rewrite HNp.
        apply Z.mul_le_mono_nonneg_r; [apply Z.pow_nonneg|]; lia. }
      apply pow2_lt_inv in H; lia. }
    exists p, t. rewrite mk_float_finite by exact Ht104.
    split; [reflexivity|]. split; [|lia].
    apply bounded_iff. lia.
Qed.

Lemma compare_cont_Eq (a b : positive) : Pos.compare_cont Eq a b = (Zpos a ?= Zpos b).
Proof. reflexivity. Qed.

Lemma canonical_order (m1 m2 : positive) (e1 e2 : Z) :
  bounded 24 128 m1 e1 = true -> bounded 24 128 m2 e2 = true ->
  e1 < e2 -> Zpos m1 * 2 ^ (e1 + 149) < Zpos m2 * 2 ^ (e2 + 149).
Proof.
  intros H1 H2 He. apply bounded_iff in H1, H2.
  pose proof (digits_bounds m1) as [_ Hhi1]. pose proof (digits_bounds m2) as [Hlo2 _].
  assert (Hd2 : digits m2 = 24) by lia. rewrite Hd2 in Hlo2. change (24 - 1) with 23 in Hlo2.
  assert (Hm1 : Zpos m1 < 2 ^ 24).
  { apply Z.lt_le_trans with (2 ^ digits m1); [lia|]. apply Z.pow_le_mono_r; lia. }
  assert (Hp1 : 0 < 2 ^ (e1 + 149)) by (apply Z.pow_pos_nonneg; lia).
  assert (Hp2 : 2 * 2 ^ (e1 + 149) <= 2 ^ (e2 + 149)).
  { rewrite <- Z.pow_succ_r by lia. apply Z.pow_le_mono_r; lia. }
  change (2 ^ 24) with 16777216 in Hm1. change (2 ^ 23) with 8388608 in Hlo2.
  nia.
Qed.

Lemma compare_pos_spec (m1 m2 : positive) (e1 e2 : Z) :
  bounded 24 128 m1 e1 = true -> bounded 24 128 m2 e2 = true ->
  match e1 ?= e2 with
  | Lt => Lt
  | Gt => Gt
  | Eq => Pos.compare_cont Eq m1 m2
  end = (Zpos m1 * 2 ^ (e1 + 149) ?= Zpos m2 * 2 ^ (e2 + 149)).
Proof.
  intros H1 H2. destruct (Z.compare_spec e1 e2) as [Heq|Hlt|Hgt].
  - subst e2. rewrite compare_cont_Eq.
    assert (Hp : 0 < 2 ^ (e1 + 149)).
    { apply bounded_iff in H1. apply Z.pow_pos_nonneg; lia. }
    generalize dependent (2 ^ (e1 + 149)). intros P HP.
    destruct (Z.compare_spec (Zpos m1) (Zpos m2)) as [Heq|Hlt|Hgt]; symmetry;
      [apply Z.compare_eq_iff|apply Z.compare_lt_iff|apply Z.compare_gt_iff]; nia.
  - symmetry. apply Z.compare_lt_iff. apply canonical_order; assumption.
  - symmetry. apply Z.compare_gt_iff. apply canonical_order; assumption.
Qed.

Lemma B2Z_sign (s : bool) (m : positive) (e : Z) :
  -149 <= e ->
  if s then B2Z (S754_finite s m e) < 0 else 0 < B2Z (S754_finite s m e).
Proof.
  intros He. assert (0 < 2 ^ (e + 149)) by (apply Z.pow_pos_nonneg; lia).
  destruct s; simpl; nia.
Qed.

(** On zeros and valid finite values [SFcompare] is the order of the
    values. *)
Lemma compare_spec (a b : float) :
  fin a -> fin b -> SFcompare a b = Some (B2Z a ?= B2Z b).
Proof.
  destruct a as [sa| | |sa ma ea], b as [sb| | |sb mb eb]; simpl fin; try tauto; intros Ha Hb.
  - pose proof (B2Z_sign sb mb eb) as Hs. apply bounded_iff in Hb.
    specialize (Hs ltac:(lia)). simpl SFcompare. change (B2Z (S754_zero sa)) with 0.
    destruct sb; f_equal; symmetry; [apply Z.compare_gt_iff|apply Z.compare_lt_iff]; lia.
  - pose proof (B2Z_sign sa ma ea) as Hs. apply bounded_iff in Ha.
    specialize (Hs ltac:(lia)). simpl SFcompare. change (B2Z (S754_zero sb)) with 0.
    destruct sa; f_equal; symmetry; [apply Z.compare_lt_iff|apply Z.compare_gt_iff]; lia.
  - pose proof (B2Z_sign sa ma ea) as Hsa. pose proof (B2Z_sign sb mb eb) as Hsb.
    pose proof Ha as Ha'. pose proof Hb as Hb'.
    apply bounded_iff in Ha', Hb'.
    specialize (Hsa ltac:(lia)). specialize (Hsb ltac:(lia)).
    unfold SFcompare. destruct sa, sb.
    + f_equal. pose proof (compare_pos_spec ma mb ea eb Ha Hb) as Hc.
      simpl B2Z.
      rewrite (Z.compare_opp (Zpos ma * 2 ^ (ea + 149)) (Zpos mb * 2 ^ (eb + 149))).
      rewrite (Z.compare_antisym (Zpos ma * 2 ^ (ea + 149)) (Zpos mb * 2 ^ (eb + 149))).
      rewrite <- Hc.
      destruct (ea ?= eb); reflexivity.
    + f_equal. symmetry. apply Z.compare_lt_iff. lia.
    + f_equal. symmetry. apply Z.compare_gt_iff. lia.
    + f_equal. rewrite (compare_pos_spec ma mb ea eb Ha Hb). reflexivity.
Qed.

Lemma RZ_pos (D : Z) : 0 < D -> RZ D = RNz D.
Proof. destruct D; cbn [RZ]; intros; lia || reflexivity. Qed.

Lemma RZ_neg (D : Z) : D < 0 -> RZ D = - RNz (- D).
Proof. destruct D; cbn [RZ Z.opp]; intros; lia || reflexivity. Qed.

Lemma RZ_opp (D : Z) : RZ (- D) = - RZ D.
Proof. destruct D; cbn [RZ Z.opp]; rewrite ?Z.opp_involutive; reflexivity. Qed.

(** The shape of [RNz] on a number with more than 24 bits. *)
Lemma RNz_shape (N : Z) :
  0 < N ->
  let n := Z.log2 N + 1 - 24 in
  0 < n ->
  let q := N / 2 ^ n in
  2 ^ 23 <= q < 2 ^ 24
  /\ RNz N = round_shift N n * 2 ^ n
  /\ q <= round_shift N n <= q + 1
  /\ N - 2 ^ (n - 1) <= RNz N <= N + 2 ^ (n - 1).
Proof.
  intros HN n Hn q.
  pose proof (Z.log2_spec N HN) as [Hlo Hhi].
  assert (Hp : 0 < 2 ^ n) by (apply Z.pow_pos_nonneg; lia).
  assert (Hq : 2 ^ 23 <= q < 2 ^ 24).
  { unfold q. split.
    - apply Z.div_le_lower_bound; [lia|]. rewrite <- Z.pow_add_r by lia.
      replace (n + 23) with (Z.log2 N) by lia. exact Hlo.
    - apply Z.div_lt_upper_bound; [lia|]. rewrite <- Z.pow_add_r by lia.
      replace (n + 24) with (Z.succ (Z.log2 N)) by lia. exact Hhi. }
  split; [exact Hq|].
  assert (HR : RNz N = round_shift N n * 2 ^ n).
  { unfold RNz. fold n. destruct (Z.leb_spec n 0); [lia|reflexivity]. }
  split; [exact HR|].
  pose proof (round_shift_bounds N n ltac:(lia) ltac:(lia)) as Hb. fold q in Hb.
  split; [exact Hb|].
  rewrite HR. unfold round_shift in *. fold q in Hb |- *.
  pose proof (Z.div_mod N (2 ^ n) ltac:(lia)) as Hdm. fold q in Hdm.
  pose proof (Z.mod_pos_bound N (2 ^ n) Hp) as Hrho.
  assert (Hpow : 2 ^ n = 2 * 2 ^ (n - 1)).
  { replace n with (Z.succ (n - 1)) at 1 by lia. apply Z.pow_succ_r. lia. }
  set (rho := N mod 2 ^ n) in *. set (P := 2 ^ n) in *. set (H := 2 ^ (n - 1)) in *.
  clearbody rho P H q.
  destruct (Z.ltb_spec H rho), (Z.eqb_spec rho H); simpl; try destruct (Z.odd q); nia.
Qed.

Lemma RNz_small (N : Z) : Z.log2 N + 1 - 24 <= 0 -> RNz N = N.
Proof. intros Hn. unfold RNz. destruct (Z.leb_spec (Z.log2 N + 1 - 24) 0); [reflexivity|lia]. Qed.

Lemma RNz_positive (N : Z) : 0 < N -> 0 < RNz N.
Proof.
  intros HN. destruct (Z_le_gt_dec (Z.log2 N + 1 - 24) 0) as [Hle|Hgt].
  - rewrite RNz_small by exact Hle. exact HN.
  - destruct (RNz_shape N HN ltac:(lia)) as (Hq & HR & Hb & _).
    rewrite HR. apply Z.mul_pos_pos; [|apply Z.pow_pos_nonneg; lia].
    change (2 ^ 23) with 8388608 in Hq. lia.
Qed.

Lemma RNz_le_pow (N k : Z) : 0 < N < 2 ^ k -> RNz N <= 2 ^ k.
Proof.
  intros [HN Hk].
  assert (Hk0 : 0 <= k).
  { destruct (Z_lt_le_dec k 0); [|lia]. rewrite Z.pow_neg_r in Hk by lia. lia. }
  destruct (Z_le_gt_dec (Z.log2 N + 1 - 24) 0) as [Hle|Hgt].
  - rewrite RNz_small by exact Hle. lia.
  - destruct (RNz_shape N HN ltac:(lia)) as (Hq & HR & Hb & _).
    rewrite HR. set (n := Z.log2 N + 1 - 24) in *.
    assert (Hlog : Z.log2 N < k) by (apply Z.log2_lt_pow2; lia).
    apply Z.le_trans with (2 ^ 24 * 2 ^ n).
    + apply Z.mul_le_mono_nonneg_r; [apply Z.pow_nonneg|]; lia.
    + rewrite <- Z.pow_add_r by lia. apply Z.pow_le_mono_r; lia.
Qed.

Lemma round_shift_mono (a b k : Z) :
  0 <= a <= b -> 1 <= k -> round_shift a k <= round_shift b k.
Proof.
  intros Hab Hk. unfold round_shift.
  assert (Hp : 0 < 2 ^ k) by (apply Z.pow_pos_nonneg; lia).
  pose proof (Z.div_mod a (2 ^ k) ltac:(lia)) as Ha.
  pose proof (Z.div_mod b (2 ^ k) ltac:(lia)) as Hb.
  pose proof (Z.mod_pos_bound a (2 ^ k) Hp) as Hra.
  pose proof (Z.mod_pos_bound b (2 ^ k) Hp) as Hrb.
  assert (Hq : a / 2 ^ k <= b / 2 ^ k) by (apply Z.div_le_mono; lia).
  set (qa := a / 2 ^ k) in *. set (qb := b / 2 ^ k) in *.
  set (ra := a mod 2 ^ k) in *. set (rb := b mod 2 ^ k) in *.
  set (P := 2 ^ k) in *. set (H := 2 ^ (k - 1)) in *.
  clearbody qa qb ra rb P H.
  destruct (Z.eq_dec qa qb) as [Heq|Hne].
  - subst qb. assert (ra <= rb) by nia.
    destruct (Z.ltb_spec H ra), (Z.eqb_spec ra H), (Z.ltb_spec H rb), (Z.eqb_spec rb H);
      simpl; try destruct (Z.odd qa); lia.
  - destruct (_ || _), (_ || _); lia.
Qed.

Lemma RNz_mono (N1 N2 : Z) : 0 < N1 <= N2 -> RNz N1 <= RNz N2.
Proof.
  intros [H1 H12].
  assert (Hlog : Z.log2 N1 <= Z.log2 N2) by (apply Z.log2_le_mono; lia).
  pose proof (Z.log2_spec N1 H1) as [Hlo1 Hhi1].
  pose proof (Z.log2_spec N2 ltac:(lia)) as [Hlo2 Hhi2].
  pose proof (Z.log2_nonneg N1) as Hl1.
  destruct (Z_le_gt_dec (Z.log2 N2 + 1 - 24) 0) as [Hle2|Hgt2].
  - rewrite !RNz_small by lia. exact H12.
  - destruct (RNz_shape N2 ltac:(lia) ltac:(lia)) as (Hq2 & HR2 & Hb2 & _).
    set (n2 := Z.log2 N2 + 1 - 24) in *.
    assert (Hbig : 2 ^ (23 + n2) <= RNz N2).
    { rewrite HR2, Z.pow_add_r by lia.
      apply Z.mul_le_mono_nonneg_r; [apply Z.pow_nonneg|]; lia. }
    destruct (Z_le_gt_dec (Z.log2 N1 + 1 - 24) 0) as [Hle1|Hgt1].
    + rewrite RNz_small by exact Hle1.
      apply Z.le_trans with (2 ^ (23 + n2)); [|exact Hbig].
      apply Z.le_trans with (2 ^ Z.succ (Z.log2 N1)); [lia|].
      apply Z.pow_le_mono_r; lia.
    + destruct (RNz_shape N1 H1 ltac:(lia)) as (Hq1 & HR1 & Hb1 & _).
      set (n1 := Z.log2 N1 + 1 - 24) in *.
      destruct (Z.eq_dec n1 n2) as [Heq|Hne].
      * rewrite HR1, HR2, Heq.
        apply Z.mul_le_mono_nonneg_r; [apply Z.pow_nonneg; lia|].
        apply round_shift_mono; lia.
      * apply Z.le_trans with (2 ^ (23 + n2)); [|exact Hbig].
        apply Z.le_trans with (2 ^ 24 * 2 ^ n1).
        -- rewrite HR1. apply Z.mul_le_mono_nonneg_r; [apply Z.pow_nonneg|]; lia.
        -- rewrite <- Z.pow_add_r by lia. apply Z.pow_le_mono_r; lia.
Qed.

Lemma RZ_mono (D1 D2 : Z) : D1 <= D2 -> RZ D1 <= RZ D2.
Proof.
  intros H.
  destruct (Z.lt_trichotomy D1 0) as [H1|[H1|H1]], (Z.lt_trichotomy D2 0) as [H2|[H2|H2]];
    try lia; subst;
    rewrite ?(RZ_neg D1), ?(RZ_neg D2), ?(RZ_pos D1), ?(RZ_pos D2) by lia; simpl RZ.
  - pose proof (RNz_mono (- D2) (- D1) ltac:(lia)). lia.
  - pose proof (RNz_positive (- D1) ltac:(lia)). lia.
  - pose proof (RNz_positive (- D1) ltac:(lia)). pose proof (RNz_positive D2 ltac:(lia)). lia.
  - lia.
  - pose proof (RNz_positive D2 ltac:(lia)). lia.
  - apply RNz_mono. lia.
Qed.

Lemma shl_align_value (m : positive) (e ez : Z) :
  ez <= e -> Zpos (fst (shl_align m e ez)) = Zpos m * 2 ^ (e - ez).
Proof.
  intros He. unfold shl_align. destruct (ez - e) as [|p|p] eqn:E; try lia; cbn [fst].
  - replace (e - ez) with 0 by lia. simpl. lia.
  - rewrite iter_xO_value. f_equal. f_equal. lia.
Qed.

Lemma binary_normalize_value (S e : Z) :
  -149 <= e ->
  let D := S * 2 ^ (e + 149) in
  RNz (Z.abs D) < 2 ^ 277 ->
  fin (binary_normalize 24 128 S e false)
  /\ B2Z (binary_normalize 24 128 S e false) = RZ D.
Proof.
  intros He D Hov.
  assert (Hp : 0 < 2 ^ (e + 149)) by (apply Z.pow_pos_nonneg; lia).
  destruct S as [|p|p]; unfold binary_normalize.
  - split; [exact I|]. reflexivity.
  - assert (HD : 0 < D) by (unfold D; nia).
    rewrite Z.abs_eq in Hov by lia.
    destruct (binary_round_value false p e He Hov) as (m' & e' & Hr & Hb & Hv).
    rewrite Hr. split; [exact Hb|].
    rewrite RZ_pos by exact HD. simpl B2Z. exact Hv.
  - assert (HD : D < 0) by (unfold D; nia).
    assert (HD' : - D = Zpos p * 2 ^ (e + 149)) by (unfold D; lia).
    rewrite Z.abs_neq, HD' in Hov by lia.
    destruct (binary_round_value true p e He Hov) as (m' & e' & Hr & Hb & Hv).
    rewrite Hr. split; [exact Hb|].
    rewrite RZ_neg by exact HD. rewrite HD'. simpl B2Z. rewrite Hv. reflexivity.
Qed.

Lemma aligned_value (s : bool) (m : positive) (e ez : Z) :
  -149 <= ez <= e ->
  cond_Zopp s (Zpos (fst (shl_align m e ez))) * 2 ^ (ez + 149)
  = B2Z (S754_finite s m e).
Proof.
  intros He. rewrite shl_align_value by lia.
  assert (Hpw : 2 ^ (e - ez) * 2 ^ (ez + 149) = 2 ^ (e + 149)).
  { rewrite <- Z.pow_add_r by lia. f_equal. lia. }
  destruct s; simpl; rewrite <- Hpw; ring.
Qed.

(** Subtraction and addition of valid finite values: the exact result,
    rounded. *)
Lemma SFsub_spec (sx sy : bool) (mx my : positive) (ex ey : Z) :
  bounded 24 128 mx ex = true -> bounded 24 128 my ey = true ->
  let a := S754_finite sx mx ex in
  let b := S754_finite sy my ey in
  RNz (Z.abs (B2Z a - B2Z b)) < 2 ^ 277 ->
  fin (a - b)%f32 /\ B2Z (a - b)%f32 = RZ (B2Z a - B2Z b).
Proof.
  intros Hx Hy a b Hov.
  pose proof Hx as Hx'. pose proof Hy as Hy'. apply bounded_iff in Hx', Hy'.
  unfold F32.sub, a, b, SFsub.
  set (ez := Z.min ex ey).
  assert (HD : (cond_Zopp sx (Zpos (fst (shl_align mx ex ez)))
                - cond_Zopp sy (Zpos (fst (shl_align my ey ez)))) * 2 ^ (ez + 149)
               = B2Z a - B2Z b).
  { rewrite Z.mul_sub_distr_r, !aligned_value by (unfold ez; lia). reflexivity. }
  pose proof (binary_normalize_value
                (cond_Zopp sx (Zpos (fst (shl_align mx ex ez)))
                 - cond_Zopp sy (Zpos (fst (shl_align my ey ez))))
                ez ltac:(unfold ez; lia)) as Hn.
  cbv zeta in Hn. rewrite HD in Hn. apply Hn. exact Hov.
Qed.

Lemma SFadd_spec (sx sy : bool) (mx my : positive) (ex ey : Z) :
  bounded 24 128 mx ex = true -> bounded 24 128 my ey = true ->
  let a := S754_finite sx mx ex in
  let b := S754_finite sy my ey in
  RNz (Z.abs (B2Z a + B2Z b)) < 2 ^ 277 ->
  fin (a + b)%f32 /\ B2Z (a + b)%f32 = RZ (B2Z a + B2Z b).
Proof.
  intros Hx Hy a b Hov.
  pose proof Hx as Hx'. pose proof Hy as Hy'. apply bounded_iff in Hx', Hy'.
  unfold F32.add, a, b, SFadd.
  set (ez := Z.min ex ey).
  assert (HD : (cond_Zopp sx (Zpos (fst (shl_align mx ex ez)))
                + cond_Zopp sy (Zpos (fst (shl_align my ey ez)))) * 2 ^ (ez + 149)
               = B2Z a + B2Z b).
  { rewrite Z.mul_add_distr_r, !aligned_value by (unfold ez; lia). reflexivity. }
  pose proof (binary_normalize_value
                (cond_Zopp sx (Zpos (fst (shl_align mx ex ez)))
                 + cond_Zopp sy (Zpos (fst (shl_align my ey ez))))
                ez ltac:(unfold ez; lia)) as Hn.
  cbv zeta in Hn. rewrite HD in Hn. apply Hn. exact Hov.
Qed.

(** A valid finite value is its own rounding. *)
Lemma RZ_B2Z (a : float) : fin a -> RZ (B2Z a) = B2Z a.
Proof.
  destruct a as [s| | |s m e]; simpl fin; try tauto; intros Ha; try reflexivity.
  apply bounded_iff in Ha.
  assert (Hp : 0 < 2 ^ (e + 149)) by (apply Z.pow_pos_nonneg; lia).
  assert (Hex : RNz (Zpos m * 2 ^ (e + 149)) = Zpos m * 2 ^ (e + 149)).
  { apply (RNz_exact _ (Zpos m) (e + 149)); [lia|lia|reflexivity|].
    rewrite Z.log2_mul_pow2 by lia. pose proof (log2_digits m). lia. }
  destruct s; simpl B2Z.
  - rewrite RZ_neg by nia. rewrite Z.opp_involutive, Hex. reflexivity.
  - rewrite RZ_pos by nia. exact Hex.
Qed.

(** ** The angle reduction of [Np] *)

Lemma B2Z_PI : B2Z PI = PIz.
Proof. reflexivity. Qed.

Lemma B2Z_TWO_PI : B2Z TWO_PI = 2 * PIz.
Proof. vm_compute. reflexivity. Qed.

Lemma PIz_bounds : 3 * 2 ^ 149 < PIz /\ 2 * PIz < 2 ^ 152 /\ 3 * 2 ^ 150 <= 2 * PIz.
Proof. vm_compute. repeat split; discriminate. Qed.

Lemma fin_PI : fin PI /\ fin (- PI)%f32 /\ fin TWO_PI.
Proof. vm_compute. repeat split. Qed.

Lemma above_PI_spec (d : float) : fin d -> above_PI d = true <-> PIz < B2Z d.
Proof.
  intros Hd. unfold above_PI, F32.ltb, SFltb.
  rewrite (compare_spec PI d (proj1 fin_PI) Hd), B2Z_PI.
  destruct (Z.compare_spec PIz (B2Z d)); split; intros; try discriminate; try lia; reflexivity.
Qed.

Lemma below_PI_spec (d : float) : fin d -> below_PI d = true <-> B2Z d < - PIz.
Proof.
  intros Hd. unfold below_PI, F32.ltb, SFltb.
  rewrite (compare_spec d (- PI)%f32 Hd (proj1 (proj2 fin_PI))).
  change (B2Z (- PI)%f32) with (- PIz).
  destruct (Z.compare_spec (B2Z d) (- PIz)); split; intros; try discriminate; try lia; reflexivity.
Qed.

Lemma fin_nonzero (d : float) :
  fin d -> B2Z d <> 0 -> exists s m e, d = S754_finite s m e /\ bounded 24 128 m e = true.
Proof.
  destruct d as [s| | |s m e]; simpl fin; try tauto; intros Hd Hnz.
  exists s, m, e. split; [reflexivity|exact Hd].
Qed.

Lemma RZ_error (D n : Z) :
  1 <= n -> Z.abs D < 2 ^ (24 + n) -> D - 2 ^ (n - 1) <= RZ D <= D + 2 ^ (n - 1).
Proof.
  intros Hn HD.
  assert (Hh : 0 < 2 ^ (n - 1)) by (apply Z.pow_pos_nonneg; lia).
  assert (Hpos : forall N, 0 < N < 2 ^ (24 + n) -> N - 2 ^ (n - 1) <= RNz N <= N + 2 ^ (n - 1)).
  { intros N [HN0 HN].
    destruct (Z_le_gt_dec (Z.log2 N + 1 - 24) 0) as [Hle|Hgt].
    - rewrite RNz_small by exact Hle. lia.
    - destruct (RNz_shape N HN0 ltac:(lia)) as (_ & _ & _ & Herr).
      assert (Hlog : Z.log2 N < 24 + n) by (apply Z.log2_lt_pow2; lia).
      assert (2 ^ (Z.log2 N + 1 - 24 - 1) <= 2 ^ (n - 1)) by (apply Z.pow_le_mono_r; lia).
      lia. }
  destruct (Z.lt_trichotomy D 0) as [H|[H|H]].
  - rewrite RZ_neg by exact H. specialize (Hpos (- D) ltac:(lia)). lia.
  - subst D. simpl RZ. lia.
  - rewrite RZ_pos by exact H. specialize (Hpos D ltac:(lia)). lia.
Qed.

Lemma RZ_no_overflow (D : Z) : Z.abs D < 2 ^ 200 -> RNz (Z.abs D) < 2 ^ 277.
Proof.
  intros HD. destruct (Z.eq_dec D 0) as [->|Hnz]; [vm_compute; reflexivity|].
  apply Z.le_lt_trans with (2 ^ 200); [|vm_compute; reflexivity].
  apply RNz_le_pow. lia.
Qed.

Lemma step_down_spec (d : float) :
  fin d -> PIz < B2Z d <= 2 ^ 176 ->
  fin (step_down d) /\ - PIz <= B2Z (step_down d) <= B2Z d - 2 ^ 150.
Proof.
  intros Hd [Hlo Hhi].
  pose proof PIz_bounds as (Hp1 & Hp2 & Hp3).
  assert (Hp0 : 0 < 2 ^ 149) by (vm_compute; reflexivity).
  destruct (fin_nonzero d Hd ltac:(lia)) as (s & m & e & -> & Hb).
  pose proof (SFsub_spec s false m 13176795 e (-21) Hb eq_refl) as Hsub.
  cbv zeta in Hsub. change (S754_finite false 13176795 (-21)) with TWO_PI in Hsub.
  rewrite B2Z_TWO_PI in Hsub.
  set (X := B2Z (S754_finite s m e)) in *.
  assert (H176 : 2 ^ 176 = 2 ^ 27 * 2 ^ 149) by reflexivity.
  assert (H152 : 2 ^ 152 = 8 * 2 ^ 149) by reflexivity.
  assert (H150 : 2 ^ 150 = 2 * 2 ^ 149) by reflexivity.
  assert (H151 : 2 ^ 151 = 4 * 2 ^ 149) by reflexivity.
  assert (H200 : 2 ^ 176 + 2 ^ 152 < 2 ^ 200) by (vm_compute; reflexivity).
  destruct Hsub as [Hfin Hval]; [apply RZ_no_overflow; lia|].
  unfold step_down. split; [exact Hfin|]. rewrite Hval.
  split.
  - pose proof (RZ_B2Z (- PI)%f32 (proj1 (proj2 fin_PI))) as Hrz.
    change (B2Z (- PI)%f32) with (- PIz) in Hrz.
    pose proof (RZ_mono (- PIz) (X - 2 * PIz) ltac:(lia)) as Hm. lia.
  - destruct (Z_le_gt_dec (X - 2 * PIz) 0) as [Hneg|Hpos].
    + pose proof (RZ_mono _ _ Hneg) as Hm. simpl (RZ 0) in Hm. lia.
    + pose proof (RZ_error (X - 2 * PIz) 152 ltac:(lia)) as Herr.
      change (2 ^ (152 - 1)) with (2 ^ 151) in Herr. change (24 + 152) with 176 in Herr.
      specialize (Herr ltac:(lia)). lia.
Qed.

Lemma step_up_spec (d : float) :
  fin d -> - 2 ^ 176 <= B2Z d < - PIz ->
  fin (step_up d) /\ B2Z d + 2 ^ 150 <= B2Z (step_up d) <= PIz.
Proof.
  intros Hd [Hlo Hhi].
  pose proof PIz_bounds as (Hp1 & Hp2 & Hp3).
  assert (Hp0 : 0 < 2 ^ 149) by (vm_compute; reflexivity).
  destruct (fin_nonzero d Hd ltac:(lia)) as (s & m & e & -> & Hb).
  pose proof (SFadd_spec s false m 13176795 e (-21) Hb eq_refl) as Hadd.
  cbv zeta in Hadd. change (S754_finite false 13176795 (-21)) with TWO_PI in Hadd.
  rewrite B2Z_TWO_PI in Hadd.
  set (X := B2Z (S754_finite s m e)) in *.
  assert (H176 : 2 ^ 176 = 2 ^ 27 * 2 ^ 149) by reflexivity.
  assert (H152 : 2 ^ 152 = 8 * 2 ^ 149) by reflexivity.
  assert (H150 : 2 ^ 150 = 2 * 2 ^ 149) by reflexivity.
  assert (H151 : 2 ^ 151 = 4 * 2 ^ 149) by reflexivity.
  assert (H200 : 2 ^ 176 + 2 ^ 152 < 2 ^ 200) by (vm_compute; reflexivity).
  destruct Hadd as [Hfin Hval]; [apply RZ_no_overflow; lia|].
  unfold step_up. split; [exact Hfin|]. rewrite Hval.
  split.
  - destruct (Z_le_gt_dec 0 (X + 2 * PIz)) as [Hpos|Hneg].
    + pose proof (RZ_mono _ _ Hpos) as Hm. simpl (RZ 0) in Hm. lia.
    + pose proof (RZ_error (X + 2 * PIz) 152 ltac:(lia)) as Herr.
      change (2 ^ (152 - 1)) with (2 ^ 151) in Herr. change (24 + 152) with 176 in Herr.
      specialize (Herr ltac:(lia)). lia.
  - pose proof (RZ_B2Z PI (proj1 fin_PI)) as Hrz. rewrite B2Z_PI in Hrz.
    pose proof (RZ_mono (X + 2 * PIz) PIz ltac:(lia)) as Hm. lia.
Qed.

Lemma while_loop_exit (fuel : nat) (cond : float -> bool) (body : float -> float) (a : float) :
  cond a = false -> while_loop fuel cond body a = Some a.
Proof. intros H. destruct fuel; simpl; rewrite H; reflexivity. Qed.

Lemma while_loop_step (fuel : nat) (cond : float -> bool) (body : float -> float) (a : float) :
  cond a = true ->
  while_loop (S fuel) cond body a = while_loop fuel cond body (body a).
Proof. intros H. simpl. rewrite H. reflexivity. Qed.

Lemma not_true_false (b : bool) : ~ b = true -> b = false.
Proof. destruct b; congruence. Qed.

Lemma loop_down (n : nat) :
  forall a : float,
    fin a -> B2Z a <= 2 ^ 176 -> B2Z a <= PIz + Z.of_nat n * 2 ^ 150 ->
    exists (d : float) (k : nat),
      (k <= n)%nat
      /\ d = Nat.iter k step_down a
      /\ (forall fuel, (k <= fuel)%nat -> while_loop fuel above_PI step_down a = Some d)
      /\ fin d
      /\ B2Z d <= PIz
      /\ (PIz < B2Z a -> - PIz <= B2Z d)
      /\ (B2Z a <= PIz -> d = a).
Proof.
  assert (Hexit : forall a, fin a -> B2Z a <= PIz ->
            forall m : nat, exists (d : float) (k : nat),
              (k <= m)%nat /\ d = Nat.iter k step_down a
              /\ (forall fuel, (k <= fuel)%nat -> while_loop fuel above_PI step_down a = Some d)
              /\ fin d /\ B2Z d <= PIz /\ (PIz < B2Z a -> - PIz <= B2Z d)
              /\ (B2Z a <= PIz -> d = a)).
  { intros a Ha Hle m. exists a, 0%nat.
    split; [lia|]. split; [reflexivity|]. split.
    - intros fuel _. apply while_loop_exit. apply not_true_false.
      rewrite (above_PI_spec a Ha). lia.
    - repeat split; try assumption; intros; lia || reflexivity. }
  induction n as [|n IH]; intros a Ha Hbig Hn.
  - apply Hexit; [exact Ha|lia].
  - destruct (Z_le_gt_dec (B2Z a) PIz) as [Hle|Hgt]; [apply Hexit; assumption|].
    destruct (step_down_spec a Ha ltac:(lia)) as (Hfin' & Hlo' & Hhi').
    assert (H150 : 0 < 2 ^ 150) by (vm_compute; reflexivity).
    destruct (IH (step_down a) Hfin' ltac:(lia) ltac:(lia))
      as (d & k & Hk & Hd & Hrun & Hfd & Hdle & Hdlo & _).
    exists d, (S k). split; [lia|]. split.
    { rewrite Hd. symmetry. apply Nat.iter_succ_r. }
    split.
    { intros [|fuel] Hfuel; [lia|].
      rewrite while_loop_step by (apply above_PI_spec; [exact Ha|lia]).
      apply Hrun. lia. }
    split; [exact Hfd|]. split; [exact Hdle|]. split; [|intros; lia].
    intros _. destruct (Z_le_gt_dec (B2Z (step_down a)) PIz) as [Hle'|Hgt'].
    + destruct (Hexit (step_down a) Hfin' Hle' 0%nat) as (d0 & k0 & Hk0 & Hd0 & _).
      assert (k0 = 0%nat) by lia. subst k0. simpl in Hd0.
      destruct (IH (step_down a) Hfin' ltac:(lia) ltac:(lia))
        as (d' & k' & _ & _ & Hrun' & _ & _ & _ & Hsame).
      specialize (Hsame Hle').
      pose proof (Hrun (Nat.max k k') ltac:(lia)) as E1.
      pose proof (Hrun' (Nat.max k k') ltac:(lia)) as E2.
      rewrite E1 in E2. injection E2 as ->. rewrite Hsame. exact Hlo'.
    + apply Hdlo. lia.
Qed.

Lemma loop_up (n : nat) :
  forall a : float,
    fin a -> - 2 ^ 176 <= B2Z a -> - PIz - Z.of_nat n * 2 ^ 150 <= B2Z a ->
    exists (d : float) (k : nat),
      (k <= n)%nat
      /\ d = Nat.iter k step_up a
      /\ (forall fuel, (k <= fuel)%nat -> while_loop fuel below_PI step_up a = Some d)
      /\ fin d
      /\ - PIz <= B2Z d
      /\ (B2Z a < - PIz -> B2Z d <= PIz)
      /\ (- PIz <= B2Z a -> d = a).
Proof.
  assert (Hexit : forall a, fin a -> - PIz <= B2Z a ->
            forall m : nat, exists (d : float) (k : nat),
              (k <= m)%nat /\ d = Nat.iter k step_up a
              /\ (forall fuel, (k <= fuel)%nat -> while_loop fuel below_PI step_up a = Some d)
              /\ fin d /\ - PIz <= B2Z d /\ (B2Z a < - PIz -> B2Z d <= PIz)
              /\ (- PIz <= B2Z a -> d = a)).
  { intros a Ha Hle m. exists a, 0%nat.
    split; [lia|]. split; [reflexivity|]. split.
    - intros fuel _. apply while_loop_exit. apply not_true_false.
      rewrite (below_PI_spec a Ha). lia.
    - repeat split; try assumption; intros; lia || reflexivity. }
  induction n as [|n IH]; intros a Ha Hbig Hn.
  - apply Hexit; [exact Ha|lia].
  - destruct (Z_le_gt_dec (- PIz) (B2Z a)) as [Hle|Hgt]; [apply Hexit; assumption|].
    destruct (step_up_spec a Ha ltac:(lia)) as (Hfin' & Hlo' & Hhi').
    assert (H150 : 0 < 2 ^ 150) by (vm_compute; reflexivity).
    pose proof PIz_bounds as (Hp1 & Hp2 & Hp3).
    assert (Hp176 : PIz < 2 ^ 176) by (vm_compute; reflexivity).
    destruct (IH (step_up a) Hfin' ltac:(lia) ltac:(lia))
      as (d & k & Hk & Hd & Hrun & Hfd & Hdge & Hdhi & Hsame).
    exists d, (S k). split; [lia|]. split.
    { rewrite Hd. symmetry. apply Nat.iter_succ_r. }
    split.
    { intros [|fuel] Hfuel; [lia|].
      rewrite while_loop_step by (apply below_PI_spec; [exact Ha|lia]).
      apply Hrun. lia. }
    split; [exact Hfd|]. split; [exact Hdge|]. split; [|intros; lia].
    intros _. destruct (Z_le_gt_dec (- PIz) (B2Z (step_up a))) as [Hle'|Hgt'].
    + rewrite (Hsame Hle'). exact Hhi'.
    + apply Hdhi. lia.
Qed.

Lemma Np_reduce_eq (fuel : nat) (a : float) :
  Np_reduce fuel a
  = match while_loop fuel above_PI step_down a with
    | Some d => while_loop fuel below_PI step_up d
    | None => None
    end.
Proof. reflexivity. Qed.

(** The two loops of [Np] on a finite difference of magnitude at most
    [2^27]: they stop, and leave a value between [-PI] and [PI] reached from
    the input by repeated subtraction, or repeated addition, of [TWO_PI]. *)
Lemma Np_reduce_terminates (a : float) :
  fin a -> Z.abs (B2Z a) <= 2 ^ 176 ->
  exists (d : float) (n : nat),
    (forall fuel, (n <= fuel)%nat -> Np_reduce fuel a = Some d)
    /\ fin d
    /\ - PIz <= B2Z d <= PIz
    /\ exists k : nat, (k <= n)%nat /\ (d = Nat.iter k step_down a \/ d = Nat.iter k step_up a).
Proof.
  intros Ha Hbig.
  assert (H150 : 0 < 2 ^ 150) by (vm_compute; reflexivity).
  pose proof PIz_bounds as (Hp1 & Hp2 & Hp3).
  set (n := Z.to_nat (Z.abs (B2Z a) / 2 ^ 150 + 1)).
  assert (Hn : Z.abs (B2Z a) <= Z.of_nat n * 2 ^ 150).
  { unfold n. rewrite Z2Nat.id by (pose proof (Z.div_pos (Z.abs (B2Z a)) (2 ^ 150)); lia).
    pose proof (Z.div_mod (Z.abs (B2Z a)) (2 ^ 150) ltac:(lia)) as Hdm.
    pose proof (Z.mod_pos_bound (Z.abs (B2Z a)) (2 ^ 150) H150). lia. }
  assert (HPI0 : 0 < PIz) by (vm_compute; reflexivity).
  destruct (loop_down n a Ha ltac:(lia) ltac:(lia))
    as (d1 & k1 & Hk1 & Hd1 & Hrun1 & Hf1 & Hle1 & Hlo1 & Hsame1).
  destruct (Z_le_gt_dec (B2Z a) PIz) as [Hsmall|Hlarge].
  - (* the first loop does not run *)
    specialize (Hsame1 Hsmall). rewrite Hsame1 in Hrun1. clear Hd1.
    destruct (loop_up n a Ha ltac:(lia) ltac:(lia))
      as (d2 & k2 & Hk2 & Hd2 & Hrun2 & Hf2 & Hge2 & Hhi2 & Hsame2).
    exists d2, n. split.
    { intros fuel Hfuel. rewrite Np_reduce_eq, Hrun1 by lia.
      apply Hrun2. lia. }
    split; [exact Hf2|]. split.
    { split; [exact Hge2|].
      destruct (Z_le_gt_dec (- PIz) (B2Z a)) as [Hin|Hout].
      - rewrite (Hsame2 Hin). exact Hsmall.
      - apply Hhi2. lia. }
    exists k2. split; [exact Hk2|]. right. exact Hd2.
  - (* the first loop runs and leaves a value the second one accepts *)
    specialize (Hlo1 ltac:(lia)).
    exists d1, n. split.
    { intros fuel Hfuel. rewrite Np_reduce_eq, Hrun1 by lia.
      apply while_loop_exit. apply not_true_false.
      rewrite (below_PI_spec d1 Hf1). lia. }
    split; [exact Hf1|]. split; [lia|].
    exists k1. split; [exact Hk1|]. left. exact Hd1.
Qed.

Lemma bounded_angle (a : float) :
  valid a -> (F32.abs a <=? ANGLE_BOUND)%f32 = true ->
  fin a /\ Z.abs (B2Z a) <= 2 ^ 176.
Proof.
  intros Hv Hle. destruct a as [s|s| |s m e]; try discriminate Hle.
  - split; [exact I|]. simpl. lia.
  - assert (Hfin : fin (S754_finite false m e)) by exact Hv.
    split; [exact Hv|].
    unfold F32.leb, SFleb in Hle. simpl F32.abs in Hle.
    rewrite (compare_spec _ ANGLE_BOUND Hfin eq_refl) in Hle.
    change (B2Z ANGLE_BOUND) with (2 ^ 176) in Hle.
    assert (Habs : Z.abs (B2Z (S754_finite s m e)) = B2Z (S754_finite false m e)).
    { apply bounded_iff in Hv.
      assert (0 < 2 ^ (e + 149)) by (apply Z.pow_pos_nonneg; lia).
      destruct s; simpl; nia. }
    rewrite Habs.
    destruct (Z.compare_spec (B2Z (S754_finite false m e)) (2 ^ 176)); try discriminate; lia.
Qed.

Lemma within_PI (d : float) :
  fin d -> - PIz <= B2Z d <= PIz ->
  (- PI <=? d)%f32 = true /\ (d <=? PI)%f32 = true.
Proof.
  intros Hd [Hlo Hhi]. destruct fin_PI as (HfP & HfN & _).
  unfold F32.leb, SFleb.
  rewrite (compare_spec _ _ HfN Hd), (compare_spec _ _ Hd HfP), B2Z_PI.
  change (B2Z (- PI)%f32) with (- PIz).
  split.
  - destruct (Z.compare_spec (- PIz) (B2Z d)); reflexivity || lia.
  - destruct (Z.compare_spec (B2Z d) PIz); reflexivity || lia.
Qed.

Lemma while_loop_stuck (cond : float -> bool) (body : float -> float) (a : float) :
  cond a = true -> body a = a -> forall fuel, while_loop fuel cond body a = None.
Proof.
  intros Hc Hb fuel. induction fuel as [|fuel IH]; simpl; rewrite Hc; [reflexivity|].
  rewrite Hb. exact IH.
Qed.

(** ** C10: termination of the angle reduction *)

(** C10 (as the code has it).  For every [phi] and lobe [p] whose difference
    [dphi = phi - Phi(p)] is a finite [float] of magnitude at most [2^27],
    the two [while] loops of [Np] stop after finitely many iterations and
    leave the reduced difference between [-PI] and [PI]; [Np] returns on
    these inputs. *)
Theorem Np_loops_terminate (E : Extern) (phi : float) (p : nat)
    (scale gammaO gammaT : float) :
  let dphi := (phi - Phi p gammaO gammaT)%f32 in
  valid dphi -> (F32.abs dphi <=? ANGLE_BOUND)%f32 = true ->
  exists (d : float) (n : nat),
    (- PI <=? d)%f32 = true /\ (d <=? PI)%f32 = true
    /\ forall fuel, (n <= fuel)%nat ->
         Np_reduce fuel dphi = Some d
         /\ is_Some (Np fuel phi p scale gammaO gammaT).
Proof.
  intros dphi Hv Hle.
  destruct (bounded_angle dphi Hv Hle) as [Hfin Hbig].
  destruct (Np_reduce_terminates dphi Hfin Hbig) as (d & n & Hrun & Hfd & Hrange & _).
  destruct (within_PI d Hfd Hrange) as [Hlo Hhi].
  exists d, n. split; [exact Hlo|]. split; [exact Hhi|].
  intros fuel Hfuel. split; [apply Hrun; exact Hfuel|].
  unfold Np. fold dphi. rewrite (Hrun fuel Hfuel). simpl. eexists. reflexivity.
Qed.

Lemma Np_loops_terminate_witness :
  let phi := F32.of_int (-30) in
  let dphi := (phi - Phi 2 1%f32 (F32.lit 5 10))%f32 in
  dphi = S754_finite true 9511419 (-18)
  /\ exists (d : float) (n : nat),
       (- PI <=? d)%f32 = true /\ (d <=? PI)%f32 = true
       /\ forall fuel, (n <= fuel)%nat ->
            Np_reduce fuel dphi = Some d
            /\ is_Some (Np (E := Ref.extern) fuel phi 2 (F32.lit 117 1000) 1%f32 (F32.lit 5 10)).
Proof.
  split; [vm_compute; reflexivity|].
  apply (Np_loops_terminate Ref.extern (F32.of_int (-30)) 2 (F32.lit 117 1000) 1%f32
           (F32.lit 5 10)); vm_compute; reflexivity.
Defined.

(** C10 as stated fails for large finite angles.  At [phi = 2^27 + 16], the
    first [float] above [2^27], with [p = 0] and zero offsets, the
    subtraction [dphi -= TWO_PI] rounds back to [dphi]: the first loop never
    ends and [Np] never returns. *)
Lemma Np_loop_diverges :
  let phi := F32.of_int 134217744 in
  F32.is_finite phi = true
  /\ (phi - Phi 0 0%f32 0%f32)%f32 = phi
  /\ (phi >? PI)%f32 = true
  /\ (phi - TWO_PI)%f32 = phi
  /\ (forall fuel, Np_reduce fuel phi = None)
  /\ (forall (E : Extern) (fuel : nat) (scale : float),
        Np fuel phi 0 scale 0%f32 0%f32 = None).
Proof.
  cbv zeta.
  assert (Hstuck : forall fuel, Np_reduce fuel (F32.of_int 134217744) = None).
  { intros fuel. rewrite Np_reduce_eq.
    rewrite while_loop_stuck; [reflexivity| |]; vm_compute; reflexivity. }
  split; [reflexivity|]. split; [vm_compute; reflexivity|].
  split; [vm_compute; reflexivity|]. split; [vm_compute; reflexivity|].
  split; [exact Hstuck|].
  intros E fuel scale. unfold Np.
  replace (F32.of_int 134217744 - Phi 0 0 0)%f32 with (F32.of_int 134217744)
    by (vm_compute; reflexivity).
  rewrite Hstuck. reflexivity.
Qed.

(** ** C6: the azimuthal density *)

Lemma abs_abs (a : float) : F32.abs (F32.abs a) = F32.abs a.
Proof. destruct a; reflexivity. Qed.

Lemma abs_within_PI (d : float) :
  fin d -> - PIz <= B2Z d <= PIz ->
  (- PI <? F32.abs d)%f32 = true /\ (F32.abs d <=? PI)%f32 = true.
Proof.
  intros Hd [Hlo Hhi]. destruct fin_PI as (HfP & HfN & _).
  assert (HPI0 : 0 < PIz) by (vm_compute; reflexivity).
  assert (Hfa : fin (F32.abs d)) by (destruct d; exact Hd).
  assert (Hva : B2Z (F32.abs d) = Z.abs (B2Z d)).
  { destruct d as [s| | |s m e]; try reflexivity.
    apply bounded_iff in Hd.
    assert (0 < 2 ^ (e + 149)) by (apply Z.pow_pos_nonneg; lia).
    destruct s; simpl; nia. }
  unfold F32.ltb, F32.leb, SFltb, SFleb.
  rewrite (compare_spec _ _ HfN Hfa), (compare_spec _ _ Hfa HfP), B2Z_PI, Hva.
  change (B2Z (- PI)%f32) with (- PIz).
  split.
  - destruct (Z.compare_spec (- PIz) (Z.abs (B2Z d))); reflexivity || lia.
  - destruct (Z.compare_spec (Z.abs (B2Z d)) PIz); reflexivity || lia.
Qed.

(** C6 (as the code has it).  With [Phi(p) = 2 p gammaT - 2 gammaO + p PI],
    and for a difference [phi - Phi(p)] that is a valid [float] of magnitude
    at most [2^27], [Np] returns the logistic density of the given scale,
    [e^(-|d|/s) / (s (1 + e^(-|d|/s))^2)], divided by its mass between [-PI]
    and [PI], at the value [d] that the difference reaches by repeated
    subtraction or repeated addition of [TWO_PI]; [d] lies in the closed
    interval from [-PI] to [PI]. *)
Theorem Np_trimmed_logistic (E : Extern) (phi : float) (p : nat)
    (scale gammaO gammaT : float) :
  let pf := F32.of_int (Z.of_nat p) in
  let offset := (2 * pf * gammaT - 2 * gammaO + pf * PI)%f32 in
  let dphi := (phi - offset)%f32 in
  valid dphi -> (F32.abs dphi <=? ANGLE_BOUND)%f32 = true ->
  Phi p gammaO gammaT = offset
  /\ exists (d : float) (n k : nat),
       (d = Nat.iter k (fun t => t - TWO_PI)%f32 dphi
        \/ d = Nat.iter k (fun t => t + TWO_PI)%f32 dphi)
       /\ (- PI <=? d)%f32 = true /\ (d <=? PI)%f32 = true
       /\ (forall fuel, (n <= fuel)%nat ->
             Np fuel phi p scale gammaO gammaT
             = Some (spec_trimmed_logistic scale (- PI)%f32 PI d)).
Proof.
  intros pf offset dphi Hv Hle.
  split; [reflexivity|].
  destruct (bounded_angle dphi Hv Hle) as [Hfin Hbig].
  destruct (Np_reduce_terminates dphi Hfin Hbig)
    as (d & n & Hrun & Hfd & Hrange & k & _ & Hk).
  destruct (within_PI d Hfd Hrange) as [Hlo Hhi].
  exists d, n, k.
  split; [exact Hk|]. split; [exact Hlo|]. split; [exact Hhi|].
  intros fuel Hfuel. unfold Np.
  change (phi - Phi p gammaO gammaT)%f32 with dphi.
  rewrite (Hrun fuel Hfuel). cbn [mbind option_bind]. f_equal.
Qed.

Lemma Np_trimmed_logistic_witness :
  let phi := F32.of_int (-30) in
  let dphi := (phi - Phi 2 1%f32 (F32.lit 5 10))%f32 in
  exists (d : float) (n k : nat),
    (d = Nat.iter k (fun t => t - TWO_PI)%f32 dphi
     \/ d = Nat.iter k (fun t => t + TWO_PI)%f32 dphi)
    /\ (- PI <=? d)%f32 = true /\ (d <=? PI)%f32 = true
    /\ (forall fuel, (n <= fuel)%nat ->
          Np (E := Ref.extern) fuel phi 2 (F32.lit 117 1000) 1%f32 (F32.lit 5 10)
          = Some (spec_trimmed_logistic (E := Ref.extern) (F32.lit 117 1000)
                    (- PI)%f32 PI d)).
Proof.
  apply (Np_trimmed_logistic Ref.extern (F32.of_int (-30)) 2 (F32.lit 117 1000) 1%f32
           (F32.lit 5 10)); vm_compute; reflexivity.
Defined.

(** C6 as stated fails on both counts.  For the finite [phi = 2^30] and
    lobe 0 the difference [phi - Phi(0)] is [2^30]; subtracting [TWO_PI]
    rounds back to it and [Np] never returns, so it equals no density.  And
    for [phi = -PI] the difference is [-PI] itself, which neither loop
    changes: the reduced value is [-PI], outside [(-PI, PI]]. *)
Lemma Np_reduction_counterexample :
  let far := F32.of_int 1073741824 in
  F32.is_finite far = true
  /\ (far - Phi 0 0%f32 0%f32)%f32 = far
  /\ (far >? PI)%f32 = true /\ (far - TWO_PI)%f32 = far
  /\ (forall (E : Extern) (fuel : nat) (scale : float),
        Np fuel far 0 scale 0%f32 0%f32 = None)
  /\ (- PI - Phi 0 0%f32 0%f32)%f32 = (- PI)%f32
  /\ (forall fuel, Np_reduce fuel (- PI)%f32 = Some (- PI)%f32)
  /\ (- PI <? - PI)%f32 = false.
Proof.
  cbv zeta.
  assert (Hstuck : forall fuel, Np_reduce fuel (F32.of_int 1073741824) = None).
  { intros fuel. rewrite Np_reduce_eq.
    rewrite while_loop_stuck; [reflexivity| |]; vm_compute; reflexivity. }
  split; [reflexivity|]. split; [vm_compute; reflexivity|].
  split; [vm_compute; reflexivity|]. split; [vm_compute; reflexivity|].
  split.
  { intros E fuel scale. unfold Np.
    replace (F32.of_int 1073741824 - Phi 0 0 0)%f32 with (F32.of_int 1073741824)
      by (vm_compute; reflexivity).
    rewrite Hstuck. reflexivity. }
  split; [vm_compute; reflexivity|]. split; [|reflexivity].
  intros fuel. rewrite Np_reduce_eq.
  rewrite (while_loop_exit fuel above_PI step_down (- PI)%f32) by reflexivity.
  apply while_loop_exit. reflexivity.
Qed.

(** ** C1: reciprocity *)

Lemma SFmul_comm (a b : float) : (a * b)%f32 = (b * a)%f32.
Proof.
  unfold F32.mul.
  destruct a as [sa|sa| |sa ma ea], b as [sb|sb| |sb mb eb]; simpl;
    rewrite ?(xorb_comm sa sb), ?(Pos.mul_comm ma mb), ?(Z.add_comm ea eb); reflexivity.
Qed.

(** C1 (what holds of it).  The longitudinal factor is reciprocal, bit for
    bit: exchanging the incoming and the outgoing (cosine, sine) pair leaves
    [Mp] unchanged. *)
Theorem Mp_reciprocal (E : Extern) (cosThetaI cosThetaO sinThetaI sinThetaO v : float) :
  Mp cosThetaI cosThetaO sinThetaI sinThetaO v = Mp cosThetaO cosThetaI sinThetaO sinThetaI v.
Proof.
  unfold Mp.
  rewrite (SFmul_comm cosThetaI cosThetaO), (SFmul_comm sinThetaI sinThetaO).
  reflexivity.
Qed.

(** C1 as stated fails.  In the scenario configuration, between the two
    unit directions [(0,0,1)] and [(0,1,0)] across the fiber, [f] is about
    3.255 one way and 0.00027 the other: the attenuation and the phase
    offsets are functions of the outgoing direction alone. *)
Lemma f_not_reciprocal :
  let a := S754_finite false 13652708 (-22) in
  let b := S754_finite false 9334532 (-35) in
  Hair.f (E := Ref.extern) scenario 4 across_fiber across_fiber_y = Some (splat a)
  /\ Hair.f (E := Ref.extern) scenario 4 across_fiber_y across_fiber = Some (splat b)
  /\ within_tolerance (F32.lit 1 100000) a b = false.
Proof. vm_compute. repeat split. Qed.

(** ** C2: the density of [sample_f] and [pdf] *)

Lemma pdf_is_lobe_sum (E : Extern) (h : Hair.t) (fuel : nat) (wo wi : Vector) :
  Hair.pdf h fuel wo wi
  = lobe_sum h fuel wo (Vector.x wi) (ssqrt (1 - SQR (Vector.x wi))%f32)
      (atan2 (Vector.y wi) (Vector.z wi) - atan2 (Vector.y wo) (Vector.z wo))%f32.
Proof. reflexivity. Qed.

Lemma sample_f_density (E : Extern) (h : Hair.t) (fuel : nat) (wo : Vector) (g : Canonical)
    (fv : Spectrum) (wi : Vector) (d : float) :
  fst (Hair.sample_f h fuel wo true g) = Some (fv, wi, Some d) ->
  exists sinThetaI cosThetaI dphi : float,
    let phiI := (atan2 (Vector.y wo) (Vector.z wo) + dphi)%f32 in
    wi = Vector3f sinThetaI (cosThetaI * sin phiI)%f32 (cosThetaI * cos phiI)%f32
    /\ lobe_sum h fuel wo sinThetaI cosThetaI dphi = Some d.
Proof.
  unfold Hair.sample_f, sort_canonical. cbv beta iota zeta.
  destruct (Hair.tilt h _ _ _) as [sIp cIp]. cbn [fst].
  intros H.
  match type of H with
  | context [Vector.Vector3f _ (F32.mul _ (sin (F32.add _ ?dp))) _] =>
      set (dphi := dp) in *; clearbody dphi
  end.
  exists sIp, cIp, dphi.
  cbv zeta. unfold lobe_sum, entry_angles. cbn [fst snd].
  match type of H with
  | context [for_range 0 PMAX ?body ?init] =>
      set (X := for_range 0 PMAX body init) in *; clearbody X
  end.
  destruct X as [acc|]; cbn [mbind option_bind] in H |- *; [|discriminate H].
  match type of H with
  | context [Hair.f h fuel wo ?w] =>
      set (Y := Hair.f h fuel wo w) in *; clearbody Y
  end.
  destruct Y as [fv'|]; cbn [mbind option_bind] in H; [|discriminate H].
  pose proof (f_equal (fun o => match o with Some (_, w, _) => w | None => wi end) H) as Hwi.
  pose proof (f_equal (fun o => match o with Some (_, _, Some a) => a | _ => d end) H) as Hd.
  cbv beta iota in Hwi, Hd.
  split; [symmetry; exact Hwi|]. rewrite Hd. reflexivity.
Qed.

Lemma lobe_sum_offset (E : Extern) (h : Hair.t) (fuel : nat) (wo : Vector)
    (sinThetaI cosThetaI phi1 phi2 : float) :
  (forall p, (p < PMAX)%nat ->
     Np fuel phi1 p (Hair.m_scale h) (fst (entry_angles h wo)) (snd (entry_angles h wo))
     = Np fuel phi2 p (Hair.m_scale h) (fst (entry_angles h wo)) (snd (entry_angles h wo))) ->
  lobe_sum h fuel wo sinThetaI cosThetaI phi1 = lobe_sum h fuel wo sinThetaI cosThetaI phi2.
Proof.
  intros HNp. unfold lobe_sum, for_range.
  change (PMAX - 0)%nat with 3%nat. cbn [for_loop]. unfold Hair.pdf_lobe.
  rewrite !HNp by (unfold PMAX; lia). reflexivity.
Qed.

(** Where the two densities come from.  When [sample_f] returns the
    direction [wi] and writes the density [d], there are a sine, a cosine and
    an azimuthal offset (the sampled, tilted ones) from which [wi] was built
    and at which the lobe sum is [d]; [pdf(wo, wi)] is the same lobe sum,
    with the same partition, variances and tail term, at the sine [wi.x], the
    cosine recomputed as [ssqrt(1 - wi.x^2)], which is never negative, and
    the offset recomputed from the two [atan2] angles. *)
Lemma sample_density_origin (E : Extern) (h : Hair.t) (fuel : nat) (wo : Vector)
    (g : Canonical) (fv : Spectrum) (wi : Vector) (d : float) :
  fst (Hair.sample_f h fuel wo true g) = Some (fv, wi, Some d) ->
  let phiO := atan2 (Vector.y wo) (Vector.z wo) in
  let phi := (atan2 (Vector.y wi) (Vector.z wi) - phiO)%f32 in
  exists sinThetaI cosThetaI dphi : float,
    wi = Vector3f sinThetaI (cosThetaI * sin (phiO + dphi))%f32
           (cosThetaI * cos (phiO + dphi))%f32
    /\ lobe_sum h fuel wo sinThetaI cosThetaI dphi = Some d
    /\ Hair.pdf h fuel wo wi
       = lobe_sum h fuel wo sinThetaI (ssqrt (1 - SQR sinThetaI)%f32) phi.
Proof.
  intros H phiO phi.
  destruct (sample_f_density E h fuel wo g fv wi d H) as (sI & cI & dphi & Hwi & Hsum).
  cbv zeta in Hwi. fold phiO in Hwi.
  exists sI, cI, dphi.
  split; [exact Hwi|]. split; [exact Hsum|].
  rewrite pdf_is_lobe_sum. unfold phi, phiO. rewrite Hwi. reflexivity.
Qed.

(** C2.  The density [sample_f] writes and the one [pdf] returns for the
    same pair disagree when the cuticle tilt carries the sampled angle past
    90 degrees.  In the scenario fiber, for the outgoing unit direction
    [(-0.8, 0, 0.6)] and the draws [0, 0.094, 0, 0.5], lobe 0 is selected and
    its tilt turns the sampled cosine into [-0.0219]; [sample_f] keeps that
    negative cosine, builds [wi] with it and writes the lobe sum at it,
    0.2108...: unlike [f], [pdf] and the density loop of [sample_f] itself,
    which take the absolute value of the tilted cosine, the assignment
    [cosThetaI = cosThetaIp] takes none.  [pdf] on the returned pair
    recomputes a cosine that is not negative and returns 0.001827.... *)
Theorem sample_density_mismatch :
  let wi := Vector3f (S754_finite false 16773201 (-24)) (S754_finite true 8612646 (-52))
              (S754_finite false 11744164 (-29)) in
  let d_sample := S754_finite false 14146875 (-26) in
  let d_pdf := S754_finite false 15694376 (-33) in
  let cosThetaI := S754_finite true 11744164 (-29) in
  let phiO := @atan2 Ref.extern (Vector.y oblique) (Vector.z oblique) in
  fst (Hair.sample_f (E := Ref.extern) scenario 4 oblique true grazing_draws)
  = Some (splat d_pdf, wi, Some d_sample)
  /\ Hair.pdf (E := Ref.extern) scenario 4 oblique wi = Some d_pdf
  /\ within_tolerance (F32.lit 1 100000) d_sample d_pdf = false
  /\ (cosThetaI <? 0)%f32 = true
  /\ wi = Vector3f (Vector.x wi) (cosThetaI * @sin Ref.extern (phiO + - PI))%f32
            (cosThetaI * @cos Ref.extern (phiO + - PI))%f32
  /\ lobe_sum (E := Ref.extern) scenario 4 oblique (Vector.x wi) cosThetaI (- PI)%f32
     = Some d_sample
  /\ (0 <=? ssqrt (1 - SQR (Vector.x wi))%f32)%f32 = true.
Proof.
  cbv zeta.
  split; [vm_compute; reflexivity|]. split; [vm_compute; reflexivity|].
  split; [vm_compute; reflexivity|]. split; [reflexivity|].
  split; [vm_compute; reflexivity|]. split; vm_compute; reflexivity.
Qed.

(** * Further properties of the code

    Properties of [Hair::Hair], of the static helpers and of the three
    operations that the code shows beyond the statements above: what the
    constructor stores, when the operations return, and what they do at the
    edges of the [float] range. *)

(** ** Rounding in a format of any precision *)

Section Precision.
Variables prec emax : Z.
Hypothesis Hprec : 0 < prec.

Lemma fexp_at (z : Z) : fexp prec emax z = Z.max (z - prec) (3 - emax - prec).
Proof. reflexivity. Qed.

Lemma digits_pow2 (p : positive) : Zpos p = 2 ^ prec -> digits p = prec + 1.
Proof.
  intros Hp. apply digits_unique. rewrite Hp.
  replace (prec + 1 - 1) with prec by lia. split; [lia|].
  apply Z.pow_lt_mono_r; lia.
Qed.

Lemma shr_fexp_noshift_at (m : positive) (e : Z) :
  fexp prec emax (digits m + e) - e <= 0 ->
  shr_fexp prec emax (Zpos m) e loc_Exact = (Build_shr_record (Zpos m) false false, e).
Proof.
  intros Hk. unfold shr_fexp. change (Zdigits2 (Zpos m)) with (digits m).
  unfold shr. destruct (fexp prec emax (digits m + e) - e); try reflexivity. lia.
Qed.

Lemma shr_fexp_shift_at (m : positive) (e : Z) :
  0 < fexp prec emax (digits m + e) - e ->
  let k := fexp prec emax (digits m + e) - e in
  exists n : nat, k = Z.of_nat (S n) /\
  shr_fexp prec emax (Zpos m) e loc_Exact
  = (Nat.iter (S n) shr_1 (Build_shr_record (Zpos m) false false), e + k).
Proof.
  intros Hk k. unfold shr_fexp. change (Zdigits2 (Zpos m)) with (digits m). fold k.
  unfold shr. destruct k as [|p|p] eqn:Ek; try lia.
  exists (Nat.pred (Pos.to_nat p)).
  assert (Hp : S (Nat.pred (Pos.to_nat p)) = Pos.to_nat p) by lia.
  rewrite Hp. split; [lia|].
  simpl shr_record_of_loc. rewrite iter_pos_nat. reflexivity.
Qed.

Lemma round_aux_end_at (s : bool) (m : positive) (e : Z) :
  fexp prec emax (digits m + e) - e <= 0 ->
  binary_round_aux prec emax s (Zpos m) e loc_Exact = mk_float_at prec emax s (Zpos m) e.
Proof.
  intros Hk. unfold binary_round_aux.
  rewrite (shr_fexp_noshift_at m e Hk). cbn [shr_m loc_of_shr_record round_nearest_even].
  rewrite (shr_fexp_noshift_at m e Hk). cbn [shr_m]. reflexivity.
Qed.

Lemma round_aux_shift_at (s : bool) (m : positive) (e : Z) :
  let k := fexp prec emax (digits m + e) - e in
  0 < k ->
  let m1 := round_shift (Zpos m) k in
  binary_round_aux prec emax s (Zpos m) e loc_Exact
  = if m1 =? 2 ^ prec then mk_float_at prec emax s (2 ^ (prec - 1)) (e + k + 1)
    else mk_float_at prec emax s m1 (e + k).
Proof.
  intros k Hk m1.
  destruct (shr_fexp_shift_at m e Hk) as (n & Hn & Hshr). fold k in Hn, Hshr.
  unfold binary_round_aux. rewrite Hshr.
  rewrite (round_shift_spec (Zpos m) n ltac:(lia)). rewrite <- Hn. fold m1.
  pose proof (digits_bounds m) as Hd. pose proof (digits_pos m) as Hd1.
  assert (Hkd : digits m - prec <= k) by (unfold k; rewrite fexp_at; lia).
  assert (He' : 3 - emax - prec <= e + k) by (unfold k; rewrite fexp_at; lia).
  assert (Hq : 0 <= Zpos m / 2 ^ k < 2 ^ prec).
  { split; [apply Z.div_pos; [lia|apply Z.pow_pos_nonneg; lia]|].
    destruct (Z_lt_le_dec (digits m) k) as [Hlt|Hge].
    - rewrite Z.div_small; [apply Z.pow_pos_nonneg; lia|]. split; [lia|].
      apply Z.lt_le_trans with (2 ^ digits m); [lia|]. apply Z.pow_le_mono_r; lia.
    - apply Z.lt_le_trans with (2 ^ (digits m - k)).
      + apply div_pow2_lt; lia.
      + apply Z.pow_le_mono_r; lia. }
  pose proof (round_shift_bounds (Zpos m) k ltac:(lia) ltac:(lia)) as Hm1. fold m1 in Hm1.
  assert (Hpp : 0 < 2 ^ prec) by (apply Z.pow_pos_nonneg; lia).
  destruct (Z.eqb_spec m1 (2 ^ prec)) as [Heq|Hne].
  - rewrite Heq. unfold shr_fexp.
    destruct (2 ^ prec) as [|pp|pp] eqn:Epp; try lia.
    change (Zdigits2 (Zpos pp)) with (digits pp). rewrite (digits_pow2 pp (eq_sym Epp)).
    replace (fexp prec emax (prec + 1 + (e + k)) - (e + k)) with 1 by (rewrite fexp_at; lia).
    cbn [shr shr_record_of_loc SpecFloat.iter_pos].
    rewrite shr_1_nonneg by lia. cbn [shr_m loc_of_shr_record round_nearest_even].
    assert (Hhalf : Zpos pp / 2 = 2 ^ (prec - 1)).
    { rewrite <- Epp. replace prec with (1 + (prec - 1)) at 1 by lia.
      rewrite Z.pow_add_r by lia. change (2 ^ 1) with 2.
      rewrite Z.mul_comm, Z.div_mul by lia. reflexivity. }
    rewrite Hhalf. reflexivity.
  - destruct m1 as [|p1|p1] eqn:Em1; try lia.
    + unfold shr_fexp. change (Zdigits2 0) with 0.
      rewrite fexp_at.
      unfold shr. destruct (Z.max (0 + (e + k) - prec) (3 - emax - prec) - (e + k)) eqn:Es;
        try lia; reflexivity.
    + assert (Hdp : digits p1 <= prec).
      { pose proof (digits_bounds p1) as [Hlo _].
        destruct (Z_lt_le_dec prec (digits p1)) as [Hgt|]; [|lia].
        assert (2 ^ prec <= 2 ^ (digits p1 - 1)) by (apply Z.pow_le_mono_r; lia). lia. }
      rewrite shr_fexp_noshift_at by (rewrite fexp_at; lia).
      reflexivity.
Qed.

Lemma binary_round_short (s : bool) (m : positive) (e : Z) :
  let t := fexp prec emax (digits m + e) in
  t < e ->
  exists p : positive,
    Zpos p = Zpos m * 2 ^ (e - t)
    /\ binary_round prec emax s m e = binary_round_aux prec emax s (Zpos p) t loc_Exact.
Proof.
  intros t Ht. unfold binary_round. change (Zpos (digits2_pos m)) with (digits m). fold t.
  unfold shl_align. destruct (t - e) as [|k|d] eqn:Ek; try lia.
  exists (shift_pos d m). split; [|reflexivity].
  unfold shift_pos. rewrite iter_xO_value. f_equal. f_equal. lia.
Qed.

Lemma binary_round_long (s : bool) (m : positive) (e : Z) :
  e <= fexp prec emax (digits m + e) ->
  binary_round prec emax s m e = binary_round_aux prec emax s (Zpos m) e loc_Exact.
Proof.
  intros Ht. unfold binary_round. change (Zpos (digits2_pos m)) with (digits m).
  unfold shl_align. destruct (fexp prec emax (digits m + e) - e) as [|k|d] eqn:Ek;
    try lia; reflexivity.
Qed.

End Precision.

(** ** Products and sums of bounded values *)

Lemma normal_bounds (m : positive) : digits m = 24 -> 2 ^ 23 <= Zpos m < 2 ^ 24.
Proof. intros H. pose proof (digits_bounds m) as Hb. rewrite H in Hb. exact Hb. Qed.

Lemma normal_small (lo hi : Z) (x : float) :
  -149 <= lo -> hi <= 104 -> normal_in lo hi x -> small_in hi x.
Proof.
  intros Hlo Hhi (m & e & -> & Hd & He). split; [|reflexivity].
  split; [|lia]. apply bounded_iff. lia.
Qed.

Lemma normal_positive (lo hi : Z) (x : float) :
  normal_in lo hi x -> (0 <? x)%f32 = true /\ F32.is_finite x = true.
Proof. intros (m & e & -> & _). split; reflexivity. Qed.

Lemma normal_literal (x : float) (m : positive) (e : Z) :
  x = S754_finite false m e -> digits m = 24 -> normal_in e e x.
Proof. intros -> Hd. exists m, e. split; [reflexivity|]. split; [exact Hd|lia]. Qed.

(** The product of two positive normal values, when it neither underflows nor
    overflows, is a positive normal value. *)
Lemma mul_normal (a b c d : Z) (x y : float) :
  normal_in a b x -> normal_in c d y ->
  -149 <= a + c + 23 -> b + d + 25 <= 104 ->
  normal_in (a + c + 23) (b + d + 25) (x * y)%f32.
Proof.
  intros (mx & ex & -> & Hdx & Hex) (my & ey & -> & Hdy & Hey) Hlo Hhi.
  apply normal_bounds in Hdx, Hdy.
  unfold F32.mul, F32.prec, F32.emax. cbn [SFmul xorb].
  set (M := (mx * my)%positive).
  assert (HM : 2 ^ 46 <= Zpos M < 2 ^ 48).
  { unfold M. rewrite Pos2Z.inj_mul.
    change (2 ^ 46) with (2 ^ 23 * 2 ^ 23). change (2 ^ 48) with (2 ^ 24 * 2 ^ 24). nia. }
  assert (Hd : digits M = 47 \/ digits M = 48).
  { destruct (Z_lt_le_dec (Zpos M) (2 ^ 47)).
    - left. apply digits_unique. change (47 - 1) with 46. lia.
    - right. apply digits_unique. change (48 - 1) with 47. lia. }
  set (E := ex + ey).
  assert (Hk : fexp 24 128 (digits M + E) - E = digits M - 24) by (rewrite fexp32; lia).
  rewrite binary_round_aux_shift by lia. rewrite Hk.
  set (k := digits M - 24) in *.
  assert (Hq : 2 ^ 23 <= Zpos M / 2 ^ k < 2 ^ 24).
  { pose proof (digits_bounds M) as HdM. split.
    - apply Z.div_le_lower_bound; [apply Z.pow_pos_nonneg; lia|].
      rewrite <- Z.pow_add_r by lia. replace (k + 23) with (digits M - 1) by lia. lia.
    - replace 24 with (digits M - k) by lia. apply div_pow2_lt; lia. }
  pose proof (round_shift_bounds (Zpos M) k ltac:(lia) ltac:(lia)) as Hm1.
  set (m1 := round_shift (Zpos M) k) in *.
  destruct (Z.eqb_spec m1 (2 ^ 24)) as [Heq|Hne].
  - change (2 ^ 23) with (Zpos (2 ^ 23)). rewrite mk_float_finite by lia.
    exists (2 ^ 23)%positive, (E + k + 1). split; [reflexivity|].
    split; [reflexivity|lia].
  - destruct m1 as [|p1|p1] eqn:Em1; try lia.
    rewrite mk_float_finite by lia.
    exists p1, (E + k). split; [reflexivity|]. split; [|lia].
    apply digits_unique. change (24 - 1) with 23. lia.
Qed.

Lemma digits_mul (mx my : positive) :
  digits mx + digits my - 1 <= digits (mx * my) <= digits mx + digits my.
Proof.
  pose proof (digits_bounds mx) as Hdx. pose proof (digits_bounds my) as Hdy.
  pose proof (digits_pos mx) as Hpx. pose proof (digits_pos my) as Hpy.
  pose proof (digits_bounds (mx * my)) as HdM. pose proof (digits_pos (mx * my)) as HpM.
  rewrite Pos2Z.inj_mul in HdM. split.
  - destruct (Z_lt_le_dec (digits (mx * my)) (digits mx + digits my - 1)) as [Hlt|]; [|lia].
    assert (2 ^ digits (mx * my) <= 2 ^ (digits mx - 1 + (digits my - 1)))
      by (apply Z.pow_le_mono_r; lia).
    rewrite Z.pow_add_r in H by lia. nia.
  - destruct (Z_lt_le_dec (digits mx + digits my) (digits (mx * my))) as [Hlt|]; [|lia].
    assert (2 ^ (digits mx + digits my) <= 2 ^ (digits (mx * my) - 1))
      by (apply Z.pow_le_mono_r; lia).
    rewrite Z.pow_add_r in H by lia. nia.
Qed.

(** The product of two valid values of bounded magnitude is a valid value,
    possibly zero after underflow. *)
Lemma mul_mag (hx hy h : Z) (x y : float) :
  mag_in hx x -> mag_in hy y ->
  hx + hy + 25 <= h -> -148 <= h -> h <= 104 ->
  mag_in h (x * y)%f32.
Proof.
  destruct x as [sx|sx| |sx mx ex], y as [sy|sy| |sy my ey]; try contradiction;
    try (intros; exact I).
  intros [Hbx Hex] [Hby Hey] Hh Hlo Hhi.
  apply bounded_iff in Hbx, Hby.
  pose proof (digits_pos mx) as Hpx. pose proof (digits_pos my) as Hpy.
  pose proof (digits_mul mx my) as [Hlow Hupp].
  unfold F32.mul, F32.prec, F32.emax. cbn [SFmul].
  set (s := xorb sx sy).
  set (M := (mx * my)%positive) in *.
  set (E := ex + ey).
  pose proof (digits_bounds M) as HdM. pose proof (digits_pos M) as HpM.
  set (t := fexp 24 128 (digits M + E)).
  assert (Ht : t = Z.max (digits M + E - 24) (-149)) by (unfold t; apply fexp32).
  assert (Hk0 : 0 <= t - E) by lia.
  destruct (Z.eq_dec (t - E) 0) as [Hz|Hnz].
  - rewrite binary_round_aux_end by (fold t; lia).
    rewrite mk_float_finite by lia.
    split; [|lia]. apply bounded_iff. lia.
  - assert (Hk : 0 < fexp 24 128 (digits M + E) - E) by (fold t; lia).
    rewrite (binary_round_aux_shift s M E Hk). fold t.
    set (k := t - E) in *.
    assert (Hq : 0 <= Zpos M / 2 ^ k < 2 ^ 24).
    { split; [apply Z.div_pos; [lia|apply Z.pow_pos_nonneg; lia]|].
      destruct (Z_lt_le_dec (digits M) k) as [Hlt|Hge].
      - rewrite Z.div_small; [simpl; lia|]. split; [lia|].
        apply Z.lt_le_trans with (2 ^ digits M); [lia|]. apply Z.pow_le_mono_r; lia.
      - apply Z.lt_le_trans with (2 ^ (digits M - k)).
        + apply div_pow2_lt; lia.
        + apply Z.pow_le_mono_r; lia. }
    pose proof (round_shift_bounds (Zpos M) k ltac:(lia) ltac:(lia)) as Hm1.
    set (m1 := round_shift (Zpos M) k) in *.
    replace (E + k) with t by lia.
    destruct (Z.eqb_spec m1 (2 ^ 24)) as [Heq|Hne].
    + change (2 ^ 23) with (Zpos (2 ^ 23)). rewrite mk_float_finite by lia.
      split; [|lia]. apply bounded_iff. change (digits (2 ^ 23)) with 24. lia.
    + destruct m1 as [|p1|p1] eqn:Em1; try lia.
      * exact I.
      * rewrite mk_float_finite by lia.
        split; [|lia].
        apply bounded_iff. split; [lia|].
        destruct (Z.eq_dec t (-149)) as [Hm|Hm].
        -- pose proof (digits_bounds p1) as Hb1.
           destruct (Z_lt_le_dec (digits p1) 24) as [|Hge]; [right; lia|left].
           split; [|lia].
           destruct (Z_lt_le_dec 24 (digits p1)) as [Hgt|]; [|lia].
           assert (2 ^ 24 <= 2 ^ (digits p1 - 1)) by (apply Z.pow_le_mono_r; lia). lia.
        -- left. split; [|lia]. apply digits_unique. change (24 - 1) with 23.
           split; [|lia].
           apply Z.le_trans with (Zpos M / 2 ^ k); [|lia].
           apply Z.div_le_lower_bound; [apply Z.pow_pos_nonneg; lia|].
           rewrite <- Z.pow_add_r by lia.
           replace (k + 23) with (digits M - 1) by lia. lia.
Qed.

(** A product so small that it is below half the least positive [float] is
    a zero. *)
Lemma mul_underflow (hx hy : Z) (x y : float) :
  small_in hx x -> small_in hy y -> hx + hy <= -198 -> (x * y)%f32 = 0%f32.
Proof.
  intros [Hx Hsx] [Hy Hsy] Hh.
  destruct x as [[|]|[|]| |[|] mx ex]; try discriminate; try contradiction;
    destruct y as [[|]|[|]| |[|] my ey]; try discriminate; try contradiction;
    try reflexivity.
  destruct Hx as [Hbx Hex], Hy as [Hby Hey].
  apply bounded_iff in Hbx, Hby.
  pose proof (digits_mul mx my) as [Hlow Hupp].
  pose proof (digits_pos (mx * my)) as HpM. pose proof (digits_bounds (mx * my)) as HdM.
  unfold F32.mul, F32.prec, F32.emax. cbn [SFmul xorb].
  set (M := (mx * my)%positive) in *. set (E := ex + ey).
  assert (Hk : fexp 24 128 (digits M + E) - E = -149 - E) by (rewrite fexp32; lia).
  rewrite binary_round_aux_shift by lia. rewrite Hk.
  set (k := -149 - E) in *.
  assert (HMk : Zpos M < 2 ^ (k - 1)).
  { apply Z.lt_le_trans with (2 ^ digits M); [lia|]. apply Z.pow_le_mono_r; lia. }
  assert (Hkk : 2 ^ k = 2 * 2 ^ (k - 1)).
  { replace k with (1 + (k - 1)) at 1 by lia. rewrite Z.pow_add_r by lia. reflexivity. }
  assert (Hrs : round_shift (Zpos M) k = 0).
  { unfold round_shift. rewrite Z.div_small, Z.mod_small by lia.
    destruct (Z.ltb_spec (2 ^ (k - 1)) (Zpos M)); [lia|].
    destruct (Z.eqb_spec (Zpos M) (2 ^ (k - 1))); [lia|]. reflexivity. }
  rewrite Hrs. reflexivity.
Qed.

(** ** Signs: a computation on positive values yields no negative value and
    no NaN *)

Lemma shr_1_sign (mrs : shr_record) : 0 <= shr_m mrs -> 0 <= shr_m (shr_1 mrs).
Proof. destruct mrs as [[|[p|p|]|p] r s]; cbn; lia. Qed.

Lemma shr_sign (mrs : shr_record) (e n : Z) :
  0 <= shr_m mrs -> 0 <= shr_m (fst (shr mrs e n)).
Proof.
  intros Hm. unfold shr. destruct n as [|p|p]; cbn [fst]; try exact Hm.
  rewrite iter_pos_nat. induction (Pos.to_nat p) as [|k IH]; [exact Hm|].
  cbn [Nat.iter]. apply shr_1_sign, IH.
Qed.

Lemma round_nearest_even_sign (m : Z) (l : location) :
  0 <= m -> 0 <= round_nearest_even m l.
Proof. intros Hm. destruct l as [|[| |]]; cbn; try destruct (Z.even m); lia. Qed.

Section Signs.
Variables prec emax : Z.

Lemma shr_fexp_sign (m e : Z) (l : location) :
  0 <= m -> 0 <= shr_m (fst (shr_fexp prec emax m e l)).
Proof.
  intros Hm. unfold shr_fexp. apply shr_sign. destruct l as [|[| |]]; exact Hm.
Qed.

Lemma round_aux_sign (m e : Z) (l : location) :
  0 <= m -> is_nonneg (binary_round_aux prec emax false m e l) = true.
Proof.
  intros Hm. unfold binary_round_aux.
  pose proof (shr_fexp_sign m e l Hm) as H1.
  destruct (shr_fexp prec emax m e l) as [mrs' e']. cbn [fst] in H1.
  pose proof (shr_fexp_sign _ e' loc_Exact
                (round_nearest_even_sign _ (loc_of_shr_record mrs') H1)) as H2.
  destruct (shr_fexp prec emax _ e' loc_Exact) as [mrs'' e'']. cbn [fst] in H2.
  destruct (shr_m mrs'') as [|p|p]; [reflexivity| |lia].
  destruct (e'' <=? emax - prec); reflexivity.
Qed.

Lemma round_sign (m : positive) (e : Z) :
  is_nonneg (binary_round prec emax false m e) = true.
Proof.
  unfold binary_round. destruct (shl_align m e _) as [mz ez]. apply round_aux_sign. lia.
Qed.

Lemma SFmul_sign_l (m : positive) (e : Z) (y : spec_float) :
  is_nonneg y = true -> is_nonneg (SFmul prec emax (S754_finite false m e) y) = true.
Proof.
  destruct y as [[|]|[|]| |[|] my ey]; try discriminate; intros _; try reflexivity.
  cbn [SFmul xorb]. apply round_aux_sign. lia.
Qed.

Lemma SFmul_sign_sqr (y : spec_float) :
  is_nonneg y = true -> is_nonneg (SFmul prec emax y y) = true.
Proof.
  destruct y as [[|]|[|]| |[|] my ey]; try discriminate; intros _; try reflexivity.
  cbn [SFmul xorb]. apply round_aux_sign. lia.
Qed.

Lemma SFadd_sign (x y : spec_float) :
  is_nonneg x = true -> is_nonneg y = true -> is_nonneg (SFadd prec emax x y) = true.
Proof.
  destruct x as [[|]|[|]| |[|] mx ex]; try discriminate;
    destruct y as [[|]|[|]| |[|] my ey]; try discriminate; intros _ _; try reflexivity.
  cbn [SFadd cond_Zopp binary_normalize Z.add]. apply round_sign.
Qed.

Lemma SFldexp_sign (x : spec_float) :
  is_nonneg x = true -> is_nonneg (SFldexp prec emax x 0) = true.
Proof.
  destruct x as [[|]|[|]| |[|] mx ex]; try discriminate; intros _; try reflexivity.
  cbn [SFldexp]. apply round_sign.
Qed.

End Signs.

Lemma mul_small (hx hy h : Z) (x y : float) :
  small_in hx x -> small_in hy y ->
  hx + hy + 25 <= h -> -148 <= h -> h <= 104 ->
  small_in h (x * y)%f32.
Proof.
  intros [Hx Hsx] [Hy Hsy] Hh Hlo Hhi. split.
  - exact (mul_mag hx hy h x y Hx Hy Hh Hlo Hhi).
  - destruct x as [[|]|[|]| |[|] mx ex]; try discriminate; try contradiction.
    + destruct y as [[|]|[|]| |[|] my ey]; try discriminate; try contradiction; reflexivity.
    + apply SFmul_sign_l, Hsy.
Qed.

(** ** Values and exponents *)

Lemma mag_weaken (h h' : Z) (x : float) : h <= h' -> mag_in h x -> mag_in h' x.
Proof. intros Hh. destruct x as [s|s| |s m e]; cbn; try tauto. intros [? ?]. split; [assumption|lia]. Qed.

Lemma mag_fin (h : Z) (x : float) : mag_in h x -> fin x.
Proof. destruct x as [s|s| |s m e]; cbn; tauto. Qed.

Lemma mag_value (h : Z) (x : float) :
  -149 <= h -> mag_in h x -> Z.abs (B2Z x) < 2 ^ (h + 173).
Proof.
  intros Hh Hx.
  assert (H0 : 0 < 2 ^ (h + 173)) by (apply Z.pow_pos_nonneg; lia).
  destruct x as [s|s| |s m e]; try contradiction; [exact H0|].
  destruct Hx as [Hb He]. apply bounded_iff in Hb.
  pose proof (digits_bounds m) as Hd. pose proof (digits_pos m) as Hp.
  assert (Hm : Zpos m < 2 ^ 24).
  { apply Z.lt_le_trans with (2 ^ digits m); [lia|]. apply Z.pow_le_mono_r; lia. }
  assert (H2 : 2 ^ (e + 149) <= 2 ^ (h + 149)) by (apply Z.pow_le_mono_r; lia).
  assert (H1 : 0 < 2 ^ (e + 149)) by (apply Z.pow_pos_nonneg; lia).
  replace (h + 173) with (24 + (h + 149)) by lia.
  rewrite (Z.pow_add_r 2 24 (h + 149)) by lia.
  destruct s; cbn [B2Z cond_Zopp]; nia.
Qed.

Lemma value_mag (h : Z) (x : float) :
  -149 <= h -> fin x -> Z.abs (B2Z x) <= 2 ^ (h + 172) -> mag_in h x.
Proof.
  intros Hh Hfin Hv. destruct x as [s|s| |s m e]; try contradiction; [exact I|].
  split; [exact Hfin|].
  pose proof Hfin as Hb. apply bounded_iff in Hb.
  pose proof (digits_bounds m) as Hd.
  destruct (Z_lt_le_dec h e) as [Hlt|]; [exfalso|lia].
  assert (Hd24 : digits m = 24) by lia. rewrite Hd24 in Hd. change (24 - 1) with 23 in Hd.
  assert (H : 2 ^ (h + 172) < 2 ^ (23 + (e + 149))) by (apply Z.pow_lt_mono_r; lia).
  rewrite (Z.pow_add_r 2 23 (e + 149)) in H by lia.
  assert (H1 : 0 < 2 ^ (e + 149)) by (apply Z.pow_pos_nonneg; lia).
  destruct s; cbn [B2Z cond_Zopp] in Hv; nia.
Qed.

Lemma RZ_pow2 (k : Z) : 0 <= k -> RZ (2 ^ k) = 2 ^ k.
Proof.
  intros Hk. assert (Hp : 0 < 2 ^ k) by (apply Z.pow_pos_nonneg; lia).
  rewrite RZ_pos by exact Hp.
  apply (RNz_exact (2 ^ k) 1 k); [lia|lia|lia|]. rewrite Z.log2_pow2 by lia. lia.
Qed.

Lemma RZ_bound (D k : Z) : 0 <= k -> Z.abs D <= 2 ^ k -> Z.abs (RZ D) <= 2 ^ k.
Proof.
  intros Hk HD.
  assert (H1 : RZ D <= 2 ^ k) by (rewrite <- (RZ_pow2 k Hk); apply RZ_mono; lia).
  assert (H2 : - 2 ^ k <= RZ D)
    by (rewrite <- (RZ_pow2 k Hk), <- RZ_opp; apply RZ_mono; lia).
  lia.
Qed.

Lemma pow2_double (k : Z) : 0 <= k -> 2 ^ (k + 1) = 2 * 2 ^ k.
Proof. intros Hk. rewrite Z.pow_add_r by lia. change (2 ^ 1) with 2. ring. Qed.

(** Sums and differences of valid values of bounded magnitude. *)
Lemma add_sub_value (hx hy h : Z) (sx sy : bool) (mx my : positive) (ex ey : Z) :
  mag_in hx (S754_finite sx mx ex) -> mag_in hy (S754_finite sy my ey) ->
  -149 <= hx -> -149 <= hy -> hx + 2 <= h -> hy + 2 <= h -> h <= 27 ->
  let X := B2Z (S754_finite sx mx ex) in
  let Y := B2Z (S754_finite sy my ey) in
  Z.abs (X + Y) <= 2 ^ (h + 172) /\ Z.abs (X - Y) <= 2 ^ (h + 172)
  /\ Z.abs (X + Y) < 2 ^ 200 /\ Z.abs (X - Y) < 2 ^ 200.
Proof.
  intros Hx Hy Hlx Hly Hhx Hhy Hh X Y.
  pose proof (mag_value hx _ Hlx Hx) as HX. pose proof (mag_value hy _ Hly Hy) as HY.
  fold X in HX. fold Y in HY.
  assert (H1 : 2 ^ (hx + 173) <= 2 ^ (h + 171)) by (apply Z.pow_le_mono_r; lia).
  assert (H2 : 2 ^ (hy + 173) <= 2 ^ (h + 171)) by (apply Z.pow_le_mono_r; lia).
  pose proof (pow2_double (h + 171) ltac:(lia)) as H3.
  replace (h + 171 + 1) with (h + 172) in H3 by lia.
  assert (H4 : 2 ^ (h + 172) < 2 ^ 200) by (apply Z.pow_lt_mono_r; lia).
  lia.
Qed.

Lemma add_mag (hx hy h : Z) (x y : float) :
  mag_in hx x -> mag_in hy y ->
  -149 <= hx -> -149 <= hy -> hx + 2 <= h -> hy + 2 <= h -> h <= 27 ->
  mag_in h (x + y)%f32.
Proof.
  intros Hx Hy Hlx Hly Hhx Hhy Hh.
  destruct x as [sx|sx| |sx mx ex]; try contradiction;
    destruct y as [sy|sy| |sy my ey]; try contradiction.
  - destruct sx, sy; exact I.
  - apply (mag_weaken hy); [lia|exact Hy].
  - apply (mag_weaken hx); [lia|exact Hx].
  - destruct (add_sub_value hx hy h sx sy mx my ex ey Hx Hy)
      as (Hs & _ & Ho & _); try lia.
    destruct (SFadd_spec sx sy mx my ex ey (proj1 Hx) (proj1 Hy)) as [Hfin Hval].
    { apply RZ_no_overflow. exact Ho. }
    apply value_mag; [lia|exact Hfin|]. rewrite Hval. apply RZ_bound; [lia|exact Hs].
Qed.

Lemma sub_mag (hx hy h : Z) (x y : float) :
  mag_in hx x -> mag_in hy y ->
  -149 <= hx -> -149 <= hy -> hx + 2 <= h -> hy + 2 <= h -> h <= 27 ->
  mag_in h (x - y)%f32.
Proof.
  intros Hx Hy Hlx Hly Hhx Hhy Hh.
  destruct x as [sx|sx| |sx mx ex]; try contradiction;
    destruct y as [sy|sy| |sy my ey]; try contradiction.
  - destruct sx, sy; exact I.
  - apply (mag_weaken hy); [lia|]. exact Hy.
  - apply (mag_weaken hx); [lia|exact Hx].
  - destruct (add_sub_value hx hy h sx sy mx my ex ey Hx Hy)
      as (_ & Hs & _ & Ho); try lia.
    destruct (SFsub_spec sx sy mx my ex ey (proj1 Hx) (proj1 Hy)) as [Hfin Hval].
    { apply RZ_no_overflow. exact Ho. }
    apply value_mag; [lia|exact Hfin|]. rewrite Hval. apply RZ_bound; [lia|exact Hs].
Qed.

(** ** Positive values: the polynomials of the constructor *)

Lemma normal_value (lo hi : Z) (m : positive) (e : Z) :
  digits m = 24 -> -149 <= lo -> lo <= e <= hi ->
  2 ^ (lo + 172) <= Zpos m * 2 ^ (e + 149) < 2 ^ (hi + 173).
Proof.
  intros Hd Hlo He. apply normal_bounds in Hd.
  assert (H1 : 2 ^ (lo + 149) <= 2 ^ (e + 149)) by (apply Z.pow_le_mono_r; lia).
  assert (H2 : 2 ^ (e + 149) <= 2 ^ (hi + 149)) by (apply Z.pow_le_mono_r; lia).
  assert (H0 : 0 < 2 ^ (lo + 149)) by (apply Z.pow_pos_nonneg; lia).
  replace (lo + 172) with (23 + (lo + 149)) by lia.
  replace (hi + 173) with (24 + (hi + 149)) by lia.
  rewrite (Z.pow_add_r 2 23 (lo + 149)), (Z.pow_add_r 2 24 (hi + 149)) by lia. nia.
Qed.

(** A valid value between [2^(lo+172)] and [2^(h+172)] units is a positive
    normal value with exponent in [lo, h]. *)
Lemma value_normal (lo h : Z) (x : float) :
  -149 <= lo -> fin x -> 2 ^ (lo + 172) <= B2Z x <= 2 ^ (h + 172) ->
  normal_in lo h x.
Proof.
  intros Hlo Hfin Hv.
  assert (H0 : 0 < 2 ^ (lo + 172)) by (apply Z.pow_pos_nonneg; lia).
  destruct (fin_nonzero x Hfin ltac:(lia)) as (s & m & e & -> & Hb).
  pose proof (Hb) as Hb'. apply bounded_iff in Hb'.
  pose proof (digits_bounds m) as Hd.
  assert (He0 : 0 < 2 ^ (e + 149)) by (apply Z.pow_pos_nonneg; lia).
  destruct s; cbn [B2Z cond_Zopp] in Hv; [lia|].
  assert (Hd24 : digits m = 24).
  { destruct Hb' as [_ [[? _]|[Hlt He]]]; [assumption|exfalso].
    subst e. change (2 ^ (-149 + 149)) with 1 in Hv.
    assert (Zpos m < 2 ^ 23).
    { apply Z.lt_le_trans with (2 ^ digits m); [lia|]. apply Z.pow_le_mono_r; lia. }
    assert (2 ^ 23 <= 2 ^ (lo + 172)) by (apply Z.pow_le_mono_r; lia). lia. }
  exists m, e. split; [reflexivity|]. split; [exact Hd24|].
  apply normal_bounds in Hd24.
  split.
  - destruct (Z_lt_le_dec e lo) as [Hlt|]; [exfalso|lia].
    assert (2 ^ (24 + (e + 149)) <= 2 ^ (lo + 172)) by (apply Z.pow_le_mono_r; lia).
    rewrite (Z.pow_add_r 2 24 (e + 149)) in H by lia. nia.
  - destruct (Z_lt_le_dec h e) as [Hlt|]; [exfalso|lia].
    assert (2 ^ (h + 172) < 2 ^ (23 + (e + 149))) by (apply Z.pow_lt_mono_r; lia).
    rewrite (Z.pow_add_r 2 23 (e + 149)) in H by lia. nia.
Qed.

(** The sum of a positive normal value and a valid non-negative value is a
    positive normal value, no smaller than the first. *)
Lemma add_normal (lo hi hy h : Z) (x y : float) :
  normal_in lo hi x -> small_in hy y ->
  -149 <= lo -> -149 <= hy -> hi + 2 <= h -> hy + 2 <= h -> h <= 27 ->
  normal_in lo h (x + y)%f32.
Proof.
  intros (mx & ex & -> & Hdx & Hex) [Hy Hsy] Hlo Hly Hhi Hhy Hh.
  pose proof (normal_value lo hi mx ex Hdx Hlo Hex) as Hvx.
  assert (Hbx : bounded 24 128 mx ex = true) by (apply bounded_iff; lia).
  destruct y as [[|]|[|]| |[|] my ey]; try discriminate; try contradiction.
  - exists mx, ex. split; [reflexivity|]. split; [assumption|lia].
  - destruct Hy as [Hby Hey].
    assert (Hmx : mag_in hi (S754_finite false mx ex)) by (split; [exact Hbx|lia]).
    assert (Hmy : mag_in hy (S754_finite false my ey)) by (split; [exact Hby|lia]).
    destruct (add_sub_value hi hy h false false mx my ex ey Hmx Hmy)
      as (Hs & _ & Ho & _); try lia.
    pose proof (B2Z_sign false my ey ltac:(apply bounded_iff in Hby; lia)) as HY.
    destruct (SFadd_spec false false mx my ex ey Hbx Hby) as [Hfin Hval].
    { apply RZ_no_overflow. exact Ho. }
    cbv beta iota in HY.
    apply value_normal; [exact Hlo|exact Hfin|]. rewrite Hval.
    set (X := B2Z (S754_finite false mx ex)) in *.
    set (Y := B2Z (S754_finite false my ey)) in *.
    assert (HX : X = Zpos mx * 2 ^ (ex + 149)) by reflexivity.
    split.
    + apply Z.le_trans with (RZ X); [|apply RZ_mono; lia].
      unfold X. rewrite (RZ_B2Z (S754_finite false mx ex) Hbx). fold X. lia.
    + pose proof (RZ_bound (X + Y) (h + 172) ltac:(lia) Hs). lia.
Qed.

(** [Pow<n>] of a value below 2 cannot overflow. *)
Lemma Pow_small (x : float) (n : nat) :
  small_in (-23) x -> (n < 60)%nat ->
  small_in (2 * Z.of_nat n - 23) (Pow (S n) x).
Proof.
  intros Hx. induction n as [|n IH]; intros Hn.
  - exact Hx.
  - change (Pow (S (S n)) x) with (x * Pow (S n) x)%f32.
    apply (mul_small (-23) (2 * Z.of_nat n - 23)); [exact Hx|apply IH; lia|lia|lia|lia].
Qed.

(** The variance of lobe 1 is exactly a quarter of that of lobe 0, as long
    as the latter is normal and at least [2^-124]. *)
Lemma quarter_exact (m : positive) (e : Z) :
  digits m = 24 -> -147 <= e <= 104 ->
  quarter (S754_finite false m e) = S754_finite false m (e - 2).
Proof.
  intros Hd He. unfold quarter, F64.of_float, F32.of_double, F64.mul.
  unfold F64.prec, F64.emax, F32.prec, F32.emax.
  change (F64.lit 25 100) with (S754_finite false 4503599627370496 (-54)).
  cbn [SFldexp]. rewrite Z.add_0_r.
  (* promotion: the mantissa is shifted left by 29 bits *)
  destruct (binary_round_short 53 1024 false m e) as (p & Hp & ->);
    [rewrite Hd, fexp_at; lia|].
  rewrite Hd, fexp_at in Hp |- *.
  replace (Z.max (24 + e - 53) (3 - 1024 - 53)) with (e - 29) in * by lia.
  replace (e - (e - 29)) with 29 in Hp by lia.
  assert (Hdp : digits p = 53)
    by (rewrite (digits_scale m p 29) by (lia || exact Hp); lia).
  rewrite round_aux_end_at by (rewrite ?Hdp, ?fexp_at; lia).
  unfold mk_float_at at 1.
  replace (e - 29 <=? 1024 - 53) with true by (symmetry; apply Z.leb_le; lia).
  (* the product with 2^-2 is exact *)
  cbn [SFmul xorb].
  set (M := (4503599627370496 * p)%positive).
  assert (HM : Zpos M = Zpos p * 2 ^ 52) by (unfold M; rewrite Pos2Z.inj_mul; lia).
  assert (HdM : digits M = 105)
    by (rewrite (digits_scale p M 52) by (lia || exact HM); lia).
  assert (Hk : fexp 53 1024 (digits M + (-54 + (e - 29))) - (-54 + (e - 29)) = 52)
    by (rewrite HdM, fexp_at; lia).
  rewrite round_aux_shift_at by lia. rewrite Hk.
  rewrite HM, round_shift_multiple by lia.
  pose proof (digits_bounds p) as Hbp. rewrite Hdp in Hbp.
  destruct (Z.eqb_spec (Zpos p) (2 ^ 53)) as [Heq|_]; [lia|].
  unfold mk_float_at.
  replace (-54 + (e - 29) + 52 <=? 1024 - 53) with true by (symmetry; apply Z.leb_le; lia).
  (* storing to float: the 29 low bits are zero *)
  cbn [SFldexp]. rewrite Z.add_0_r.
  rewrite binary_round_long by (rewrite Hdp, fexp32; lia).
  assert (Hk2 : fexp 24 128 (digits p + (-54 + (e - 29) + 52)) - (-54 + (e - 29) + 52) = 29)
    by (rewrite Hdp, fexp32; lia).
  rewrite binary_round_aux_shift by lia. rewrite Hk2.
  rewrite Hp, round_shift_multiple by lia.
  apply normal_bounds in Hd.
  destruct (Z.eqb_spec (Zpos m) (2 ^ 24)) as [Heq|_]; [lia|].
  rewrite mk_float_finite by lia. f_equal. lia.
Qed.

(** The product by 4 is exact as long as it does not overflow. *)
Lemma four_exact (m : positive) (e : Z) :
  digits m = 24 -> -149 <= e <= 102 ->
  (4 * S754_finite false m e)%f32 = S754_finite false m (e + 2).
Proof.
  intros Hd He.
  change 4%f32 with (S754_finite false 8388608 (-21)).
  unfold F32.mul, F32.prec, F32.emax. cbn [SFmul xorb].
  set (M := (8388608 * m)%positive).
  assert (HM : Zpos M = Zpos m * 2 ^ 23) by (unfold M; rewrite Pos2Z.inj_mul; lia).
  assert (HdM : digits M = 47)
    by (rewrite (digits_scale m M 23) by (lia || exact HM); lia).
  assert (Hk : fexp 24 128 (digits M + (-21 + e)) - (-21 + e) = 23)
    by (rewrite HdM, fexp32; lia).
  rewrite binary_round_aux_shift by lia. rewrite Hk.
  rewrite HM, round_shift_multiple by lia.
  apply normal_bounds in Hd.
  destruct (Z.eqb_spec (Zpos m) (2 ^ 24)) as [Heq|_]; [lia|].
  rewrite mk_float_finite by lia. f_equal. lia.
Qed.

Lemma value_mag_lt (h : Z) (x : float) :
  -149 <= h -> fin x -> Z.abs (B2Z x) < 2 ^ (h + 173) -> mag_in h x.
Proof.
  intros Hh Hfin Hv. destruct x as [s|s| |s m e]; try contradiction; [exact I|].
  split; [exact Hfin|].
  pose proof Hfin as Hb. apply bounded_iff in Hb.
  pose proof (digits_bounds m) as Hd.
  destruct (Z_lt_le_dec h e) as [Hlt|]; [exfalso|lia].
  assert (Hd24 : digits m = 24) by lia. rewrite Hd24 in Hd. change (24 - 1) with 23 in Hd.
  assert (H : 2 ^ (h + 173) <= 2 ^ (23 + (e + 149))) by (apply Z.pow_le_mono_r; lia).
  rewrite (Z.pow_add_r 2 23 (e + 149)) in H by lia.
  assert (H1 : 0 < 2 ^ (e + 149)) by (apply Z.pow_pos_nonneg; lia).
  destruct s; cbn [B2Z cond_Zopp] in Hv; nia.
Qed.

(** A valid roughness between [2^-60] and 1 is a normal value. *)
Lemma roughness_normal (r : float) :
  valid r -> (MIN_ROUGHNESS <=? r)%f32 = true -> (r <=? 1)%f32 = true ->
  normal_in (-83) (-23) r.
Proof.
  intros Hv Hlo Hhi.
  destruct r as [s|s| |s m e]; try (destruct s; discriminate); try discriminate.
  assert (Hfin : fin (S754_finite s m e)) by exact Hv.
  assert (Hmin : fin MIN_ROUGHNESS) by reflexivity.
  assert (Hone : fin 1%f32) by reflexivity.
  unfold F32.leb, SFleb in Hlo, Hhi.
  rewrite (compare_spec _ _ Hmin Hfin) in Hlo.
  rewrite (compare_spec _ _ Hfin Hone) in Hhi.
  change (B2Z MIN_ROUGHNESS) with (2 ^ (-83 + 172)) in Hlo.
  change (B2Z 1%f32) with (2 ^ (-23 + 172)) in Hhi.
  apply value_normal; [lia|exact Hfin|]. split.
  - destruct (Z.compare_spec (2 ^ (-83 + 172)) (B2Z (S754_finite s m e)));
      try discriminate; lia.
  - destruct (Z.compare_spec (B2Z (S754_finite s m e)) (2 ^ (-23 + 172)));
      try discriminate; lia.
Qed.

(** A valid positive roughness below [2^-78] has exponent at most -102. *)
Lemma roughness_tiny (r : float) :
  valid r -> (0 <? r)%f32 = true -> (r <? UNDERFLOW_ROUGHNESS)%f32 = true ->
  exists m e, r = S754_finite false m e /\ small_in (-102) r.
Proof.
  intros Hv Hlo Hhi.
  destruct r as [s|s| |s m e]; try (destruct s; discriminate); try discriminate.
  assert (Hfin : fin (S754_finite s m e)) by exact Hv.
  assert (Hzero : fin 0%f32) by exact I.
  assert (Hund : fin UNDERFLOW_ROUGHNESS) by reflexivity.
  unfold F32.ltb, SFltb in Hlo, Hhi.
  rewrite (compare_spec _ _ Hzero Hfin) in Hlo.
  rewrite (compare_spec _ _ Hfin Hund) in Hhi.
  change (B2Z 0%f32) with 0 in Hlo.
  change (B2Z UNDERFLOW_ROUGHNESS) with (2 ^ (-102 + 173)) in Hhi.
  destruct (Z.compare_spec 0 (B2Z (S754_finite s m e))) as [|Hpos|]; try discriminate.
  destruct (Z.compare_spec (B2Z (S754_finite s m e)) (2 ^ (-102 + 173))) as [|Hlt|];
    try discriminate.
  assert (Hs : s = false).
  { destruct s; [|reflexivity]. exfalso.
    pose proof (B2Z_sign true m e ltac:(apply bounded_iff in Hfin; lia)) as Hn.
    cbv beta iota in Hn. lia. }
  subst s. exists m, e. split; [reflexivity|]. split; [|reflexivity].
  apply value_mag_lt; [lia|exact Hfin|lia].
Qed.

(** The four variances, as the constructor fills them. *)
Lemma m_v_list `{E : Extern} (absorption : Spectrum) (lRoughness aRoughness ior : float) :
  Hair.m_v (Hair.Hair absorption lRoughness aRoughness ior)
  = let v := SQR (F32.lit 726 1000 * lRoughness + F32.lit 812 1000 * SQR lRoughness
                  + F32.lit 37 10 * Pow 20 lRoughness)%f32 in
    [v; quarter v; (4 * v)%f32; (4 * v)%f32].
Proof. reflexivity. Qed.

(** For a roughness between [2^-60] and 1 the variance of lobe 0 is a normal
    value, at least [2^-122]. *)
Lemma variance_normal (r : float) :
  normal_in (-83) (-23) r ->
  normal_in (-145) 65
    (SQR (F32.lit 726 1000 * r + F32.lit 812 1000 * SQR r + F32.lit 37 10 * Pow 20 r)%f32).
Proof.
  intros Hr.
  assert (Hc1 : normal_in (-24) (-24) (F32.lit 726 1000))
    by (apply (normal_literal _ 12180259); reflexivity).
  assert (Hc2 : normal_in (-24) (-24) (F32.lit 812 1000))
    by (apply (normal_literal _ 13623099); reflexivity).
  assert (Hc3 : normal_in (-22) (-22) (F32.lit 37 10))
    by (apply (normal_literal _ 15518925); reflexivity).
  pose proof (mul_normal _ _ _ _ _ _ Hc1 Hr ltac:(lia) ltac:(lia)) as Ht1.
  pose proof (mul_normal _ _ _ _ _ _ Hr Hr ltac:(lia) ltac:(lia)) as Hsq.
  pose proof (mul_normal _ _ _ _ _ _ Hc2 Hsq ltac:(lia) ltac:(lia)) as Ht2.
  pose proof (Pow_small r 19 (normal_small (-83) (-23) r ltac:(lia) ltac:(lia) Hr)
                ltac:(lia)) as Hpw.
  pose proof (mul_small (-22) _ 18 _ _ (normal_small (-22) (-22) _ ltac:(lia) ltac:(lia) Hc3)
                Hpw ltac:(lia) ltac:(lia) ltac:(lia)) as Ht3.
  pose proof (add_normal _ _ _ (-18) _ _ Ht1
                (normal_small (-144) (-20) _ ltac:(lia) ltac:(lia) Ht2)
                ltac:(lia) ltac:(lia) ltac:(lia) ltac:(lia) ltac:(lia)) as Hs12.
  pose proof (add_normal _ _ _ 20 _ _ Hs12 Ht3
                ltac:(lia) ltac:(lia) ltac:(lia) ltac:(lia) ltac:(lia)) as Hs.
  exact (mul_normal _ _ _ _ _ _ Hs Hs ltac:(lia) ltac:(lia)).
Qed.

(** [Pow<n>], [n >= 2], of a value whose square underflows is zero. *)
Lemma Pow_underflow (m : positive) (e : Z) (n : nat) :
  (S754_finite false m e * S754_finite false m e)%f32 = 0%f32 ->
  Pow (S (S n)) (S754_finite false m e) = 0%f32.
Proof.
  intros Hsq. induction n as [|n IH]; [exact Hsq|].
  change (Pow (S (S (S n))) (S754_finite false m e))
    with (S754_finite false m e * Pow (S (S n)) (S754_finite false m e))%f32.
  rewrite IH. reflexivity.
Qed.

Lemma add_zero_r (x : float) : small_in (-101) x -> (x + 0)%f32 = x.
Proof.
  intros [Hm Hs]. destruct x as [[|]|[|]| |[|] m e]; try discriminate; try contradiction;
    reflexivity.
Qed.

(** Below [2^-78] the variance of lobe 0 is zero. *)
Lemma variance_underflow (r : float) :
  (exists m e, r = S754_finite false m e /\ small_in (-102) r) ->
  SQR (F32.lit 726 1000 * r + F32.lit 812 1000 * SQR r + F32.lit 37 10 * Pow 20 r)%f32
  = 0%f32.
Proof.
  intros (m & e & -> & Hr).
  assert (Hc1 : small_in (-24) (F32.lit 726 1000))
    by (apply (normal_small (-24) (-24)); [lia|lia|];
        apply (normal_literal _ 12180259); reflexivity).
  pose proof (mul_small (-24) (-102) (-101) _ _ Hc1 Hr ltac:(lia) ltac:(lia) ltac:(lia))
    as Ht1.
  assert (Hsq : (S754_finite false m e * S754_finite false m e)%f32 = 0%f32)
    by (apply (mul_underflow (-102) (-102)); [exact Hr|exact Hr|lia]).
  unfold SQR at 2. rewrite Hsq, (Pow_underflow m e 18 Hsq).
  change (F32.lit 812 1000 * 0)%f32 with 0%f32.
  change (F32.lit 37 10 * 0)%f32 with 0%f32.
  rewrite (add_zero_r _ Ht1), (add_zero_r _ Ht1).
  apply (mul_underflow (-101) (-101)); [exact Ht1|exact Ht1|lia].
Qed.

Lemma Pow_sign (m : positive) (e : Z) (n : nat) :
  is_nonneg (Pow (S n) (S754_finite false m e)) = true.
Proof.
  induction n as [|n IH]; [reflexivity|].
  change (Pow (S (S n)) (S754_finite false m e))
    with (S754_finite false m e * Pow (S n) (S754_finite false m e))%f32.
  apply SFmul_sign_l, IH.
Qed.

Lemma quarter_sign (v : float) : is_nonneg v = true -> is_nonneg (quarter v) = true.
Proof.
  intros Hv. unfold quarter, F32.of_double, F64.of_float, F64.mul.
  apply SFldexp_sign.
  change (F64.lit 25 100) with (S754_finite false 4503599627370496 (-54)).
  apply SFmul_sign_l, SFldexp_sign, Hv.
Qed.

Lemma variance_sign (m : positive) (e : Z) :
  let r := S754_finite false m e in
  is_nonneg (SQR (F32.lit 726 1000 * r + F32.lit 812 1000 * SQR r
                  + F32.lit 37 10 * Pow 20 r)%f32) = true.
Proof.
  intros r. apply SFmul_sign_sqr. apply SFadd_sign; [apply SFadd_sign|].
  - change (F32.lit 726 1000) with (S754_finite false 12180259 (-24)).
    apply SFmul_sign_l. reflexivity.
  - change (F32.lit 812 1000) with (S754_finite false 13623099 (-24)).
    apply SFmul_sign_l, SFmul_sign_sqr. reflexivity.
  - change (F32.lit 37 10) with (S754_finite false 15518925 (-22)).
    apply SFmul_sign_l, Pow_sign.
Qed.

(** ** The constructor [Hair::Hair] *)

(** X1.  For a valid longitudinal roughness between [2^-60] and 1 the four
    variances are positive normal values with one mantissa: that of lobe 1 is
    exactly a quarter of that of lobe 0, those of lobes 2 and 3 exactly four
    times it.  In particular they are finite and strictly positive. *)
Theorem variances_in_range (E : Extern) (absorption : Spectrum)
    (lRoughness aRoughness ior : float) :
  valid lRoughness ->
  (MIN_ROUGHNESS <=? lRoughness)%f32 = true -> (lRoughness <=? 1)%f32 = true ->
  let m_v := Hair.m_v (Hair.Hair absorption lRoughness aRoughness ior) in
  (exists m e,
     digits m = 24 /\ -145 <= e <= 65
     /\ m_v = [S754_finite false m e; S754_finite false m (e - 2);
               S754_finite false m (e + 2); S754_finite false m (e + 2)])
  /\ forall p, (p <= PMAX)%nat ->
       (0 <? m_v !!! p)%f32 = true /\ F32.is_finite (m_v !!! p) = true.
Proof.
  intros Hv Hlo Hhi m_v.
  destruct (variance_normal _ (roughness_normal _ Hv Hlo Hhi)) as (m & e & Hv0 & Hd & He).
  assert (Hlist : m_v = [S754_finite false m e; S754_finite false m (e - 2);
                         S754_finite false m (e + 2); S754_finite false m (e + 2)]).
  { unfold m_v. rewrite m_v_list. cbv zeta. rewrite Hv0.
    rewrite quarter_exact, four_exact by lia. reflexivity. }
  split; [exists m, e; split; [exact Hd|]; split; [exact He|exact Hlist]|].
  intros p Hp. rewrite Hlist. unfold PMAX in Hp.
  destruct p as [|[|[|[|p]]]]; [split; reflexivity ..|lia].
Qed.

Lemma variances_in_range_witness :
  let m_v := Hair.m_v (Hair.Hair (E := Ref.extern) (splat 0%f32) (F32.lit 3 10) (F32.lit 3 10)
                         (F32.lit 155 100)) in
  (exists m e,
     digits m = 24 /\ -145 <= e <= 65
     /\ m_v = [S754_finite false m e; S754_finite false m (e - 2);
               S754_finite false m (e + 2); S754_finite false m (e + 2)])
  /\ forall p, (p <= PMAX)%nat ->
       (0 <? m_v !!! p)%f32 = true /\ F32.is_finite (m_v !!! p) = true.
Proof.
  apply (variances_in_range Ref.extern (splat 0%f32) (F32.lit 3 10) (F32.lit 3 10)
           (F32.lit 155 100)); vm_compute; reflexivity.
Defined.

(** X2.  For every positive finite longitudinal roughness, in range or not,
    no variance is negative and none is NaN: each is [+0] (underflow), a
    positive finite value or [+infinity] (overflow). *)
Theorem variances_never_negative (E : Extern) (absorption : Spectrum)
    (lRoughness aRoughness ior : float) :
  F32.is_finite lRoughness = true -> (0 <? lRoughness)%f32 = true ->
  forall p, (p <= PMAX)%nat ->
    is_nonneg (Hair.m_v (Hair.Hair absorption lRoughness aRoughness ior) !!! p) = true.
Proof.
  intros Hfin Hpos p Hp.
  destruct lRoughness as [s|s| |[|] m e]; try discriminate.
  rewrite m_v_list. cbv zeta.
  pose proof (variance_sign m e) as H0. cbv zeta in H0.
  set (v := SQR _) in *. clearbody v.
  assert (H2 : is_nonneg (4 * v)%f32 = true).
  { change 4%f32 with (S754_finite false 8388608 (-21)). apply SFmul_sign_l, H0. }
  unfold PMAX in Hp.
  destruct p as [|[|[|[|p]]]]; try lia.
  - exact H0.
  - apply quarter_sign, H0.
  - exact H2.
  - exact H2.
Qed.

Lemma variances_never_negative_witness :
  is_nonneg (Hair.m_v (Hair.Hair (E := Ref.extern) (splat 0%f32)
                         (F32.lit 1000000000000 1) (F32.lit 3 10) (F32.lit 155 100))
             !!! 1%nat) = true.
Proof.
  apply (variances_never_negative Ref.extern (splat 0%f32) (F32.lit 1000000000000 1)
           (F32.lit 3 10) (F32.lit 155 100)); [vm_compute; reflexivity ..|unfold PMAX; lia].
Defined.

(** X3.  For every valid positive longitudinal roughness below [2^-78] the
    square of the polynomial underflows: all four variances are [+0]. *)
Theorem variances_underflow (E : Extern) (absorption : Spectrum)
    (lRoughness aRoughness ior : float) :
  valid lRoughness ->
  (0 <? lRoughness)%f32 = true -> (lRoughness <? UNDERFLOW_ROUGHNESS)%f32 = true ->
  Hair.m_v (Hair.Hair absorption lRoughness aRoughness ior) = [0%f32; 0%f32; 0%f32; 0%f32].
Proof.
  intros Hv Hlo Hhi. rewrite m_v_list. cbv zeta.
  rewrite (variance_underflow _ (roughness_tiny _ Hv Hlo Hhi)). reflexivity.
Qed.

Lemma variances_underflow_witness :
  Hair.m_v (Hair.Hair (E := Ref.extern) (splat 0%f32)
              (F32.lit 1 1000000000000000000000000000000) (F32.lit 3 10) (F32.lit 155 100))
  = [0%f32; 0%f32; 0%f32; 0%f32].
Proof.
  apply (variances_underflow Ref.extern (splat 0%f32)
           (F32.lit 1 1000000000000000000000000000000) (F32.lit 3 10) (F32.lit 155 100));
    vm_compute; reflexivity.
Defined.

(** X4.  Where the library sine is within one unit in the last place at the
    tilt angle [2/180], each of the three tilt pairs produced by the
    angle-doubling recurrence satisfies [|sin^2 + cos^2 - 1| <= 2^-22],
    whatever the other parameters. *)
Theorem tilt_pairs_unit (E : Extern) (absorption : Spectrum)
    (lRoughness aRoughness ior : float) :
  sin_alpha_accurate E ->
  let h := Hair.Hair absorption lRoughness aRoughness ior in
  length (Hair.m_sin2kAlpha h) = PMAX /\ length (Hair.m_cos2kAlpha h) = PMAX
  /\ forall i, (i < PMAX)%nat -> (tilt_error h i <=? TILT_TOLERANCE)%f32 = true.
Proof.
  intros (m & Hm & Hsin) h. split; [reflexivity|]. split; [reflexivity|].
  intros i Hi. unfold h, tilt_error, Hair.Hair. cbv zeta. rewrite Hsin.
  assert (Hcases : m = 11930219%positive \/ m = 11930220%positive \/ m = 11930221%positive)
    by lia.
  clear Hm Hsin. unfold PMAX in Hi.
  destruct i as [|[|[|i]]]; [| | |exfalso; lia];
    destruct Hcases as [->|[->| ->]]; vm_compute; reflexivity.
Qed.

Lemma tilt_pairs_unit_witness :
  (tilt_error scenario 0 <=? TILT_TOLERANCE)%f32 = true
  /\ (tilt_error scenario 1 <=? TILT_TOLERANCE)%f32 = true
  /\ (tilt_error scenario 2 <=? TILT_TOLERANCE)%f32 = true.
Proof.
  assert (Hsin : sin_alpha_accurate Ref.extern)
    by (exists 11930220%positive; split; [lia|vm_compute; reflexivity]).
  destruct (tilt_pairs_unit Ref.extern (splat 0%f32) (F32.lit 3 10) (F32.lit 3 10)
              (F32.lit 155 100) Hsin) as (_ & _ & H).
  unfold PMAX in H. repeat split; apply H; lia.
Defined.

(** X5.  For a valid azimuthal roughness between [2^-60] and 1 the logistic
    scale [m_scale] is finite and strictly positive. *)
Theorem scale_in_range (E : Extern) (absorption : Spectrum)
    (lRoughness aRoughness ior : float) :
  valid aRoughness ->
  (MIN_ROUGHNESS <=? aRoughness)%f32 = true -> (aRoughness <=? 1)%f32 = true ->
  let m_scale := Hair.m_scale (Hair.Hair absorption lRoughness aRoughness ior) in
  (0 <? m_scale)%f32 = true /\ F32.is_finite m_scale = true.
Proof.
  intros Hv Hlo Hhi m_scale.
  pose proof (roughness_normal _ Hv Hlo Hhi) as Hr.
  assert (Hc0 : normal_in (-24) (-24) (F32.lit 626657069 1000000000))
    by (apply (normal_literal _ 10513561); reflexivity).
  assert (Hc1 : normal_in (-25) (-25) (F32.lit 265 1000))
    by (apply (normal_literal _ 8891924); reflexivity).
  assert (Hc2 : normal_in (-23) (-23) (F32.lit 1194 1000))
    by (apply (normal_literal _ 10015998); reflexivity).
  assert (Hc3 : normal_in (-21) (-21) (F32.lit 5372 1000))
    by (apply (normal_literal _ 11265901); reflexivity).
  pose proof (mul_normal _ _ _ _ _ _ Hc1 Hr ltac:(lia) ltac:(lia)) as Ht1.
  pose proof (mul_normal _ _ _ _ _ _ Hr Hr ltac:(lia) ltac:(lia)) as Hsq.
  pose proof (mul_normal _ _ _ _ _ _ Hc2 Hsq ltac:(lia) ltac:(lia)) as Ht2.
  pose proof (Pow_small aRoughness 21
                (normal_small (-83) (-23) _ ltac:(lia) ltac:(lia) Hr) ltac:(lia)) as Hpw.
  pose proof (mul_small (-21) _ 23 _ _ (normal_small (-21) (-21) _ ltac:(lia) ltac:(lia) Hc3)
                Hpw ltac:(lia) ltac:(lia) ltac:(lia)) as Ht3.
  pose proof (add_normal _ _ _ (-17) _ _ Ht1
                (normal_small (-143) (-19) _ ltac:(lia) ltac:(lia) Ht2)
                ltac:(lia) ltac:(lia) ltac:(lia) ltac:(lia) ltac:(lia)) as Hs12.
  pose proof (add_normal _ _ _ 25 _ _ Hs12 Ht3
                ltac:(lia) ltac:(lia) ltac:(lia) ltac:(lia) ltac:(lia)) as Hs.
  exact (normal_positive _ _ _ (mul_normal _ _ _ _ _ _ Hc0 Hs ltac:(lia) ltac:(lia))).
Qed.

Lemma scale_in_range_witness :
  (0 <? Hair.m_scale scenario)%f32 = true /\ F32.is_finite (Hair.m_scale scenario) = true.
Proof.
  apply (scale_in_range Ref.extern (splat 0%f32) (F32.lit 3 10) (F32.lit 3 10)
           (F32.lit 155 100)); vm_compute; reflexivity.
Defined.

(** ** Comparisons *)

Lemma SFcompare_nan (a b : spec_float) :
  SFcompare a b = None <-> F32.is_nan a = true \/ F32.is_nan b = true.
Proof.
  destruct a as [sa|sa| |sa ma ea], b as [sb|sb| |sb mb eb]; cbn;
    try destruct sa; try destruct sb; split; intros H;
    try discriminate; try (destruct H; discriminate); tauto.
Qed.

Lemma SFleb_refl (a : spec_float) : F32.is_nan a = false -> SFleb a a = true.
Proof.
  intros Ha. unfold SFleb.
  destruct a as [s|s| |s m e]; try discriminate; cbn.
  - reflexivity.
  - destruct s; reflexivity.
  - rewrite Z.compare_refl, Pos.compare_cont_refl. destruct s; reflexivity.
Qed.

Lemma SFleb_not_nan (a b : spec_float) :
  SFleb a b = true -> F32.is_nan a = false /\ F32.is_nan b = false.
Proof.
  unfold SFleb. intros H.
  destruct a as [sa|sa| |sa ma ea], b as [sb|sb| |sb mb eb]; try discriminate H;
    split; reflexivity.
Qed.

Lemma SFltb_false_leb (a b : spec_float) :
  F32.is_nan a = false -> F32.is_nan b = false -> SFltb a b = false -> SFleb b a = true.
Proof.
  intros Ha Hb. unfold SFltb, SFleb. rewrite (SFcompare_antisym a b).
  destruct (SFcompare a b) as [[| |]|] eqn:Hc; cbn; try congruence.
  apply SFcompare_nan in Hc. destruct Hc; congruence.
Qed.

(** [clamp] returns its argument when that is NaN and a value between the
    bounds otherwise. *)
Lemma clamp_range (x lo hi : float) :
  (lo <=? hi)%f32 = true ->
  (F32.is_nan x = true /\ clamp x lo hi = x)
  \/ (F32.is_nan x = false
      /\ (lo <=? clamp x lo hi)%f32 = true /\ (clamp x lo hi <=? hi)%f32 = true).
Proof.
  intros Hle. destruct (SFleb_not_nan _ _ Hle) as [Hlo Hhi].
  unfold clamp.
  destruct (F32.is_nan x) eqn:Hx.
  - left. split; [reflexivity|]. destruct x; try discriminate Hx.
    destruct lo, hi; reflexivity.
  - right. split; [reflexivity|].
    destruct (x <? lo)%f32 eqn:H1.
    + split; [apply SFleb_refl; exact Hlo|exact Hle].
    + destruct (hi <? x)%f32 eqn:H2.
      * split; [exact Hle|apply SFleb_refl; exact Hhi].
      * split; [apply SFltb_false_leb; assumption|apply SFltb_false_leb; assumption].
Qed.

(** ** [SampleTrimmedLogistic] *)

(** X6.  Whatever the library functions return, a sample drawn by
    [SampleTrimmedLogistic] between bounds [a <= b] is NaN or lies in
    [[a, b]]: infinite and out-of-range intermediate values are clamped.  In
    [sample_f], where the bounds are [-PI] and [PI], the sampled azimuthal
    offset is therefore NaN or within [[-PI, PI]]. *)
Theorem SampleTrimmedLogistic_range (E : Extern) (r scale a b : float) :
  (a <=? b)%f32 = true ->
  let x := SampleTrimmedLogistic r scale a b in
  F32.is_nan x = true \/ ((a <=? x)%f32 = true /\ (x <=? b)%f32 = true).
Proof.
  intros Hab x. unfold x, SampleTrimmedLogistic. cbv zeta.
  destruct (clamp_range
              (- scale * log (1 / (r * (LogisticCDF b scale - LogisticCDF a scale)
                                   + LogisticCDF a scale) - 1))%f32 a b Hab)
    as [[Hnan Heq]|[_ Hr]].
  - left. rewrite Heq. exact Hnan.
  - right. exact Hr.
Qed.

Lemma SampleTrimmedLogistic_range_witness :
  let x := SampleTrimmedLogistic (E := Ref.extern) (F32.lit 999 1000) (Hair.m_scale scenario)
             (- PI)%f32 PI in
  F32.is_nan x = true \/ ((- PI <=? x)%f32 = true /\ (x <=? PI)%f32 = true).
Proof.
  apply (SampleTrimmedLogistic_range Ref.extern (F32.lit 999 1000) (Hair.m_scale scenario)
           (- PI)%f32 PI).
  reflexivity.
Defined.

(** ** The series [I0] *)

Lemma SFdiv_sign_r (prec emax : Z) (x : spec_float) (m : positive) (e : Z) :
  is_nonneg x = true -> is_nonneg (SFdiv prec emax x (S754_finite false m e)) = true.
Proof.
  destruct x as [[|]|[|]| |[|] mx ex]; try discriminate; intros _; try reflexivity.
  cbn [SFdiv xorb]. unfold SFdiv_core_binary.
  set (s := ex - e - _).
  set (m' := match s with Z0 => Zpos mx | Zpos _ => Z.shiftl (Zpos mx) s | Zneg _ => 0 end).
  assert (Hm' : 0 <= m').
  { unfold m'. destruct s; try lia. apply Z.shiftl_nonneg. lia. }
  pose proof (Z.div_pos m' (Zpos m) Hm' ltac:(lia)) as Hq.
  unfold Z.div in Hq. destruct (Z.div_eucl m' (Zpos m)) as [q r].
  apply round_aux_sign. exact Hq.
Qed.

Lemma SFmul_opp_opp (x : float) : (- x * - x)%f32 = (x * x)%f32.
Proof. destruct x as [[|]|[|]| |[|] m e]; reflexivity. Qed.

Lemma SFmul_square_sign (x : float) :
  F32.is_nan x = false -> is_nonneg (x * x)%f32 = true.
Proof.
  intros Hx. destruct x as [[|]|[|]| |[|] m e]; try discriminate; try reflexivity;
    unfold F32.mul; cbn [SFmul xorb]; apply round_aux_sign; lia.
Qed.

Lemma x2i_square (x : float) (i : nat) : x2i_at x i = sq_pow (x * x)%f32 i.
Proof. induction i as [|i IH]; [reflexivity|]. cbn [x2i_at sq_pow]. rewrite IH. reflexivity. Qed.

(** [I0] reads its argument through the square only. *)
Lemma I0_square (x : float) : I0 x = I0_of_square (x * x)%f32.
Proof.
  rewrite I0_series. unfold I0_of_square, I0_term.
  cbn [seq fold_left]. rewrite !x2i_square. reflexivity.
Qed.

Lemma sq_pow_sign (sq : float) (i : nat) :
  is_nonneg sq = true -> is_nonneg (sq_pow sq i) = true.
Proof.
  intros Hsq. destruct sq as [[|]|[|]| |[|] m e]; try discriminate.
  - assert (H : sq_pow 0%f32 i = 1%f32 \/ sq_pow 0%f32 i = 0%f32).
    { induction i as [|i [IH|IH]]; [left; reflexivity| |];
        right; cbn [sq_pow]; rewrite IH; reflexivity. }
    destruct H as [-> | ->]; reflexivity.
  - assert (H : sq_pow (S754_infinity false) i = 1%f32
                \/ sq_pow (S754_infinity false) i = S754_infinity false).
    { induction i as [|i [IH|IH]]; [left; reflexivity| |];
        right; cbn [sq_pow]; rewrite IH; reflexivity. }
    destruct H as [-> | ->]; reflexivity.
  - induction i as [|i IH]; [reflexivity|].
    cbn [sq_pow]. rewrite SFmul_comm. apply SFmul_sign_l, IH.
Qed.

Lemma I0_denominator (i : nat) :
  (i < 10)%nat ->
  exists m e, F32.of_int (4 ^ Z.of_nat i * Z.of_nat (fact i) ^ 2) = S754_finite false m e.
Proof.
  intros Hi.
  do 10 (destruct i as [|i]; [eexists _, _; vm_compute; reflexivity|]). lia.
Qed.

Lemma I0_of_square_sign (sq : float) :
  is_nonneg sq = true -> is_nonneg (I0_of_square sq) = true.
Proof.
  intros Hsq. unfold I0_of_square.
  assert (Hall : Forall (fun i => (i < 10)%nat) (seq 0 10)).
  { cbn [seq]. repeat constructor; lia. }
  assert (H0 : is_nonneg 0%f32 = true) by reflexivity.
  revert H0 Hall. generalize (seq 0 10) as l, 0%f32 as acc.
  induction l as [|i l IH]; intros acc Hacc Hall; [exact Hacc|].
  cbn [fold_left]. inversion Hall as [|? ? Hi Hl]; subst.
  apply IH; [|exact Hl].
  destruct (I0_denominator i Hi) as (m & e & ->).
  apply SFadd_sign; [exact Hacc|]. apply SFdiv_sign_r, sq_pow_sign, Hsq.
Qed.

(** X7.  The series [I0] is even, bit for bit; for every argument that is
    not NaN its value is never negative and never NaN (it is [+infinity] on
    overflow), so the logarithm that [LogI0] takes of it has a non-negative
    argument; and where the square of the argument underflows to [+0] the
    value is exactly 1. *)
Theorem I0_even_nonnegative (x : float) :
  I0 (- x)%f32 = I0 x
  /\ (F32.is_nan x = false -> is_nonneg (I0 x) = true)
  /\ ((x * x)%f32 = 0%f32 -> I0 x = 1%f32).
Proof.
  split; [|split].
  - rewrite !I0_square, SFmul_opp_opp. reflexivity.
  - intros Hx. rewrite I0_square. apply I0_of_square_sign, SFmul_square_sign, Hx.
  - intros Hsq. rewrite I0_square, Hsq. vm_compute. reflexivity.
Qed.

(** ** [sample_f]: draws and returned value *)

(** X8.  [sample_f] consumes exactly four draws of the canonical random
    source, whatever the lobe selected and whether or not a density is
    asked for; the value it returns is [f( wo , wi )] at the direction it
    wrote; and it writes a density exactly when [pPdf] is not null. *)
Theorem sample_f_draws_and_value (E : Extern) (h : Hair.t) (fuel : nat) (wo : Vector)
    (want_pdf : bool) (g : Canonical) :
  snd (Hair.sample_f h fuel wo want_pdf g)
  = {| draws := draws g; next := (4 + next g)%nat |}
  /\ forall fv wi d,
       fst (Hair.sample_f h fuel wo want_pdf g) = Some (fv, wi, d) ->
       Hair.f h fuel wo wi = Some fv
       /\ (if want_pdf then is_Some d else d = None).
Proof.
  unfold Hair.sample_f, sort_canonical. cbv beta iota zeta.
  destruct (Hair.tilt h _ _ _) as [sIp cIp]. cbn [fst snd draws next].
  split; [reflexivity|].
  intros fv wi d H.
  match type of H with
  | context [Hair.f h fuel wo ?w] => set (wi' := w) in *; clearbody wi'
  end.
  destruct want_pdf.
  - match type of H with
    | context [for_range 0 PMAX ?body ?init] =>
        set (X := for_range 0 PMAX body init) in *; clearbody X
    end.
    destruct X as [acc|]; cbn [mbind option_bind] in H; [|discriminate H].
    set (D := F32.add acc _) in H. clearbody D.
    destruct (Hair.f h fuel wo wi') as [fv'|] eqn:HY; cbn [mbind option_bind] in H;
      [|discriminate H].
    injection H as Hfv Hwi Hd. subst. split; [exact HY|]. eexists. reflexivity.
  - cbn [mbind option_bind] in H.
    destruct (Hair.f h fuel wo wi') as [fv'|] eqn:HY; cbn [mbind option_bind] in H;
      [|discriminate H].
    injection H as Hfv Hwi Hd. subst. split; [exact HY|reflexivity].
Qed.

(** ** Termination of the angle reduction inside [f] and [pdf] *)

Lemma nan_mul (hx hy h : Z) (x y : float) :
  nan_or_mag hx x -> nan_or_mag hy y ->
  hx + hy + 25 <= h -> -148 <= h -> h <= 104 ->
  nan_or_mag h (x * y)%f32.
Proof.
  intros [->|Hx] [->|Hy] Hh Hlo Hhi; try (left; reflexivity).
  - left. destruct x; reflexivity.
  - right. exact (mul_mag hx hy h x y Hx Hy Hh Hlo Hhi).
Qed.

Lemma nan_add (hx hy h : Z) (x y : float) :
  nan_or_mag hx x -> nan_or_mag hy y ->
  -149 <= hx -> -149 <= hy -> hx + 2 <= h -> hy + 2 <= h -> h <= 27 ->
  nan_or_mag h (x + y)%f32.
Proof.
  intros [->|Hx] [->|Hy] Hlx Hly Hhx Hhy Hh; try (left; reflexivity).
  - left. destruct x; reflexivity.
  - right. exact (add_mag hx hy h x y Hx Hy Hlx Hly Hhx Hhy Hh).
Qed.

Lemma nan_sub (hx hy h : Z) (x y : float) :
  nan_or_mag hx x -> nan_or_mag hy y ->
  -149 <= hx -> -149 <= hy -> hx + 2 <= h -> hy + 2 <= h -> h <= 27 ->
  nan_or_mag h (x - y)%f32.
Proof.
  intros [->|Hx] [->|Hy] Hlx Hly Hhx Hhy Hh; try (left; reflexivity).
  - left. destruct x; reflexivity.
  - right. exact (sub_mag hx hy h x y Hx Hy Hlx Hly Hhx Hhy Hh).
Qed.

Lemma abs_le_value (a b : float) :
  valid a -> fin b -> (F32.abs a <=? b)%f32 = true ->
  fin a /\ Z.abs (B2Z a) <= B2Z b.
Proof.
  intros Hv Hb Hle. destruct a as [s|s| |s m e]; try discriminate Hle.
  - split; [exact I|]. unfold F32.leb, SFleb in Hle. cbn [F32.abs SFabs] in Hle.
    rewrite (compare_spec 0%f32 b I Hb) in Hle. cbn [B2Z] in Hle |- *.
    destruct (Z.compare_spec 0 (B2Z b)); try discriminate; cbn; lia.
  - destruct b as [sb|sb| |sb mb eb]; try contradiction; destruct s; discriminate Hle.
  - assert (Hfin : fin (S754_finite false m e)) by exact Hv.
    split; [exact Hv|].
    unfold F32.leb, SFleb in Hle. cbn [F32.abs SFabs] in Hle.
    rewrite (compare_spec _ b Hfin Hb) in Hle.
    assert (Habs : Z.abs (B2Z (S754_finite s m e)) = B2Z (S754_finite false m e)).
    { apply bounded_iff in Hv.
      assert (0 < 2 ^ (e + 149)) by (apply Z.pow_pos_nonneg; lia).
      destruct s; cbn [B2Z cond_Zopp]; nia. }
    rewrite Habs.
    destruct (Z.compare_spec (B2Z (S754_finite false m e)) (B2Z b)); try discriminate; lia.
Qed.

Lemma angle_mag (bound x : float) (h : Z) :
  fin bound -> B2Z bound <= 2 ^ (h + 172) -> -149 <= h ->
  angle_ok bound x = true -> nan_or_mag h x.
Proof.
  intros Hb Hv Hh Hok. unfold angle_ok in Hok.
  destruct (F32.is_nan x) eqn:Hn.
  - left. destruct x; try discriminate Hn. reflexivity.
  - right. cbn [orb] in Hok. apply andb_prop in Hok as [Hval Hle].
    destruct (abs_le_value x bound Hval Hb Hle) as [Hfin Habs].
    apply value_mag; [exact Hh|exact Hfin|lia].
Qed.

(** The offset [Phi] of the lobes below [PMAX], for angles of magnitude
    below 4. *)
Lemma Phi_mag (p : nat) (gammaO gammaT : float) :
  (p < PMAX)%nat -> nan_or_mag (-22) gammaO -> nan_or_mag (-22) gammaT ->
  nan_or_mag (-12) (Phi p gammaO gammaT).
Proof.
  intros Hp HO HT. unfold Phi. cbv zeta.
  assert (Hpf : nan_or_mag (-22) (F32.of_int (Z.of_nat p))).
  { right. unfold PMAX in Hp.
    destruct p as [|[|[|p]]]; [exact I| | |lia]; vm_compute; (split; [reflexivity|discriminate]). }
  assert (H2 : nan_or_mag (-22) 2%f32) by (right; vm_compute; split; [reflexivity|discriminate]).
  assert (HPI : nan_or_mag (-22) PI) by (right; vm_compute; split; [reflexivity|discriminate]).
  set (pf := F32.of_int (Z.of_nat p)) in *. clearbody pf.
  pose proof (nan_mul _ _ (-19) _ _ H2 Hpf ltac:(lia) ltac:(lia) ltac:(lia)) as H2p.
  pose proof (nan_mul _ _ (-16) _ _ H2p HT ltac:(lia) ltac:(lia) ltac:(lia)) as H2pT.
  pose proof (nan_mul _ _ (-19) _ _ H2 HO ltac:(lia) ltac:(lia) ltac:(lia)) as H2O.
  pose proof (nan_mul _ _ (-19) _ _ Hpf HPI ltac:(lia) ltac:(lia) ltac:(lia)) as HpPI.
  pose proof (nan_sub _ _ (-14) _ _ H2pT H2O ltac:(lia) ltac:(lia) ltac:(lia) ltac:(lia)
                ltac:(lia)) as Hs.
  exact (nan_add _ _ (-12) _ _ Hs HpPI ltac:(lia) ltac:(lia) ltac:(lia) ltac:(lia)
           ltac:(lia)).
Qed.

(** The two loops of [Np] with an explicit iteration bound. *)
Lemma Np_reduce_fuel (a : float) (n : nat) :
  fin a -> Z.abs (B2Z a) <= 2 ^ 176 -> Z.abs (B2Z a) <= Z.of_nat n * 2 ^ 150 ->
  forall fuel, (n <= fuel)%nat -> is_Some (Np_reduce fuel a).
Proof.
  intros Ha Hbig Hn fuel Hfuel.
  assert (H150 : 0 < 2 ^ 150) by (vm_compute; reflexivity).
  pose proof PIz_bounds as (Hp1 & Hp2 & Hp3).
  assert (HPI0 : 0 < PIz) by (vm_compute; reflexivity).
  destruct (loop_down n a Ha ltac:(lia) ltac:(lia))
    as (d1 & k1 & Hk1 & Hd1 & Hrun1 & Hf1 & Hle1 & Hlo1 & Hsame1).
  destruct (Z_le_gt_dec (B2Z a) PIz) as [Hsmall|Hlarge].
  - specialize (Hsame1 Hsmall). rewrite Hsame1 in Hrun1. clear Hd1.
    destruct (loop_up n a Ha ltac:(lia) ltac:(lia))
      as (d2 & k2 & Hk2 & Hd2 & Hrun2 & Hf2 & Hge2 & Hhi2 & Hsame2).
    exists d2. rewrite Np_reduce_eq, Hrun1 by lia. apply Hrun2. lia.
  - specialize (Hlo1 ltac:(lia)).
    exists d1. rewrite Np_reduce_eq, Hrun1 by lia.
    apply while_loop_exit. apply not_true_false.
    rewrite (below_PI_spec d1 Hf1). lia.
Qed.

Lemma Np_reduce_nan (fuel : nat) : Np_reduce fuel NaN = Some NaN.
Proof. rewrite Np_reduce_eq. rewrite !while_loop_exit by reflexivity. reflexivity. Qed.

(** [Np] returns within [NP_FUEL] iterations when the azimuth difference and
    the two entry angles are NaN or of moderate magnitude. *)
Lemma Np_total `{E : Extern} (fuel : nat) (phi : float) (p : nat)
    (scale gammaO gammaT : float) :
  (p < PMAX)%nat ->
  nan_or_mag (-12) phi -> nan_or_mag (-22) gammaO -> nan_or_mag (-22) gammaT ->
  (NP_FUEL <= fuel)%nat ->
  is_Some (Np fuel phi p scale gammaO gammaT).
Proof.
  intros Hp Hphi HO HT Hfuel.
  pose proof (nan_sub _ _ (-10) _ _ Hphi (Phi_mag p gammaO gammaT Hp HO HT)
                ltac:(lia) ltac:(lia) ltac:(lia) ltac:(lia) ltac:(lia)) as Hd.
  unfold Np. set (dphi := (phi - Phi p gammaO gammaT)%f32) in *. clearbody dphi.
  assert (Hred : is_Some (Np_reduce fuel dphi)).
  { destruct Hd as [->|Hm]; [rewrite Np_reduce_nan; eexists; reflexivity|].
    pose proof (mag_value (-10) dphi ltac:(lia) Hm) as Hv.
    assert (H163 : 2 ^ (-10 + 173) = Z.of_nat NP_FUEL * 2 ^ 150) by (vm_compute; reflexivity).
    assert (H176 : 2 ^ (-10 + 173) < 2 ^ 176) by (vm_compute; reflexivity).
    apply (Np_reduce_fuel dphi NP_FUEL); [exact (mag_fin _ _ Hm)|lia|lia|exact Hfuel]. }
  destruct Hred as [d ->]. cbn [mbind option_bind]. eexists. reflexivity.
Qed.

(** [f] and [pdf] return as soon as the three calls of [Np] do. *)
Lemma f_returns `{E : Extern} (h : Hair.t) (fuel : nat) (wo wi : Vector) :
  (forall p, (p < PMAX)%nat ->
     is_Some (Np fuel (atan2 (Vector.y wi) (Vector.z wi)
                       - atan2 (Vector.y wo) (Vector.z wo))%f32 p (Hair.m_scale h)
                (fst (entry_angles h wo)) (snd (entry_angles h wo)))) ->
  is_Some (Hair.f h fuel wo wi).
Proof.
  intros HNp. unfold entry_angles in HNp. cbn [fst snd] in HNp.
  destruct (HNp 0%nat ltac:(unfold PMAX; lia)) as [n0 H0].
  destruct (HNp 1%nat ltac:(unfold PMAX; lia)) as [n1 H1].
  destruct (HNp 2%nat ltac:(unfold PMAX; lia)) as [n2 H2].
  unfold Hair.f, for_range. cbv zeta.
  change (PMAX - 0)%nat with 3%nat. cbn [for_loop]. unfold Hair.f_lobe.
  cbn [mbind option_bind].
  destruct (Hair.tilt h 0 _ _) as [s0 c0]. rewrite H0. cbn [mbind option_bind].
  destruct (Hair.tilt h 1 _ _) as [s1 c1]. rewrite H1. cbn [mbind option_bind].
  destruct (Hair.tilt h 2 _ _) as [s2 c2]. rewrite H2. cbn [mbind option_bind].
  eexists. reflexivity.
Qed.

Lemma pdf_returns `{E : Extern} (h : Hair.t) (fuel : nat) (wo wi : Vector) :
  (forall p, (p < PMAX)%nat ->
     is_Some (Np fuel (atan2 (Vector.y wi) (Vector.z wi)
                       - atan2 (Vector.y wo) (Vector.z wo))%f32 p (Hair.m_scale h)
                (fst (entry_angles h wo)) (snd (entry_angles h wo)))) ->
  is_Some (Hair.pdf h fuel wo wi).
Proof.
  intros HNp. unfold entry_angles in HNp. cbn [fst snd] in HNp.
  destruct (HNp 0%nat ltac:(unfold PMAX; lia)) as [n0 H0].
  destruct (HNp 1%nat ltac:(unfold PMAX; lia)) as [n1 H1].
  destruct (HNp 2%nat ltac:(unfold PMAX; lia)) as [n2 H2].
  unfold Hair.pdf, for_range. cbv zeta.
  change (PMAX - 0)%nat with 3%nat. cbn [for_loop]. unfold Hair.pdf_lobe.
  cbn [mbind option_bind].
  destruct (Hair.tilt h 0 _ _) as [s0 c0]. rewrite H0. cbn [mbind option_bind].
  destruct (Hair.tilt h 1 _ _) as [s1 c1]. rewrite H1. cbn [mbind option_bind].
  destruct (Hair.tilt h 2 _ _) as [s2 c2]. rewrite H2. cbn [mbind option_bind].
  eexists. reflexivity.
Qed.

(** X9.  [f] and [pdf] always return when the library's inverse
    trigonometric functions stay in range: if the entry angles [gammaO] and
    [gammaT] (two [asin] values) are NaN or of magnitude at most 2, and the
    two azimuths (two [atan2] values) are NaN or of magnitude at most 4, then
    none of the [while] loops of [Np] runs more than [2^13] times, whatever
    the fiber parameters and the directions. *)
Theorem f_pdf_return (E : Extern) (h : Hair.t) (wo wi : Vector) (fuel : nat) :
  angle_ok 2%f32 (fst (entry_angles h wo)) = true ->
  angle_ok 2%f32 (snd (entry_angles h wo)) = true ->
  angle_ok 4%f32 (atan2 (Vector.y wo) (Vector.z wo)) = true ->
  angle_ok 4%f32 (atan2 (Vector.y wi) (Vector.z wi)) = true ->
  (NP_FUEL <= fuel)%nat ->
  is_Some (Hair.f h fuel wo wi) /\ is_Some (Hair.pdf h fuel wo wi).
Proof.
  intros HO HT HphiO HphiI Hfuel.
  apply (angle_mag 2%f32 _ (-22) eq_refl ltac:(vm_compute; discriminate) ltac:(lia)) in HO, HT.
  apply (angle_mag 4%f32 _ (-21) eq_refl ltac:(vm_compute; discriminate) ltac:(lia))
    in HphiO, HphiI.
  pose proof (nan_sub _ _ (-19) _ _ HphiI HphiO ltac:(lia) ltac:(lia) ltac:(lia) ltac:(lia)
                ltac:(lia)) as Hphi.
  assert (Hphi' : nan_or_mag (-12) (atan2 (Vector.y wi) (Vector.z wi)
                                    - atan2 (Vector.y wo) (Vector.z wo))%f32).
  { destruct Hphi as [Hn|Hm]; [left; exact Hn|right; apply (mag_weaken (-19)); [lia|exact Hm]]. }
  assert (HNp : forall p, (p < PMAX)%nat ->
            is_Some (Np fuel (atan2 (Vector.y wi) (Vector.z wi)
                              - atan2 (Vector.y wo) (Vector.z wo))%f32 p (Hair.m_scale h)
                       (fst (entry_angles h wo)) (snd (entry_angles h wo)))).
  { intros p Hp. apply Np_total; assumption. }
  split; [apply f_returns; exact HNp|apply pdf_returns; exact HNp].
Qed.

Lemma f_pdf_return_witness :
  is_Some (Hair.f (E := Ref.extern) scenario NP_FUEL oblique across_fiber_y)
  /\ is_Some (Hair.pdf (E := Ref.extern) scenario NP_FUEL oblique across_fiber_y).
Proof.
  apply (f_pdf_return Ref.extern scenario oblique across_fiber_y NP_FUEL);
    [vm_compute; reflexivity ..|unfold NP_FUEL; lia].
Defined.

(** ** Zero variance *)

Lemma exponent_at_zero_variance (y : float) :
  (y - 1 / 0 + F32.lit 6931 10000 + S754_infinity false)%f32 = NaN.
Proof. destruct y as [[|]|[|]| |[|] m e]; reflexivity. Qed.

(** With a zero variance the longitudinal factor is the exponential of NaN,
    whatever the angles: the exponent holds [- 1/v + log(1/(2 v))], an
    infinity minus an infinity. *)
Lemma Mp_zero_variance `{E : Extern} (cosThetaI cosThetaO sinThetaI sinThetaO : float) :
  log (S754_infinity false) = S754_infinity false ->
  Mp cosThetaI cosThetaO sinThetaI sinThetaO 0%f32 = exp NaN.
Proof.
  intros Hlog. unfold Mp. cbv zeta.
  change (F64.leb (F64.of_float 0%f32) (F64.lit 1 10)) with true. cbv iota.
  change (1 / (2 * 0))%f32 with (S754_infinity false). rewrite Hlog.
  rewrite exponent_at_zero_variance. reflexivity.
Qed.

Lemma spectrum_nan_term (s a b : Spectrum) :
  (s + splat NaN * a * b)%spectrum = nanS.
Proof.
  destruct s as [sr sg sb], a as [ar ag ab], b as [br bg bb].
  unfold Spectrum_map2, splat, nanS. cbn [red green blue].
  change (NaN * ar * br)%f32 with NaN. change (NaN * ag * bg)%f32 with NaN.
  change (NaN * ab * bb)%f32 with NaN.
  rewrite !add_nan_r. reflexivity.
Qed.

Lemma float_nan_term (s a b : float) : (s + NaN * a * b)%f32 = NaN.
Proof. change (NaN * a * b)%f32 with NaN. apply add_nan_r. Qed.

Lemma f_zero_variance `{E : Extern} (h : Hair.t) (fuel : nat) (wo wi : Vector) :
  Hair.m_v h = [0%f32; 0%f32; 0%f32; 0%f32] ->
  log (S754_infinity false) = S754_infinity false -> exp NaN = NaN ->
  Hair.f h fuel wo wi = None \/ Hair.f h fuel wo wi = Some nanS.
Proof.
  intros Hmv Hlog Hexp.
  unfold Hair.f, for_range. cbv zeta.
  change (PMAX - 0)%nat with 3%nat. cbn [for_loop]. unfold Hair.f_lobe.
  rewrite Hmv.
  change ([0%f32; 0%f32; 0%f32; 0%f32] !!! PMAX) with 0%f32.
  rewrite Mp_zero_variance by exact Hlog. rewrite Hexp.
  cbn [mbind option_bind].
  destruct (Hair.tilt h 0 _ _) as [s0 c0].
  destruct (Np fuel _ 0 _ _ _); cbn [mbind option_bind]; [|left; reflexivity].
  destruct (Hair.tilt h 1 _ _) as [s1 c1].
  destruct (Np fuel _ 1 _ _ _); cbn [mbind option_bind]; [|left; reflexivity].
  destruct (Hair.tilt h 2 _ _) as [s2 c2].
  destruct (Np fuel _ 2 _ _ _); cbn [mbind option_bind]; [|left; reflexivity].
  right. rewrite spectrum_nan_term. reflexivity.
Qed.

Lemma pdf_zero_variance `{E : Extern} (h : Hair.t) (fuel : nat) (wo wi : Vector) :
  Hair.m_v h = [0%f32; 0%f32; 0%f32; 0%f32] ->
  log (S754_infinity false) = S754_infinity false -> exp NaN = NaN ->
  Hair.pdf h fuel wo wi = None \/ Hair.pdf h fuel wo wi = Some NaN.
Proof.
  intros Hmv Hlog Hexp.
  unfold Hair.pdf, for_range. cbv zeta.
  change (PMAX - 0)%nat with 3%nat. cbn [for_loop]. unfold Hair.pdf_lobe.
  rewrite Hmv.
  change ([0%f32; 0%f32; 0%f32; 0%f32] !!! PMAX) with 0%f32.
  rewrite Mp_zero_variance by exact Hlog. rewrite Hexp.
  cbn [mbind option_bind].
  destruct (Hair.tilt h 0 _ _) as [s0 c0].
  destruct (Np fuel _ 0 _ _ _); cbn [mbind option_bind]; [|left; reflexivity].
  destruct (Hair.tilt h 1 _ _) as [s1 c1].
  destruct (Np fuel _ 1 _ _ _); cbn [mbind option_bind]; [|left; reflexivity].
  destruct (Hair.tilt h 2 _ _) as [s2 c2].
  destruct (Np fuel _ 2 _ _ _); cbn [mbind option_bind]; [|left; reflexivity].
  right. rewrite float_nan_term. reflexivity.
Qed.

(** X10.  A fiber built with a valid positive longitudinal roughness below
    [2^-78] scatters nothing but NaN: with a library whose logarithm of
    [+infinity] is [+infinity] and whose exponential of NaN is NaN, [f]
    returns the all-NaN spectrum and [pdf] returns NaN for every pair of
    directions for which they return. *)
Theorem tiny_roughness_nan (E : Extern) (absorption : Spectrum)
    (lRoughness aRoughness ior : float) (fuel : nat) (wo wi : Vector) :
  valid lRoughness ->
  (0 <? lRoughness)%f32 = true -> (lRoughness <? UNDERFLOW_ROUGHNESS)%f32 = true ->
  log (S754_infinity false) = S754_infinity false -> exp NaN = NaN ->
  let h := Hair.Hair absorption lRoughness aRoughness ior in
  (Hair.f h fuel wo wi = None \/ Hair.f h fuel wo wi = Some nanS)
  /\ (Hair.pdf h fuel wo wi = None \/ Hair.pdf h fuel wo wi = Some NaN).
Proof.
  intros Hv Hlo Hhi Hlog Hexp h.
  assert (Hmv : Hair.m_v h = [0%f32; 0%f32; 0%f32; 0%f32]).
  { unfold h. rewrite m_v_list. cbv zeta.
    rewrite (variance_underflow _ (roughness_tiny _ Hv Hlo Hhi)). reflexivity. }
  clearbody h.
  split; [apply f_zero_variance|apply pdf_zero_variance]; assumption.
Qed.

Lemma tiny_roughness_nan_witness :
  let h := Hair.Hair (E := Ref.extern) (splat 0%f32)
             (F32.lit 1 1000000000000000000000000000000) (F32.lit 3 10) (F32.lit 155 100) in
  Hair.f (E := Ref.extern) h 8 oblique across_fiber_y = Some nanS
  /\ Hair.pdf (E := Ref.extern) h 8 oblique across_fiber_y = Some NaN.
Proof.
  intros h.
  destruct (tiny_roughness_nan Ref.extern (splat 0%f32)
              (F32.lit 1 1000000000000000000000000000000) (F32.lit 3 10) (F32.lit 155 100)
              8 oblique across_fiber_y) as [[Hf|Hf] [Hp|Hp]];
    try (vm_compute; reflexivity); fold h in Hf, Hp.
  - vm_compute in Hf. discriminate Hf.
  - vm_compute in Hf. discriminate Hf.
  - vm_compute in Hp. discriminate Hp.
  - split; [exact Hf|exact Hp].
Defined.

(** ** The angle reduction beyond [2^27] *)

Lemma B2Z_inj (a b : float) : fin a -> fin b -> B2Z a = B2Z b -> B2Z a <> 0 -> a = b.
Proof.
  intros Ha Hb Heq Hne.
  destruct (fin_nonzero a Ha Hne) as (sa & ma & ea & -> & Hba).
  destruct (fin_nonzero b Hb ltac:(congruence)) as (sb & mb & eb & -> & Hbb).
  pose proof Hba as Hba'. pose proof Hbb as Hbb'. apply bounded_iff in Hba', Hbb'.
  pose proof (B2Z_sign sa ma ea ltac:(lia)) as Hsa.
  pose proof (B2Z_sign sb mb eb ltac:(lia)) as Hsb.
  assert (Hs : sa = sb) by (destruct sa, sb; try reflexivity; cbv beta iota in Hsa, Hsb; lia).
  subst sb.
  assert (Hv : Zpos ma * 2 ^ (ea + 149) = Zpos mb * 2 ^ (eb + 149))
    by (destruct sa; cbn [B2Z cond_Zopp] in Heq; lia).
  assert (He : ea = eb).
  { destruct (Z.lt_trichotomy ea eb) as [Hlt|[Heq'|Hgt]]; [exfalso|exact Heq'|exfalso].
    - pose proof (canonical_order ma mb ea eb Hba Hbb Hlt). lia.
    - pose proof (canonical_order mb ma eb ea Hbb Hba ltac:(lia)). lia. }
  subst eb.
  assert (Hp : 0 < 2 ^ (ea + 149)) by (apply Z.pow_pos_nonneg; lia).
  assert (Hm : Zpos ma = Zpos mb) by nia.
  injection Hm as ->. reflexivity.
Qed.

(** A value below [m 2^n] by less than half a unit in the last place rounds
    back to [m 2^n]. *)
Lemma RNz_absorb (m n delta : Z) :
  2 ^ 23 < m < 2 ^ 24 -> 1 <= n -> 0 < delta < 2 ^ (n - 1) ->
  RNz (m * 2 ^ n - delta) = m * 2 ^ n.
Proof.
  intros Hm Hn Hd.
  assert (Hn2 : 2 ^ n = 2 * 2 ^ (n - 1)).
  { replace n with (1 + (n - 1)) at 1 by lia. rewrite Z.pow_add_r by lia. reflexivity. }
  assert (Hp : 0 < 2 ^ (n - 1)) by (apply Z.pow_pos_nonneg; lia).
  set (N := m * 2 ^ n - delta).
  assert (Hlog : Z.log2 N = 23 + n).
  { apply Z.log2_unique; [lia|]. replace (Z.succ (23 + n)) with (24 + n) by lia.
    rewrite !Z.pow_add_r by lia. unfold N. nia. }
  unfold RNz. fold N. rewrite Hlog. replace (23 + n + 1 - 24) with n by lia.
  destruct (Z.leb_spec n 0); [lia|].
  assert (Hq : N / 2 ^ n = m - 1)
    by (symmetry; apply (Z.div_unique N (2 ^ n) (m - 1) (2 ^ n - delta)); unfold N; lia).
  assert (Hr : N mod 2 ^ n = 2 ^ n - delta)
    by (symmetry; apply (Z.mod_unique N (2 ^ n) (m - 1) (2 ^ n - delta)); unfold N; lia).
  unfold round_shift. rewrite Hq, Hr.
  destruct (Z.ltb_spec (2 ^ (n - 1)) (2 ^ n - delta)); [|lia].
  cbn [orb]. ring.
Qed.

Lemma RNz_absorb_pow (n delta : Z) :
  2 <= n -> 0 < delta < 2 ^ (n - 2) ->
  RNz (2 ^ 23 * 2 ^ n - delta) = 2 ^ 23 * 2 ^ n.
Proof.
  intros Hn Hd.
  assert (Hn1 : 2 ^ n = 2 * 2 ^ (n - 1)).
  { replace n with (1 + (n - 1)) at 1 by lia. rewrite Z.pow_add_r by lia. reflexivity. }
  assert (Hn2 : 2 ^ (n - 1) = 2 * 2 ^ (n - 2)).
  { replace (n - 1) with (1 + (n - 2)) at 1 by lia. rewrite Z.pow_add_r by lia. reflexivity. }
  assert (Hp : 0 < 2 ^ (n - 2)) by (apply Z.pow_pos_nonneg; lia).
  set (N := 2 ^ 23 * 2 ^ n - delta).
  assert (Hlog : Z.log2 N = 22 + n).
  { apply Z.log2_unique; [lia|]. replace (Z.succ (22 + n)) with (23 + n) by lia.
    rewrite !Z.pow_add_r by lia. unfold N. change (2 ^ 23) with (2 * 2 ^ 22). nia. }
  unfold RNz. fold N. rewrite Hlog. replace (22 + n + 1 - 24) with (n - 1) by lia.
  destruct (Z.leb_spec (n - 1) 0); [lia|].
  assert (Hq : N / 2 ^ (n - 1) = 2 ^ 24 - 1).
  { symmetry. apply (Z.div_unique N (2 ^ (n - 1)) (2 ^ 24 - 1) (2 ^ (n - 1) - delta));
      [lia|]. unfold N. change (2 ^ 24) with (2 * 2 ^ 23). lia. }
  assert (Hr : N mod 2 ^ (n - 1) = 2 ^ (n - 1) - delta).
  { symmetry. apply (Z.mod_unique N (2 ^ (n - 1)) (2 ^ 24 - 1) (2 ^ (n - 1) - delta));
      [lia|]. unfold N. change (2 ^ 24) with (2 * 2 ^ 23). lia. }
  unfold round_shift. rewrite Hq, Hr. replace (n - 1 - 1) with (n - 2) by lia.
  destruct (Z.ltb_spec (2 ^ (n - 2)) (2 ^ (n - 1) - delta)); [|lia].
  cbn [orb]. change (2 ^ 24 - 1 + 1) with (2 * 2 ^ 23). lia.
Qed.

(** Beyond [2^27] the spacing of the [float]s exceeds [4 PI]: subtracting
    [TWO_PI] rounds back to the value itself. *)
Lemma RNz_minus_TWO_PI (m : positive) (e : Z) :
  bounded 24 128 m e = true -> 2 ^ 176 < Zpos m * 2 ^ (e + 149) ->
  RNz (Zpos m * 2 ^ (e + 149) - 2 * PIz) = Zpos m * 2 ^ (e + 149).
Proof.
  intros Hb Hbig. apply bounded_iff in Hb.
  pose proof PIz_bounds as (Hp1 & Hp2 & Hp3).
  pose proof (digits_bounds m) as Hd.
  assert (H149 : 0 < 2 ^ 149) by (vm_compute; reflexivity).
  assert (He : 4 <= e).
  { destruct (Z_lt_le_dec e 4) as [Hlt|]; [exfalso|lia].
    assert (Hm : Zpos m < 2 ^ 24).
    { apply Z.lt_le_trans with (2 ^ digits m); [lia|]. apply Z.pow_le_mono_r; lia. }
    assert (H1 : 2 ^ (e + 149) <= 2 ^ 152) by (apply Z.pow_le_mono_r; lia).
    assert (H0 : 0 < 2 ^ (e + 149)) by (apply Z.pow_pos_nonneg; lia).
    change (2 ^ 176) with (2 ^ 24 * 2 ^ 152) in Hbig. nia. }
  assert (Hd24 : digits m = 24) by lia. rewrite Hd24 in Hd. change (24 - 1) with 23 in Hd.
  set (n := e + 149) in *.
  assert (H152 : 2 ^ 152 <= 2 ^ (n - 1)) by (apply Z.pow_le_mono_r; lia).
  destruct (Z.eq_dec (Zpos m) (2 ^ 23)) as [Heq|Hne].
  - rewrite Heq in *.
    assert (Hn : 154 <= n).
    { destruct (Z_lt_le_dec n 154) as [Hlt|]; [exfalso|lia].
      assert (n = 153) by lia.
      replace n with 153 in Hbig by lia. vm_compute in Hbig. discriminate Hbig. }
    apply RNz_absorb_pow; [lia|].
    assert (2 ^ 152 <= 2 ^ (n - 2)) by (apply Z.pow_le_mono_r; lia). lia.
  - apply RNz_absorb; lia.
Qed.

Lemma step_down_fixed (a : float) : fin a -> 2 ^ 176 < B2Z a -> step_down a = a.
Proof.
  intros Ha Hbig.
  destruct (fin_nonzero a Ha ltac:(lia)) as (s & m & e & -> & Hb).
  pose proof (Hb) as Hb'. apply bounded_iff in Hb'.
  pose proof (B2Z_sign s m e ltac:(lia)) as Hs.
  destruct s; cbv beta iota in Hs; [lia|].
  cbn [B2Z cond_Zopp] in Hbig.
  pose proof (RNz_minus_TWO_PI m e Hb Hbig) as Habs.
  pose proof PIz_bounds as (Hp1 & Hp2 & Hp3).
  assert (HA : Zpos m * 2 ^ (e + 149) < 2 ^ 277).
  { assert (Hm : mag_in 104 (S754_finite false m e)) by (split; [exact Hb|lia]).
    pose proof (mag_value 104 _ ltac:(lia) Hm) as Hv.
    cbn [B2Z cond_Zopp] in Hv. change (104 + 173) with 277 in Hv. lia. }
  assert (Hpos : 0 < Zpos m * 2 ^ (e + 149) - 2 * PIz)
    by (assert (2 ^ 152 < 2 ^ 176) by (vm_compute; reflexivity); lia).
  unfold step_down. change TWO_PI with (S754_finite false 13176795 (-21)).
  destruct (SFsub_spec false false m 13176795 e (-21) Hb eq_refl) as [Hfin Hval].
  { change (B2Z (S754_finite false 13176795 (-21))) with (2 * PIz).
    cbn [B2Z cond_Zopp]. rewrite Z.abs_eq by lia. rewrite Habs. exact HA. }
  change (B2Z (S754_finite false 13176795 (-21))) with (2 * PIz) in Hval.
  cbn [B2Z cond_Zopp] in Hval. rewrite RZ_pos in Hval by exact Hpos.
  rewrite Habs in Hval.
  apply B2Z_inj; [exact Hfin|exact Ha|rewrite Hval; reflexivity|rewrite Hval; lia].
Qed.

Lemma step_up_fixed (a : float) : fin a -> B2Z a < - 2 ^ 176 -> step_up a = a.
Proof.
  intros Ha Hbig.
  destruct (fin_nonzero a Ha ltac:(lia)) as (s & m & e & -> & Hb).
  pose proof (Hb) as Hb'. apply bounded_iff in Hb'.
  pose proof (B2Z_sign s m e ltac:(lia)) as Hs.
  destruct s; cbv beta iota in Hs; [|lia].
  cbn [B2Z cond_Zopp] in Hbig.
  pose proof (RNz_minus_TWO_PI m e Hb ltac:(lia)) as Habs.
  pose proof PIz_bounds as (Hp1 & Hp2 & Hp3).
  assert (HA : Zpos m * 2 ^ (e + 149) < 2 ^ 277).
  { assert (Hm : mag_in 104 (S754_finite false m e)) by (split; [exact Hb|lia]).
    pose proof (mag_value 104 _ ltac:(lia) Hm) as Hv.
    cbn [B2Z cond_Zopp] in Hv. change (104 + 173) with 277 in Hv. lia. }
  assert (Hpos : 0 < Zpos m * 2 ^ (e + 149) - 2 * PIz)
    by (assert (2 ^ 152 < 2 ^ 176) by (vm_compute; reflexivity); lia).
  unfold step_up. change TWO_PI with (S754_finite false 13176795 (-21)).
  destruct (SFadd_spec true false m 13176795 e (-21) Hb eq_refl) as [Hfin Hval].
  { change (B2Z (S754_finite false 13176795 (-21))) with (2 * PIz).
    cbn [B2Z cond_Zopp].
    replace (- (Zpos m * 2 ^ (e + 149)) + 2 * PIz)
      with (- (Zpos m * 2 ^ (e + 149) - 2 * PIz)) by ring.
    rewrite Z.abs_opp, Z.abs_eq by lia. rewrite Habs. exact HA. }
  change (B2Z (S754_finite false 13176795 (-21))) with (2 * PIz) in Hval.
  cbn [B2Z cond_Zopp] in Hval.
  replace (- (Zpos m * 2 ^ (e + 149)) + 2 * PIz)
    with (- (Zpos m * 2 ^ (e + 149) - 2 * PIz)) in Hval by ring.
  rewrite RZ_opp, RZ_pos in Hval by exact Hpos.
  rewrite Habs in Hval.
  apply B2Z_inj; [exact Hfin|exact Ha|rewrite Hval; reflexivity|rewrite Hval; lia].
Qed.

Lemma Np_reduce_stuck (a : float) :
  valid a -> (ANGLE_BOUND <? F32.abs a)%f32 = true -> forall fuel, Np_reduce fuel a = None.
Proof.
  intros Hv Hbig fuel.
  assert (HPI176 : PIz < 2 ^ 176) by (vm_compute; reflexivity).
  assert (HPI0 : 0 < PIz) by (vm_compute; reflexivity).
  destruct a as [s|[|]| |s m e]; try discriminate Hbig.
  - (* -infinity *)
    rewrite Np_reduce_eq,
      (while_loop_exit fuel above_PI step_down (S754_infinity true) eq_refl).
    apply while_loop_stuck; reflexivity.
  - (* +infinity *)
    rewrite Np_reduce_eq,
      (while_loop_stuck above_PI step_down (S754_infinity false) eq_refl eq_refl).
    reflexivity.
  - assert (Hfin : fin (S754_finite s m e)) by exact Hv.
    assert (Hfa : fin (S754_finite false m e)) by exact Hv.
    unfold F32.ltb, SFltb in Hbig. cbn [F32.abs SFabs] in Hbig.
    rewrite (compare_spec ANGLE_BOUND _ eq_refl Hfa) in Hbig.
    change (B2Z ANGLE_BOUND) with (2 ^ 176) in Hbig.
    destruct (Z.compare_spec (2 ^ 176) (B2Z (S754_finite false m e))) as [|Hlt|];
      try discriminate Hbig.
    cbn [B2Z cond_Zopp] in Hlt.
    destruct s.
    + assert (Hneg : B2Z (S754_finite true m e) < - 2 ^ 176) by (cbn [B2Z cond_Zopp]; lia).
      rewrite Np_reduce_eq, while_loop_exit.
      * apply while_loop_stuck.
        -- apply (below_PI_spec _ Hfin). lia.
        -- apply step_up_fixed; assumption.
      * apply not_true_false. rewrite (above_PI_spec _ Hfin). lia.
    + rewrite Np_reduce_eq, (while_loop_stuck above_PI step_down).
      * reflexivity.
      * apply (above_PI_spec _ Hfin). cbn [B2Z cond_Zopp]. lia.
      * apply step_down_fixed; [exact Hfin|exact Hlt].
Qed.

(** X11.  Beyond [2^27] the angle reduction of [Np] never ends: for every
    [phi] and lobe whose difference [dphi = phi - Phi(p)] is a [float] of
    magnitude above [2^27], infinite ones included, adding or subtracting
    [TWO_PI] rounds back to [dphi] itself, and [Np] does not return however
    many iterations it is given. *)
Theorem Np_never_returns (E : Extern) (phi : float) (p : nat)
    (scale gammaO gammaT : float) (fuel : nat) :
  let dphi := (phi - Phi p gammaO gammaT)%f32 in
  valid dphi -> (ANGLE_BOUND <? F32.abs dphi)%f32 = true ->
  Np fuel phi p scale gammaO gammaT = None.
Proof.
  intros dphi Hv Hbig. unfold Np. fold dphi.
  rewrite (Np_reduce_stuck dphi Hv Hbig fuel). reflexivity.
Qed.

Lemma Np_never_returns_witness :
  Np (E := Ref.extern) 1000 (F32.of_int (- 1000000000)) 2 (Hair.m_scale scenario)
    1%f32 (F32.lit 5 10) = None.
Proof.
  apply (Np_never_returns Ref.extern (F32.of_int (- 1000000000)) 2 (Hair.m_scale scenario)
           1%f32 (F32.lit 5 10) 1000); vm_compute; reflexivity.
Defined.

(** ** [f] and [pdf] return exactly when [Np] does *)

Lemma f_stops `{E : Extern} (h : Hair.t) (fuel : nat) (wo wi : Vector) (p : nat) :
  (p < PMAX)%nat ->
  Np fuel (atan2 (Vector.y wi) (Vector.z wi) - atan2 (Vector.y wo) (Vector.z wo))%f32 p
    (Hair.m_scale h) (fst (entry_angles h wo)) (snd (entry_angles h wo)) = None ->
  Hair.f h fuel wo wi = None /\ Hair.pdf h fuel wo wi = None.
Proof.
  intros Hp HNp. unfold entry_angles in HNp. cbn [fst snd] in HNp.
  unfold Hair.f, Hair.pdf, for_range. cbv zeta.
  change (PMAX - 0)%nat with 3%nat. cbn [for_loop]. unfold Hair.f_lobe, Hair.pdf_lobe.
  cbn [mbind option_bind].
  destruct (Hair.tilt h 0 _ _) as [s0 c0].
  destruct (Hair.tilt h 1 _ _) as [s1 c1].
  destruct (Hair.tilt h 2 _ _) as [s2 c2].
  unfold PMAX in Hp.
  destruct p as [|[|[|p]]]; [| | |lia].
  - rewrite HNp. split; reflexivity.
  - rewrite HNp. destruct (Np fuel _ 0 _ _ _); split; reflexivity.
  - rewrite HNp.
    destruct (Np fuel _ 0 _ _ _); [|split; reflexivity].
    destruct (Np fuel _ 1 _ _ _); split; reflexivity.
Qed.

(** X12.  The only way [f] and [pdf] fail to return is through the loops of
    [Np]: each of them returns exactly when the three calls [Np( phi , p ,
    ... )], [p < PMAX], made with the azimuth difference of the two
    directions and the entry angles of [wo], all return. *)
Theorem f_pdf_return_iff (E : Extern) (h : Hair.t) (fuel : nat) (wo wi : Vector) :
  let phi := (atan2 (Vector.y wi) (Vector.z wi) - atan2 (Vector.y wo) (Vector.z wo))%f32 in
  (is_Some (Hair.f h fuel wo wi) <->
   forall p, (p < PMAX)%nat ->
     is_Some (Np fuel phi p (Hair.m_scale h) (fst (entry_angles h wo))
                (snd (entry_angles h wo))))
  /\ (is_Some (Hair.pdf h fuel wo wi) <->
      forall p, (p < PMAX)%nat ->
        is_Some (Np fuel phi p (Hair.m_scale h) (fst (entry_angles h wo))
                   (snd (entry_angles h wo)))).
Proof.
  intros phi.
  split; (split; [|intros Hall]).
  - intros [fv Hf] p Hp.
    destruct (Np fuel phi p _ _ _) eqn:HNp; [eexists; reflexivity|].
    destruct (f_stops h fuel wo wi p Hp HNp) as [Hf' _]. congruence.
  - apply f_returns. exact Hall.
  - intros [d Hd] p Hp.
    destruct (Np fuel phi p _ _ _) eqn:HNp; [eexists; reflexivity|].
    destruct (f_stops h fuel wo wi p Hp HNp) as [_ Hd']. congruence.
  - apply pdf_returns. exact Hall.
Qed.

(** ** The lobe scan on NaN *)

Lemma remainder_nan (k : nat) (apPdf : list float) : remainder k NaN apPdf = NaN.
Proof. induction k as [|k IH]; [reflexivity|]. cbn [remainder]. rewrite IH. reflexivity. Qed.

Lemma ltb_nan_r (x y : float) : F32.is_nan y = true -> (x <? y)%f32 = false.
Proof. destruct y; try discriminate. intros _. destruct x; reflexivity. Qed.

Lemma select_lobe_skips (apPdf : list float) (n : nat) :
  forall (p : nat) (r : float),
    (forall k, (p <= k < p + n)%nat ->
       F32.is_nan r = true \/ F32.is_nan (apPdf !!! k) = true) ->
    Hair.select_lobe n p r apPdf = (p + n)%nat.
Proof.
  induction n as [|n IH]; intros p r H; [cbn; lia|].
  cbn [Hair.select_lobe].
  assert (Hlt : (r <? apPdf !!! p)%f32 = false).
  { destruct (H p ltac:(lia)) as [Hr|Hp].
    - destruct r; try discriminate Hr. reflexivity.
    - apply ltb_nan_r, Hp. }
  rewrite Hlt. rewrite IH; [lia|].
  intros k Hk. destruct (H k ltac:(lia)) as [Hr|Hk']; [|right; exact Hk'].
  destruct (H p ltac:(lia)) as [Hr'|Hp].
  - left. destruct r; try discriminate Hr. reflexivity.
  - left. destruct r; try discriminate Hr. reflexivity.
Qed.

(** X13.  The lobe scan of [sample_f] never stops on a NaN: when the draw
    is NaN, or when the first [PMAX] entries of the partition are NaN (as
    they are at grazing incidence without absorption), no comparison
    [r < apPdf[p]] holds and the last lobe, [PMAX], is selected. *)
Theorem select_lobe_nan (r : float) (apPdf : list float) :
  F32.is_nan r = true \/ (forall k, (k < PMAX)%nat -> F32.is_nan (apPdf !!! k) = true) ->
  Hair.select_lobe PMAX 0 r apPdf = PMAX.
Proof.
  intros H. rewrite select_lobe_skips; [reflexivity|].
  intros k Hk. destruct H as [Hr|Hall]; [left; exact Hr|right; apply Hall; lia].
Qed.

Lemma select_lobe_nan_witness :
  Hair.select_lobe PMAX 0 (F32.lit 1 10)
    (ComputeApPdf (E := Ref.extern) 0%f32 0%f32 1%f32 (F32.lit 155 100) (splat 0%f32)
       (replicate (PMAX + 1) 0%f32)) = PMAX.
Proof.
  apply select_lobe_nan. right. intros k Hk. unfold PMAX in Hk.
  destruct k as [|[|[|k]]]; [vm_compute; reflexivity ..|lia].
Defined.

(** ** Termination of [sample_f] *)

(** The product of two valid values is valid: canonical, an infinity after
    overflow, a zero after underflow, or NaN. *)
Lemma mul_valid (x y : float) : valid x -> valid y -> valid (x * y)%f32.
Proof.
  unfold valid.
  destruct x as [sx|sx| |sx mx ex], y as [sy|sy| |sy my ey]; try (intros; reflexivity).
  intros Hbx Hby. cbn [valid_binary] in Hbx, Hby.
  apply bounded_iff in Hbx, Hby.
  pose proof (digits_pos mx) as Hpx. pose proof (digits_pos my) as Hpy.
  pose proof (digits_mul mx my) as [Hlow Hupp].
  unfold F32.mul, F32.prec, F32.emax. cbn [SFmul].
  set (s := xorb sx sy).
  set (M := (mx * my)%positive) in *.
  set (E := ex + ey).
  pose proof (digits_bounds M) as HdM. pose proof (digits_pos M) as HpM.
  set (t := fexp 24 128 (digits M + E)).
  assert (Ht : t = Z.max (digits M + E - 24) (-149)) by (unfold t; apply fexp32).
  assert (Hk0 : 0 <= t - E) by lia.
  assert (Hmk : forall (p : positive) (e : Z),
            -149 <= e -> (digits p = 24 \/ (digits p < 24 /\ e = -149)) ->
            valid_binary 24 128 (mk_float s (Zpos p) e) = true).
  { intros p e He Hp. unfold mk_float. destruct (Z.leb_spec e 104); [|reflexivity].
    cbn [valid_binary]. apply bounded_iff. lia. }
  destruct (Z.eq_dec (t - E) 0) as [Hz|Hnz].
  - rewrite binary_round_aux_end by (fold t; lia). apply Hmk; lia.
  - assert (Hk : 0 < fexp 24 128 (digits M + E) - E) by (fold t; lia).
    rewrite (binary_round_aux_shift s M E Hk). fold t.
    set (k := t - E) in *.
    assert (Hq : 0 <= Zpos M / 2 ^ k < 2 ^ 24).
    { split; [apply Z.div_pos; [lia|apply Z.pow_pos_nonneg; lia]|].
      destruct (Z_lt_le_dec (digits M) k) as [Hlt|Hge].
      - rewrite Z.div_small; [simpl; lia|]. split; [lia|].
        apply Z.lt_le_trans with (2 ^ digits M); [lia|]. apply Z.pow_le_mono_r; lia.
      - apply Z.lt_le_trans with (2 ^ (digits M - k)).
        + apply div_pow2_lt; lia.
        + apply Z.pow_le_mono_r; lia. }
    pose proof (round_shift_bounds (Zpos M) k ltac:(lia) ltac:(lia)) as Hm1.
    set (m1 := round_shift (Zpos M) k) in *.
    replace (E + k) with t by lia.
    destruct (Z.eqb_spec m1 (2 ^ 24)) as [Heq|Hne].
    + change (2 ^ 23) with (Zpos (2 ^ 23)). apply Hmk; [lia|left; reflexivity].
    + destruct m1 as [|p1|p1] eqn:Em1; try lia; [reflexivity|].
      apply Hmk; [lia|].
      destruct (Z.eq_dec t (-149)) as [Hm|Hm].
      * pose proof (digits_bounds p1) as Hb1.
        destruct (Z_lt_le_dec (digits p1) 24) as [|Hge]; [right; lia|left].
        destruct (Z_lt_le_dec 24 (digits p1)) as [Hgt|]; [|lia].
        assert (2 ^ 24 <= 2 ^ (digits p1 - 1)) by (apply Z.pow_le_mono_r; lia). lia.
      * left. apply digits_unique. change (24 - 1) with 23.
        split; [|lia].
        apply Z.le_trans with (Zpos M / 2 ^ k); [|lia].
        apply Z.div_le_lower_bound; [apply Z.pow_pos_nonneg; lia|].
        rewrite <- Z.pow_add_r by lia.
        replace (k + 23) with (digits M - 1) by lia. lia.
Qed.

(** A valid value between [-PI] and [PI] has exponent at most -21. *)
Lemma within_PI_mag (c : float) :
  valid c -> (- PI <=? c)%f32 = true -> (c <=? PI)%f32 = true -> mag_in (-21) c.
Proof.
  intros Hv Hlo Hhi. destruct fin_PI as (HfP & HfN & _).
  destruct c as [s|[|]| |s m e]; try discriminate; [exact I|].
  assert (Hfin : fin (S754_finite s m e)) by exact Hv.
  unfold F32.leb, SFleb in Hlo, Hhi.
  rewrite (compare_spec _ _ HfN Hfin) in Hlo.
  rewrite (compare_spec _ _ Hfin HfP), B2Z_PI in Hhi.
  change (B2Z (- PI)%f32) with (- PIz) in Hlo.
  assert (HPI : PIz <= 2 ^ (-21 + 172)) by (vm_compute; discriminate).
  apply value_mag; [lia|exact Hfin|].
  destruct (Z.compare_spec (- PIz) (B2Z (S754_finite s m e))); try discriminate;
    destruct (Z.compare_spec (B2Z (S754_finite s m e)) PIz); try discriminate; lia.
Qed.

Lemma SampleTrimmedLogistic_mag `{E : Extern} (r scale : float) :
  (forall x, valid (log x)) -> valid scale ->
  nan_or_mag (-21) (SampleTrimmedLogistic r scale (- PI)%f32 PI).
Proof.
  intros Hlog Hscale. unfold SampleTrimmedLogistic. cbv zeta.
  set (x := (- scale * log _)%f32).
  assert (Hx : valid x).
  { apply mul_valid; [|apply Hlog]. destruct scale; exact Hscale. }
  clearbody x.
  destruct (clamp_range x (- PI)%f32 PI eq_refl) as [[Hnan Heq]|(Hnn & Hlo & Hhi)].
  - left. rewrite Heq. destruct x; try discriminate Hnan. reflexivity.
  - right. apply within_PI_mag; [|exact Hlo|exact Hhi].
    unfold clamp. destruct (x <? - PI)%f32; [reflexivity|].
    destruct (PI <? x)%f32; [reflexivity|exact Hx].
Qed.

(** [Np] inside [sample_f], where the azimuth offset is the one sampled. *)
Lemma Np_total_sampled `{E : Extern} (fuel : nat) (phi : float) (p : nat)
    (scale gammaO gammaT : float) :
  (p < PMAX)%nat ->
  nan_or_mag (-10) phi -> nan_or_mag (-22) gammaO -> nan_or_mag (-22) gammaT ->
  (SAMPLE_FUEL <= fuel)%nat ->
  is_Some (Np fuel phi p scale gammaO gammaT).
Proof.
  intros Hp Hphi HO HT Hfuel.
  pose proof (nan_sub _ _ (-8) _ _ Hphi (Phi_mag p gammaO gammaT Hp HO HT)
                ltac:(lia) ltac:(lia) ltac:(lia) ltac:(lia) ltac:(lia)) as Hd.
  unfold Np. set (dphi := (phi - Phi p gammaO gammaT)%f32) in *. clearbody dphi.
  assert (Hred : is_Some (Np_reduce fuel dphi)).
  { destruct Hd as [->|Hm]; [rewrite Np_reduce_nan; eexists; reflexivity|].
    pose proof (mag_value (-8) dphi ltac:(lia) Hm) as Hv.
    assert (H165 : 2 ^ (-8 + 173) = Z.of_nat SAMPLE_FUEL * 2 ^ 150)
      by (vm_compute; reflexivity).
    assert (H176 : 2 ^ (-8 + 173) < 2 ^ 176) by (vm_compute; reflexivity).
    apply (Np_reduce_fuel dphi SAMPLE_FUEL); [exact (mag_fin _ _ Hm)|lia|lia|exact Hfuel]. }
  destruct Hred as [d ->]. cbn [mbind option_bind]. eexists. reflexivity.
Qed.

(** X14.  [sample_f] always returns when the library honours its contract:
    if every arcsine is NaN or of magnitude at most 2, every two-argument
    arctangent NaN or of magnitude at most 4, every logarithm a valid
    [float], the scale [m_scale] valid and the fourth draw NaN or of
    magnitude at most 1, then no [while] loop of [Np] runs more than [2^15]
    times, in the density block or in the final call of [f], whatever the
    fiber, the outgoing direction and the other draws. *)
Theorem sample_f_returns (E : Extern) (h : Hair.t) (fuel : nat) (wo : Vector)
    (want_pdf : bool) (g : Canonical) :
  (forall x, angle_ok 2%f32 (asin x) = true) ->
  (forall y x, angle_ok 4%f32 (atan2 y x) = true) ->
  (forall x, valid (log x)) ->
  valid (Hair.m_scale h) ->
  angle_ok 1%f32 (draws g (3 + next g)%nat) = true ->
  (SAMPLE_FUEL <= fuel)%nat ->
  is_Some (fst (Hair.sample_f h fuel wo want_pdf g)).
Proof.
  intros Hasin Hatan Hlog Hscale Hu Hfuel.
  assert (Hgamma : forall x, nan_or_mag (-22) (asin x)).
  { intros x. apply (angle_mag 2%f32 _ (-22) eq_refl); [vm_compute; discriminate|lia|].
    apply Hasin. }
  assert (Hazim : forall y x, nan_or_mag (-21) (atan2 y x)).
  { intros y x. apply (angle_mag 4%f32 _ (-21) eq_refl); [vm_compute; discriminate|lia|].
    apply Hatan. }
  apply (angle_mag 1%f32 _ (-23) eq_refl ltac:(vm_compute; discriminate) ltac:(lia)) in Hu.
  unfold Hair.sample_f, sort_canonical. cbv beta iota zeta.
  destruct (Hair.tilt h _ _ _) as [sIp cIp]. cbn [fst snd draws next].
  change (S (S (S (next g)))) with (3 + next g)%nat.
  set (u := draws g (3 + next g)%nat) in *. clearbody u.
  set (p := Hair.select_lobe PMAX 0 _ _). clearbody p.
  set (gammaO := asin (clamp (ssqrt (1 - SQR (Vector.y wo))%f32) (- (1))%f32 1%f32)).
  set (gammaT := asin (clamp _ (- (1))%f32 1%f32)).
  pose proof (Hgamma (clamp (ssqrt (1 - SQR (Vector.y wo))%f32) (- (1))%f32 1%f32)) as HO.
  fold gammaO in HO.
  assert (HT : nan_or_mag (-22) gammaT) by apply Hgamma.
  clearbody gammaO gammaT.
  set (dphi := if (p <? PMAX)%nat then _ else _).
  assert (Hdphi : nan_or_mag (-10) dphi).
  { unfold dphi. destruct (Nat.ltb_spec p PMAX) as [Hp|Hp].
    - apply (nan_add (-12) (-21)); try lia.
      + apply Phi_mag; assumption.
      + apply SampleTrimmedLogistic_mag; assumption.
    - assert (H2PI : nan_or_mag (-21) TWO_PI)
        by (right; vm_compute; split; [reflexivity|discriminate]).
      pose proof (nan_mul _ _ (-19) _ _ H2PI Hu ltac:(lia) ltac:(lia) ltac:(lia)) as [Hn|Hm];
        [left; exact Hn|right; apply (mag_weaken (-19)); [lia|exact Hm]]. }
  clearbody dphi.
  set (wi := Vector3f _ _ _). clearbody wi.
  assert (Hf : is_Some (Hair.f h fuel wo wi)).
  { apply f_returns. intros q Hq. apply Np_total; try assumption.
    - pose proof (nan_sub _ _ (-19) _ _ (Hazim (Vector.y wi) (Vector.z wi))
                    (Hazim (Vector.y wo) (Vector.z wo))
                    ltac:(lia) ltac:(lia) ltac:(lia) ltac:(lia) ltac:(lia)) as [Hn|Hm];
        [left; exact Hn|right; apply (mag_weaken (-19)); [lia|exact Hm]].
    - apply Hgamma.
    - apply Hgamma.
    - unfold NP_FUEL. unfold SAMPLE_FUEL in Hfuel. lia. }
  destruct Hf as [fv Hf]. rewrite Hf.
  destruct want_pdf; cbn [mbind option_bind]; [|eexists; reflexivity].
  unfold for_range. change (PMAX - 0)%nat with 3%nat. cbn [for_loop].
  unfold Hair.pdf_lobe. cbn [mbind option_bind].
  destruct (Hair.tilt h 0 _ _) as [s0 c0].
  destruct (Np_total_sampled fuel dphi 0 (Hair.m_scale h) gammaO gammaT
              ltac:(unfold PMAX; lia) Hdphi HO HT Hfuel) as [n0 ->].
  cbn [mbind option_bind].
  destruct (Hair.tilt h 1 _ _) as [s1 c1].
  destruct (Np_total_sampled fuel dphi 1 (Hair.m_scale h) gammaO gammaT
              ltac:(unfold PMAX; lia) Hdphi HO HT Hfuel) as [n1 ->].
  cbn [mbind option_bind].
  destruct (Hair.tilt h 2 _ _) as [s2 c2].
  destruct (Np_total_sampled fuel dphi 2 (Hair.m_scale h) gammaO gammaT
              ltac:(unfold PMAX; lia) Hdphi HO HT Hfuel) as [n2 ->].
  cbn [mbind option_bind]. eexists. reflexivity.
Qed.

Lemma checked_ok (ok : float -> bool) (x : float) : ok NaN = true -> ok (checked ok x) = true.
Proof. intros Hnan. unfold checked. destruct (ok x) eqn:Hx; [exact Hx|exact Hnan]. Qed.

Lemma sample_f_returns_witness :
  is_Some (fst (Hair.sample_f (E := checked_extern) scenario SAMPLE_FUEL oblique true
                  half_draws)).
Proof.
  apply (sample_f_returns checked_extern scenario SAMPLE_FUEL oblique true half_draws).
  - intros x. apply (checked_ok (angle_ok 2%f32)). reflexivity.
  - intros y x. apply (checked_ok (angle_ok 4%f32)). reflexivity.
  - intros x. apply (checked_ok (valid_binary 24 128)). reflexivity.
  - vm_compute. reflexivity.
  - vm_compute. reflexivity.
  - unfold SAMPLE_FUEL. lia.
Defined.

(** ** The output arrays of [Ap] and [ComputeApPdf] *)

Lemma four_slots {A : Type} (l : list A) :
  length l = (PMAX + 1)%nat -> exists a b c d, l = [a; b; c; d].
Proof.
  intros Hl. destruct l as [|a [|b [|c [|d [|e l]]]]]; try discriminate Hl.
  exists a, b, c, d. reflexivity.
Qed.

(** X15.  [Ap] and [ComputeApPdf] write every one of the [PMAX + 1] entries
    of their output array and read none of them before it is written: the
    result does not depend on what the array held when it was passed in. *)
Theorem output_arrays_overwritten (E : Extern)
    (cosThetaO eta sinGammaT : float) (T : Spectrum) (ap0 ap1 : list Spectrum)
    (cosGammaO sinThetaO : float) (sigma : Spectrum) (pdf0 pdf1 : list float) :
  length ap0 = (PMAX + 1)%nat -> length ap1 = (PMAX + 1)%nat ->
  length pdf0 = (PMAX + 1)%nat -> length pdf1 = (PMAX + 1)%nat ->
  Ap cosThetaO eta sinGammaT T ap0 = Ap cosThetaO eta sinGammaT T ap1
  /\ length (Ap cosThetaO eta sinGammaT T ap0) = (PMAX + 1)%nat
  /\ ComputeApPdf cosGammaO cosThetaO sinThetaO eta sigma pdf0
     = ComputeApPdf cosGammaO cosThetaO sinThetaO eta sigma pdf1
  /\ length (ComputeApPdf cosGammaO cosThetaO sinThetaO eta sigma pdf0) = (PMAX + 1)%nat.
Proof.
  intros Ha0 Ha1 Hp0 Hp1.
  destruct (four_slots ap0 Ha0) as (a0 & b0 & c0 & d0 & ->).
  destruct (four_slots ap1 Ha1) as (a1 & b1 & c1 & d1 & ->).
  destruct (four_slots pdf0 Hp0) as (x0 & y0 & z0 & w0 & ->).
  destruct (four_slots pdf1 Hp1) as (x1 & y1 & z1 & w1 & ->).
  split; [reflexivity|]. split; [reflexivity|]. split; reflexivity.
Qed.

Lemma output_arrays_overwritten_witness :
  Ap (E := Ref.extern) 1%f32 (F32.lit 155 100) 0%f32 (splat (F32.lit 5 10))
    (replicate (PMAX + 1) nanS)
  = Ap (E := Ref.extern) 1%f32 (F32.lit 155 100) 0%f32 (splat (F32.lit 5 10))
      (replicate (PMAX + 1) (splat 0%f32))
  /\ ComputeApPdf (E := Ref.extern) 1%f32 1%f32 0%f32 (F32.lit 155 100) (splat 0%f32)
       (replicate (PMAX + 1) NaN)
     = ComputeApPdf (E := Ref.extern) 1%f32 1%f32 0%f32 (F32.lit 155 100) (splat 0%f32)
         (replicate (PMAX + 1) 0%f32).
Proof.
  destruct (output_arrays_overwritten Ref.extern 1%f32 (F32.lit 155 100) 0%f32
              (splat (F32.lit 5 10)) (replicate (PMAX + 1) nanS)
              (replicate (PMAX + 1) (splat 0%f32))
              1%f32 0%f32 (splat 0%f32) (replicate (PMAX + 1) NaN)
              (replicate (PMAX + 1) 0%f32) eq_refl eq_refl eq_refl eq_refl)
    as (HA & _ & HP & _).
  split; [exact HA|exact HP].
Defined.

(** ** C9: what the constructor establishes *)



